(** * gosh: an SSH command server: verification of the session core

    Shallow embedding of package [sshserver] (server and configuration
    files): the exec payload codec, the public-key authenticator, the
    channel router, the interactive line editor, configuration
    validation and the shutdown protocol.

    Conventions.
    - A Go [[]byte] is a [list byte]; a Go [string] is a [string]
      ([string(b)] is [string_of_list_byte], [[]byte(s)] is
      [list_byte_of_string]).
    - A [uint32] is a [Z] in [0, 2^32) with its wrap-around written
      out.  The size of [int] depends on the target: the server is
      modelled for the targets whose [int] has 64 bits (amd64, arm64);
      the exec decoder, the one place where the size shows, is given
      for a 32-bit [int] (386, arm) as well ([parseExecPayloadOn]).
    - A Go function returning [(T, error)] returns an [outcome T]; a
      run-time panic (index or slice out of range) is the third
      constructor.
    - Side effects (replies, channel writes, handler calls, log lines)
      are recorded in an event trace, in program order.  A log line is
      the call of [s.logger.Printf]; what package [log] does with it on
      the writer it was given is not modelled. *)

From Stdlib Require Import ZArith Lia List.
From Stdlib Require Import Strings.String Strings.Byte.
From stdpp Require Import base decidable option list strings gmap.

Local Open Scope Z_scope.

(** ** Go values *)

Module Go.

(** Errors built by the package, one constructor per [fmt.Errorf] site
    or per error passed through from a collaborator. *)
Inductive error : Type :=
  | ExecPayloadTooShort            (* "exec payload too short" *)
  | InvalidCommandLength           (* "invalid command length" *)
  | OsError (path : string)        (* error of os.ReadFile / os.Stat / os.OpenFile *)
  | KeyParseError                  (* error of ssh.ParseAuthorizedKey / ssh.ParsePrivateKey *)
  | PublicKeyAuthFailed (user : string)
                                   (* "public key authentication failed for %q" *)
  | KeyboardInteractiveUnsupported (* "keyboard-interactive authentication not supported" *)
  | ListenAddressEmpty             (* "listen address cannot be empty" *)
  | HostKeyPathEmpty               (* "host key file path cannot be empty when ..." *)
  | AuthorizedKeysPathEmpty        (* "authorized keys file path cannot be empty when ..." *)
  | HostKeyNotFound (path : string) (cause : error)
                                   (* "host key file not found at %s: %v" *)
  | AuthorizedKeysNotFound (path : string) (cause : error)
                                   (* "authorized keys file not found at %s: %v" *)
  | InvalidConfiguration (cause : error)
                                   (* "invalid configuration: %v" *)
  | LogFileOpenFailed (cause : error)
                                   (* "failed to open log file: %v" *)
  | LoadPrivateKeyFailed (cause : error)
                                   (* "failed to load private key: %v" *)
  | ParsePrivateKeyFailed (cause : error)
                                   (* "failed to parse private key: %v" *)
  | LoadHostKeyFailed (cause : error)
                                   (* "failed to load host key: %v" *)
  | ListenFailed (address : string) (cause : error)
                                   (* "failed to listen on %s: %v" *)
  | CloseListenerFailed.           (* "error closing listener: %v" *)

Inductive outcome (A : Type) : Type :=
  | Ok (a : A)
  | Err (e : error)
  | Panic.
Arguments Ok {A} a.
Arguments Err {A} e.
Arguments Panic {A}.

Definition is_err {A} (o : outcome A) : bool :=
  match o with Err _ => true | _ => false end.

(** [uint32] arithmetic. *)
Definition wrap32 (z : Z) : Z := z mod 2 ^ 32.

Definition uint32_of_byte (b : byte) : Z := Z.of_N (Byte.to_N b).

Definition shl32 (x n : Z) : Z := wrap32 (Z.shiftl x n).

Definition add32 (x y : Z) : Z := wrap32 (x + y).

(** [int(x)] for a [uint32] [x] on a target whose [int] has 64 bits:
    reinterpretation in 64-bit two's complement. *)
Definition int_of_uint32 (x : Z) : Z := (x + 2 ^ 63) mod 2 ^ 64 - 2 ^ 63.

(** [int(x)] for a [uint32] [x] on a target whose [int] has [intSize]
    bits (32 or 64): reinterpretation in two's complement of that
    size. *)
Definition int_of_uint32_on (intSize : Z) (x : Z) : Z :=
  (x + 2 ^ (intSize - 1)) mod 2 ^ intSize - 2 ^ (intSize - 1).

(** The string literals ["\n"] and ["\r\n"]. *)
Definition LF : string := string_of_list_byte [x0a].

Definition CRLF : string := string_of_list_byte [x0d; x0a].

(** [len(s)] as an [int], for a slice and for a string. *)
Definition len {A} (s : list A) : Z := Z.of_nat (length s).

Definition strlen (s : string) : Z := len (list_byte_of_string s).

(** [s[i]]: [None] is the index-out-of-range panic. *)
Definition index {A} (s : list A) (i : nat) : option A := s !! i.

(** [s[lo:hi]] on a slice whose capacity equals its length: [None] is
    the slice-bounds-out-of-range panic. *)
Definition slice {A} (s : list A) (lo hi : Z) : option (list A) :=
  if bool_decide (0 <= lo /\ lo <= hi /\ hi <= len s)
  then Some (take (Z.to_nat (hi - lo)) (drop (Z.to_nat lo) s))
  else None.

End Go.

Import Go.

(** ** Exec payload codec *)

Module Codec.

(** [parseExecPayload], server file lines 319-330, on a target whose
    [int] has 64 bits. *)
Definition parseExecPayload (payload : list byte) : outcome string :=
  if bool_decide (len payload < 4) then Err ExecPayloadTooShort
  else
    match index payload 3, index payload 2, index payload 1, index payload 0 with
    | Some p3, Some p2, Some p1, Some p0 =>
        let length :=
          Z.lor (Z.lor (Z.lor (uint32_of_byte p3)
                              (shl32 (uint32_of_byte p2) 8))
                       (shl32 (uint32_of_byte p1) 16))
                (shl32 (uint32_of_byte p0) 24) in
        if bool_decide (length = 0)
           || bool_decide (int_of_uint32 length > len payload - 4)
        then Err InvalidCommandLength
        else
          match slice payload 4 (add32 4 length) with
          | Some command => Ok (string_of_list_byte command)
          | None => Panic
          end
    | _, _, _, _ => Panic
    end.

(** [parseExecPayload], server file lines 319-330, on a target whose
    [int] has [intSize] bits.  The size shows in the conversion
    [int(length)] of line 325 only: the length field and the slice
    bound [4+length] are [uint32] on every target, and a slice bound
    beyond the capacity panics whatever its type. *)
Definition parseExecPayloadOn (intSize : Z) (payload : list byte)
  : outcome string :=
  if bool_decide (len payload < 4) then Err ExecPayloadTooShort
  else
    match index payload 3, index payload 2, index payload 1, index payload 0 with
    | Some p3, Some p2, Some p1, Some p0 =>
        let length :=
          Z.lor (Z.lor (Z.lor (uint32_of_byte p3)
                              (shl32 (uint32_of_byte p2) 8))
                       (shl32 (uint32_of_byte p1) 16))
                (shl32 (uint32_of_byte p0) 24) in
        if bool_decide (length = 0)
           || bool_decide (int_of_uint32_on intSize length > len payload - 4)
        then Err InvalidCommandLength
        else
          match slice payload 4 (add32 4 length) with
          | Some command => Ok (string_of_list_byte command)
          | None => Panic
          end
    | _, _, _, _ => Panic
    end.

(** The big-endian value of the four-byte length field. *)
Definition declared_length (p0 p1 p2 p3 : byte) : Z :=
  uint32_of_byte p0 * 2 ^ 24 + uint32_of_byte p1 * 2 ^ 16
  + uint32_of_byte p2 * 2 ^ 8 + uint32_of_byte p3.

(** The value of the length field of a payload (zero when the payload
    has no length field). *)
Definition lengthField (payload : list byte) : Z :=
  match payload with
  | p0 :: p1 :: p2 :: p3 :: _ => declared_length p0 p1 p2 p3
  | _ => 0
  end.

(** The byte of [z] at bit offset [sh]. *)
Definition byte_at (z : Z) (sh : Z) : byte :=
  match Byte.of_N (Z.to_N (Z.shiftr z sh mod 256)) with
  | Some b => b
  | None => x00
  end.

(** The exec wire format in the words of the specification ("a 4-byte
    big-endian unsigned length field followed by exactly that many
    bytes of command text"), as the peer writes it; the package holds
    the decoder only.  The length field is the [uint32] conversion of
    the byte count. *)
Definition encodeExecPayload (command : string) : list byte :=
  let body := list_byte_of_string command in
  let n := wrap32 (len body) in
  byte_at n 24 :: byte_at n 16 :: byte_at n 8 :: byte_at n 0 :: body.

End Codec.

(** ** Collaborators *)

(** The command processor ([CommandHandler] interface).  A handler
    object carries state of its own (a current directory, a game in
    progress), so each method reads the object, and [Execute] also
    returns the object as the call leaves it. *)
Class CommandHandler (H : Type) : Type := {
  Execute : H -> string -> string * Z * H;
  GetPrompt : H -> string;
  GetWelcomeMessage : H -> string
}.

(** The file system as the package uses it. *)
Record FileSystem : Type := {
  (* os.ReadFile: [None] is a non-nil error *)
  ReadFile : string -> option (list byte);
  (* os.Stat: [false] is a non-nil error *)
  Stat : string -> bool;
  (* os.OpenFile(path, O_APPEND|O_CREATE|O_WRONLY, 0644): [false] is a
     non-nil error *)
  OpenFile : string -> bool
}.

(** Calls into the operating system, in program order. *)
Inductive syscall : Type :=
  | SysStat (path : string)
  | SysOpenFile (path : string)
  | SysReadFile (path : string)
  | SysListen (address : string).

(** ** Configuration *)

Module Cfg.

Record LogConfig : Type := {
  Enabled : bool;
  FilePath : string;
  LogToStdout : bool
}.

Record Config : Type := {
  ListenAddress : string;
  HostKeyFile : string;
  AuthorizedKeysFile : string;
  NoClientAuth : bool;
  AllowKeyboardInteractive : bool;
  (* a pointer: [None] is nil *)
  LogWriter : option LogConfig
}.

Definition DefaultConfig : Config := {|
  ListenAddress := ":2222";
  HostKeyFile := "server_key";
  AuthorizedKeysFile := "authorized_keys";
  NoClientAuth := false;
  AllowKeyboardInteractive := false;
  LogWriter := Some {| Enabled := true;
                       FilePath := "ssh_server.log";
                       LogToStdout := true |}
|}.

(** [Config.Validate], configuration file lines 58-84: the error
    ([None] is nil) and the system calls made. *)
Definition Validate (fs : FileSystem) (c : Config) : option error * list syscall :=
  if bool_decide (ListenAddress c = EmptyString) then (Some ListenAddressEmpty, [])
  else if negb (NoClientAuth c) then
    if bool_decide (HostKeyFile c = EmptyString) then (Some HostKeyPathEmpty, [])
    else if bool_decide (AuthorizedKeysFile c = EmptyString) then
      (Some AuthorizedKeysPathEmpty, [])
    else if negb (Stat fs (HostKeyFile c)) then
      (Some (HostKeyNotFound (HostKeyFile c) (OsError (HostKeyFile c))),
       [SysStat (HostKeyFile c)])
    else if negb (Stat fs (AuthorizedKeysFile c)) then
      (Some (AuthorizedKeysNotFound (AuthorizedKeysFile c)
               (OsError (AuthorizedKeysFile c))),
       [SysStat (HostKeyFile c); SysStat (AuthorizedKeysFile c)])
    else (None, [SysStat (HostKeyFile c); SysStat (AuthorizedKeysFile c)])
  else (None, []).

End Cfg.

Import Cfg.

(** ** The transport library

    [golang.org/x/crypto/ssh] is a collaborator: its key types and
    parsers are parameters of the development. *)
Class SSH : Type := {
  PublicKey : Type;
  Signer : Type;
  (* ssh.FingerprintSHA256 *)
  FingerprintSHA256 : PublicKey -> string;
  (* ssh.ParseAuthorizedKey: the first key of the input and the bytes
     after its record ([out] and [rest]), or [None] for a non-nil error *)
  ParseAuthorizedKey : list byte -> option (PublicKey * list byte);
  (* ssh.ParsePrivateKey *)
  ParsePrivateKey : list byte -> option Signer
}.

(** ssh.ConnMetadata, as far as the package reads it. *)
Record ConnMetadata : Type := { User : string }.

(** ssh.Permissions. *)
Record Permissions : Type := {
  CriticalOptions : gmap string string;
  Extensions : gmap string string
}.

(** The permission record that carries a key fingerprint. *)
Definition granted (keyFingerprint : string) : Permissions :=
  {| CriticalOptions := ∅;
     Extensions := {[ "pubkey-fp"%string := keyFingerprint ]} |}.

(** ssh.Request.  [Type] is a reserved word, hence [Type_]. *)
Record Request : Type := {
  Type_ : string;
  WantReply : bool;
  Payload : list byte
}.

(** Lines written through [s.logger.Printf], one constructor per call
    site. *)
Inductive logline : Type :=
  | LogListening (address : string)
  | LogFailedLoadAuthorizedKeys (e : error)
  | LogAttempting (user fingerprint : string)
  | LogErrorParsingKey (e : error)
  | LogAuthSuccess (user : string)
  | LogKeyboardInteractive (user : string)
  | LogChannelRequest (type : string)
  | LogExecParseError (e : error)
  | LogReadError.

(** What a channel goroutine does to the outside, in program order. *)
Inductive event : Type :=
  | EvLog (l : logline)
  | EvReply (ok : bool)          (* req.Reply(ok, nil) *)
  | EvWrite (data : list byte)   (* channel.Write(data) *)
  | EvExecute (cmd : string)     (* s.cmdHandler.Execute(cmd) *)
  | EvGoShell                    (* go s.handleShell(channel) *)
  | EvExitStatus (status : Z)    (* sendExitStatus(channel, status) *)
  | EvClose                      (* channel.Close() *)
  | EvPanic.                     (* run-time panic *)

(** ** The server *)

Module Srv.

Section Server.

Context {H : Type} {CH : CommandHandler H} {lib : SSH}.

(** ssh.ServerConfig, as far as [NewServer] fills it. *)
Record ServerConfig : Type := {
  scNoClientAuth : bool;
  scHostKeys : list Signer;
  scPublicKeyCallback : bool;
  scKeyboardInteractiveCallback : bool
}.

Inductive logSink : Type :=
  | Stdout
  | LogFile (path : string).

(** [Server]: the fields set by [NewServer].  [logger] is the writer
    handed to [log.New]: [None] is the nil writer, [Some ws] is
    [io.MultiWriter(ws...)].  [cmdHandler] is [None] for a nil handler. *)
Record Server : Type := {
  config : Config;
  sshConfig : ServerConfig;
  cmdHandler : option H;
  logger : option (list logSink)
}.

(** [loadHostKey], server file lines 305-317. *)
Definition loadHostKey (fs : FileSystem) (keyFile : string)
  : outcome Signer * list syscall :=
  match ReadFile fs keyFile with
  | None => (Err (LoadPrivateKeyFailed (OsError keyFile)), [SysReadFile keyFile])
  | Some privateBytes =>
      match ParsePrivateKey privateBytes with
      | None => (Err (ParsePrivateKeyFailed KeyParseError), [SysReadFile keyFile])
      | Some private => (Ok private, [SysReadFile keyFile])
      end
  end.

(** The writer built at server file lines 41-58. *)
Definition openLogWriter (fs : FileSystem) (lw : LogConfig)
  : outcome (option (list logSink)) * list syscall :=
  if Enabled lw then
    let writers := if LogToStdout lw then [Stdout] else [] in
    if negb (bool_decide (FilePath lw = EmptyString)) then
      if OpenFile fs (FilePath lw)
      then (Ok (Some (writers ++ [LogFile (FilePath lw)])),
            [SysOpenFile (FilePath lw)])
      else (Err (LogFileOpenFailed (OsError (FilePath lw))),
            [SysOpenFile (FilePath lw)])
    else (Ok (Some writers), [])
  else (Ok None, []).

(** [NewServer], server file lines 36-89: the result and the system
    calls made.  A nil [LogWriter] is dereferenced at line 42. *)
Definition NewServer (fs : FileSystem) (config : Config) (handler : option H)
  : outcome Server * list syscall :=
  let '(verr, t1) := Validate fs config in
  match verr with
  | Some err => (Err (InvalidConfiguration err), t1)
  | None =>
      match LogWriter config with
      | None => (Panic, t1)
      | Some lw =>
          let '(lres, t2) := openLogWriter fs lw in
          match lres with
          | Err e => (Err e, t1 ++ t2)
          | Panic => (Panic, t1 ++ t2)
          | Ok logWriter =>
              if negb (NoClientAuth config) then
                let '(kres, t3) := loadHostKey fs (HostKeyFile config) in
                match kres with
                | Err e => (Err (LoadHostKeyFailed e), t1 ++ t2 ++ t3)
                | Panic => (Panic, t1 ++ t2 ++ t3)
                | Ok private =>
                    (Ok {| config := config;
                           sshConfig :=
                             {| scNoClientAuth := NoClientAuth config;
                                scHostKeys := [private];
                                scPublicKeyCallback := true;
                                scKeyboardInteractiveCallback :=
                                  AllowKeyboardInteractive config |};
                           cmdHandler := handler;
                           logger := logWriter |},
                     t1 ++ t2 ++ t3)
                end
              else
                (Ok {| config := config;
                       sshConfig :=
                         {| scNoClientAuth := NoClientAuth config;
                            scHostKeys := [];
                            scPublicKeyCallback := false;
                            scKeyboardInteractiveCallback := false |};
                       cmdHandler := handler;
                       logger := logWriter |},
                 t1 ++ t2)
          end
      end
  end.

(** [Start], server file lines 92-105, up to the spawn of the accept
    loop: [listen] is [net.Listen("tcp", _)] ([false] is a non-nil
    error).  The result is the log line written; on a logger that was
    given the nil writer (logging disabled) [s.logger.Printf], line 99,
    panics, after the socket is bound. *)
Definition Start (listen : string -> bool) (s : Server)
  : outcome logline * list syscall :=
  let address := ListenAddress (config s) in
  if listen address
  then
    match logger s with
    | Some _ => (Ok (LogListening address), [SysListen address])
    | None => (Panic, [SysListen address])
    end
  else (Err (ListenFailed address (OsError address)), [SysListen address]).

(** *** Authenticator *)

(** The loop of [validatePublicKey], server file lines 278-297.  Each
    turn of the Go loop takes one unit of [fuel]; [None] is a loop that
    is still running when the fuel is gone. *)
Fixpoint validateLoop (fuel : nat) (user keyFingerprint : string)
    (authorizedKeysBytes : list byte)
  : option (outcome Permissions * list logline) :=
  if bool_decide (len authorizedKeysBytes > 0) then
    match fuel with
    | O => None
    | S fuel' =>
        match ParseAuthorizedKey authorizedKeysBytes with
        | None => Some (Err KeyParseError, [LogErrorParsingKey KeyParseError])
        | Some (pubKey, rest) =>
            if bool_decide (FingerprintSHA256 pubKey = keyFingerprint) then
              Some (Ok {| CriticalOptions := ∅;
                          Extensions := {[ "pubkey-fp"%string := keyFingerprint ]} |},
                    [LogAuthSuccess user])
            else validateLoop fuel' user keyFingerprint rest
        end
    end
  else Some (Err (PublicKeyAuthFailed user), []).

(** [validatePublicKey], server file lines 268-298.  The fuel is the
    size of the file: enough for every parser that consumes input. *)
Definition validatePublicKey (fs : FileSystem) (s : Server)
    (conn : ConnMetadata) (key : PublicKey)
  : option (outcome Permissions * list logline) :=
  let path := AuthorizedKeysFile (config s) in
  match ReadFile fs path with
  | None => Some (Err (OsError path), [LogFailedLoadAuthorizedKeys (OsError path)])
  | Some authorizedKeysBytes =>
      let keyFingerprint := FingerprintSHA256 key in
      match validateLoop (length authorizedKeysBytes) (User conn)
              keyFingerprint authorizedKeysBytes with
      | Some (res, logs) =>
          Some (res, LogAttempting (User conn) keyFingerprint :: logs)
      | None => None
      end
  end.

(** [handleKeyboardInteractive], server file lines 300-303. *)
Definition handleKeyboardInteractive (conn : ConnMetadata)
  : outcome Permissions * list logline :=
  (Err KeyboardInteractiveUnsupported, [LogKeyboardInteractive (User conn)]).

(** The [n]-th record of a trust-store file, as the parser yields the
    records one after the other from a non-empty input. *)
Fixpoint entry (n : nat) (file : list byte) : option PublicKey :=
  match file with
  | [] => None
  | _ :: _ =>
      match ParseAuthorizedKey file with
      | None => None
      | Some (pubKey, rest) =>
          match n with
          | O => Some pubKey
          | S n' => entry n' rest
          end
      end
  end.

(** *** Channel router *)

(** One turn of the loop of [handleChannel], server file lines
    181-214, on request [req] with the handler in state [h]: the
    events, the handler afterwards, and whether the loop goes on
    ([false] is the [return] of the exec path, or a panic). *)
Definition handleRequest (h : option H) (req : Request)
  : list event * option H * bool :=
  let received := EvLog (LogChannelRequest (Type_ req)) in
  if bool_decide (Type_ req = "pty-req") then
    ([received; EvReply true], h, true)
  else if bool_decide (Type_ req = "shell") then
    match h with
    | Some hs =>
        ([received; EvReply true;
          EvWrite (list_byte_of_string (GetWelcomeMessage hs ++ LF));
          EvGoShell], h, true)
    | None => ([received; EvReply true], h, true)
    end
  else if bool_decide (Type_ req = "exec") then
    match h with
    | None => ([received; EvReply false], h, true)
    | Some hs =>
        match Codec.parseExecPayload (Payload req) with
        | Err e =>
            ([received; EvLog (LogExecParseError e); EvReply false], h, true)
        | Panic => ([received; EvPanic], h, false)
        | Ok command =>
            let '(output, exitStatus, hs') := Execute hs command in
            ([received; EvExecute command;
              EvWrite (list_byte_of_string (output ++ LF));
              EvReply true; EvExitStatus exitStatus], Some hs', false)
        end
    end
  else ([received; EvReply false], h, true).

(** The [for req := range requests] loop over the requests delivered
    before the request stream is closed. *)
Fixpoint handleRequests (h : option H) (requests : list Request)
  : list event * option H :=
  match requests with
  | [] => ([], h)
  | req :: later =>
      let '(evs, h', continue) := handleRequest h req in
      if continue then
        let '(evs', h'') := handleRequests h' later in (evs ++ evs', h'')
      else (evs, h')
  end.

(** [handleChannel], server file lines 178-215; the deferred
    [channel.Close()] runs last.  Calls that a shell goroutine started
    here makes on the same handler are not interleaved. *)
Definition handleChannel (h : option H) (requests : list Request)
  : list event * option H :=
  let '(evs, h') := handleRequests h requests in (evs ++ [EvClose], h').

(** *** Line editor *)

(** The locals of [handleShell] that live across bytes: the command
    buffer and the handler object (as this goroutine's calls leave it;
    calls of other goroutines on the same object are not interleaved). *)
Record editor : Type := {
  cmdBuffer : list byte;
  handler : H
}.

(** The body of the inner loop of [handleShell], server file lines
    236-254, on byte [b]. *)
Definition shellByte (b : byte) (st : editor) : editor * list event :=
  if Byte.eqb b x0d || Byte.eqb b x0a then
    if bool_decide (len (cmdBuffer st) > 0) then
      let cmd := string_of_list_byte (cmdBuffer st) in
      let '(output, _, h') := Execute (handler st) cmd in
      ({| cmdBuffer := take 0 (cmdBuffer st); handler := h' |},
       [EvExecute cmd;
        EvWrite (list_byte_of_string (CRLF ++ output ++ CRLF ++ GetPrompt h'))])
    else
      (st, [EvWrite (list_byte_of_string (CRLF ++ GetPrompt (handler st)))])
  else if Byte.eqb b x7f || Byte.eqb b x08 then
    if bool_decide (len (cmdBuffer st) > 0) then
      ({| cmdBuffer := take (length (cmdBuffer st) - 1) (cmdBuffer st);
          handler := handler st |},
       [EvWrite [x08; x20; x08]])
    else (st, [])
  else
    ({| cmdBuffer := cmdBuffer st ++ [b]; handler := handler st |},
     [EvWrite [b]]).

(** The inner loop over the [n] bytes of one read. *)
Fixpoint shellBytes (data : list byte) (st : editor) : editor * list event :=
  match data with
  | [] => (st, [])
  | b :: data' =>
      let '(st', evs) := shellByte b st in
      let '(st'', evs') := shellBytes data' st' in
      (st'', evs ++ evs')
  end.

(** What one [channel.Read(buffer)] returns: bytes and a nil error, or
    a non-nil error ([io.EOF] or another); bytes that come with an
    error are dropped by the test at line 228, so they are not
    represented. *)
Inductive read : Type :=
  | ReadBytes (data : list byte)
  | ReadError (eof : bool).

(** The outer loop, server file lines 226-256, over the reads the
    channel delivers: the editor, the events, and whether the function
    has returned ([false]: blocked in the next read). *)
Fixpoint shellLoop (reads : list read) (st : editor)
  : editor * list event * bool :=
  match reads with
  | [] => (st, [], false)
  | ReadError eof :: _ =>
      (st, if eof then [] else [EvLog LogReadError], true)
  | ReadBytes data :: reads' =>
      let '(st', evs) := shellBytes data st in
      let '(st'', evs', returned) := shellLoop reads' st' in
      (st'', evs ++ evs', returned)
  end.

(** [handleShell], server file lines 217-257, started on handler [h]. *)
Definition handleShell (h : H) (reads : list read)
  : editor * list event * bool :=
  let '(st, evs, returned) :=
    shellLoop reads {| cmdBuffer := []; handler := h |} in
  (st, EvWrite (list_byte_of_string (GetPrompt h)) :: evs
         ++ (if returned then [EvClose] else []),
   returned).

(** The commands handed to [Execute] in a trace. *)
Definition executed (evs : list event) : list string :=
  omap (fun e => match e with EvExecute cmd => Some cmd | _ => None end) evs.

End Server.

End Srv.

(** ** Construction from a pointer

    [NewServer] takes a [*Config].  [Srv.NewServer] is the function on
    the configuration the pointer refers to; here the pointer itself is
    the argument, and [None] is nil. *)

Module Ptr.

Section Ptr.

Context {H : Type} {lib : SSH}.

(** [NewServer], server file lines 36-89.  Its first statement calls
    [config.Validate()], whose first statement (configuration file
    line 59) reads [c.ListenAddress]: on a nil pointer this is a nil
    dereference, before any system call. *)
Definition NewServer (fs : FileSystem) (config : option Config)
    (handler : option H)
  : outcome (@Srv.Server H lib) * list syscall :=
  match config with
  | None => (Panic, [])
  | Some c => Srv.NewServer fs c handler
  end.

End Ptr.

End Ptr.

(** ** Shutdown protocol

    The goroutines of the server and the [sync.WaitGroup] that [Stop]
    waits on, as a transition system.  A state counts the live
    goroutines of each kind; an action is one atomic piece of one
    goroutine, named after the code it runs.  [step] is [None] where
    the action is not enabled. *)

Module Lifecycle.

(** Where the caller of [Stop] stands. *)
Inductive stopPhase : Type :=
  | NotCalled
  | DoneClosed                       (* after [close(s.done)], line 109 *)
  | Waiting                          (* in [s.wg.Wait()], line 115 *)
  | Returned (err : option error).   (* lines 112 and 116 *)

Record state : Type := {
  (* [s.done] is closed *)
  done : bool;
  (* [s.listener]: [None] is nil, [Some open] a listener *)
  listener : option bool;
  (* the counter of [s.wg] *)
  wg : Z;
  (* [acceptConnections] is running *)
  accepting : bool;
  (* connection goroutines (line 139) inside [ssh.NewServerConn] *)
  handshaking : nat;
  (* connection goroutines in the [range chans] loop *)
  serving : nat;
  (* [handleGlobalRequests] goroutines (line 160) *)
  drains : nat;
  (* [handleChannel] goroutines (line 174) *)
  routers : nat;
  (* [handleShell] goroutines (line 191) *)
  shells : nat;
  stop : stopPhase
}.

Definition init : state := {|
  done := false; listener := None; wg := 0; accepting := false;
  handshaking := 0; serving := 0; drains := 0; routers := 0; shells := 0;
  stop := NotCalled
|}.

Inductive action : Type :=
  (* [Start], lines 93-102, where [net.Listen] succeeds *)
  | StartListening
  (* [acceptConnections], lines 127-142: a connection is accepted *)
  | AcceptConnection
  (* lines 127-134: [Accept] fails, [s.done] is open *)
  | AcceptError
  (* lines 124-125 or 130-131: [s.done] is closed, return *)
  | AcceptReturn
  (* [handleConnection], lines 151-160: the handshake result *)
  | Handshake (ok : bool)
  (* lines 162-174: a channel is opened; [accepted] is false for a
     channel that is rejected or whose [Accept] fails *)
  | NewChannel (accepted : bool)
  (* line 175: [chans] is closed, the connection goroutine returns *)
  | ConnectionEnd
  (* [handleGlobalRequests] returns *)
  | DrainReturn
  (* [handleChannel], lines 187-192: a shell request, handler present *)
  | ShellRequest
  (* [handleChannel] returns *)
  | RouterReturn
  (* [handleShell] returns *)
  | ShellReturn
  (* [Stop], line 109 *)
  | StopCloseDone
  (* [Stop], lines 110-114; [ok] is false when [Close] returns an error *)
  | StopCloseListener (ok : bool)
  (* [Stop], lines 115-116: [Wait] returns, the counter being zero *)
  | StopWaitReturn.

(** Field updates. *)
Definition closeDone (s : state) : state :=
  {| done := true; listener := listener s; wg := wg s;
     accepting := accepting s; handshaking := handshaking s;
     serving := serving s; drains := drains s; routers := routers s;
     shells := shells s; stop := stop s |}.

Definition setListener (l : option bool) (s : state) : state :=
  {| done := done s; listener := l; wg := wg s;
     accepting := accepting s; handshaking := handshaking s;
     serving := serving s; drains := drains s; routers := routers s;
     shells := shells s; stop := stop s |}.

(** [s.wg.Add(delta)]; [s.wg.Done()] is [wgAdd (-1)]. *)
Definition wgAdd (delta : Z) (s : state) : state :=
  {| done := done s; listener := listener s; wg := wg s + delta;
     accepting := accepting s; handshaking := handshaking s;
     serving := serving s; drains := drains s; routers := routers s;
     shells := shells s; stop := stop s |}.

Definition setAccepting (b : bool) (s : state) : state :=
  {| done := done s; listener := listener s; wg := wg s;
     accepting := b; handshaking := handshaking s;
     serving := serving s; drains := drains s; routers := routers s;
     shells := shells s; stop := stop s |}.

Definition setHandshaking (n : nat) (s : state) : state :=
  {| done := done s; listener := listener s; wg := wg s;
     accepting := accepting s; handshaking := n;
     serving := serving s; drains := drains s; routers := routers s;
     shells := shells s; stop := stop s |}.

Definition setServing (n : nat) (s : state) : state :=
  {| done := done s; listener := listener s; wg := wg s;
     accepting := accepting s; handshaking := handshaking s;
     serving := n; drains := drains s; routers := routers s;
     shells := shells s; stop := stop s |}.

Definition setDrains (n : nat) (s : state) : state :=
  {| done := done s; listener := listener s; wg := wg s;
     accepting := accepting s; handshaking := handshaking s;
     serving := serving s; drains := n; routers := routers s;
     shells := shells s; stop := stop s |}.

Definition setRouters (n : nat) (s : state) : state :=
  {| done := done s; listener := listener s; wg := wg s;
     accepting := accepting s; handshaking := handshaking s;
     serving := serving s; drains := drains s; routers := n;
     shells := shells s; stop := stop s |}.

Definition setShells (n : nat) (s : state) : state :=
  {| done := done s; listener := listener s; wg := wg s;
     accepting := accepting s; handshaking := handshaking s;
     serving := serving s; drains := drains s; routers := routers s;
     shells := n; stop := stop s |}.

Definition setStop (p : stopPhase) (s : state) : state :=
  {| done := done s; listener := listener s; wg := wg s;
     accepting := accepting s; handshaking := handshaking s;
     serving := serving s; drains := drains s; routers := routers s;
     shells := shells s; stop := p |}.

Definition step (a : action) (s : state) : option state :=
  match a with
  | StartListening =>
      (* s.listener = listener; s.wg.Add(1); go s.acceptConnections() *)
      if bool_decide (listener s = None)
      then Some (setAccepting true (wgAdd 1 (setListener (Some true) s)))
      else None
  | AcceptConnection =>
      (* s.wg.Add(1); go func() { defer s.wg.Done(); ... }() *)
      if accepting s && bool_decide (listener s = Some true)
      then Some (setHandshaking (S (handshaking s)) (wgAdd 1 s))
      else None
  | AcceptError =>
      if accepting s && negb (done s) then Some s else None
  | AcceptReturn =>
      (* return, with the deferred s.wg.Done() *)
      if accepting s && done s
      then Some (wgAdd (-1) (setAccepting false s))
      else None
  | Handshake ok =>
      match handshaking s with
      | O => None
      | S n =>
          if ok then
            (* go s.handleGlobalRequests(reqs), then the channel loop *)
            Some (setDrains (S (drains s))
                    (setServing (S (serving s)) (setHandshaking n s)))
          else
            (* return, with the deferred s.wg.Done() *)
            Some (wgAdd (-1) (setHandshaking n s))
      end
  | NewChannel accepted =>
      match serving s with
      | O => None
      | S _ =>
          (* go s.handleChannel(channel, requests) *)
          if accepted then Some (setRouters (S (routers s)) s) else Some s
      end
  | ConnectionEnd =>
      match serving s with
      | O => None
      | S n => Some (wgAdd (-1) (setServing n s))
      end
  | DrainReturn =>
      match drains s with
      | O => None
      | S n => Some (setDrains n s)
      end
  | ShellRequest =>
      match routers s with
      | O => None
      | S _ =>
          (* go s.handleShell(channel) *)
          Some (setShells (S (shells s)) s)
      end
  | RouterReturn =>
      match routers s with
      | O => None
      | S n => Some (setRouters n s)
      end
  | ShellReturn =>
      match shells s with
      | O => None
      | S n => Some (setShells n s)
      end
  | StopCloseDone =>
      match stop s with
      | NotCalled => Some (setStop DoneClosed (closeDone s))
      | _ => None
      end
  | StopCloseListener ok =>
      match stop s with
      | DoneClosed =>
          match listener s with
          | None =>
              (* s.listener == nil: nothing to close *)
              if ok then Some (setStop Waiting s) else None
          | Some _ =>
              if ok then Some (setStop Waiting (setListener (Some false) s))
              else Some (setStop (Returned (Some CloseListenerFailed)) s)
          end
      | _ => None
      end
  | StopWaitReturn =>
      match stop s with
      | Waiting =>
          if bool_decide (wg s = 0)
          then Some (setStop (Returned None) s)
          else None
      | _ => None
      end
  end.

(** A schedule: the actions taken, in order. *)
Fixpoint run (schedule : list action) (s : state) : option state :=
  match schedule with
  | [] => Some s
  | a :: schedule' =>
      match step a s with
      | Some s' => run schedule' s'
      | None => None
      end
  end.

Definition reachable (s : state) : Prop :=
  exists schedule, run schedule init = Some s.

(** All goroutines the server has spawned and that are still live. *)
Definition live (s : state) : nat :=
  (if accepting s then 1 else 0) + handshaking s + serving s
  + drains s + routers s + shells s.

(** The live goroutines that were counted into [s.wg] (lines 101 and
    138). *)
Definition tracked (s : state) : nat :=
  (if accepting s then 1 else 0) + handshaking s + serving s.

(** What the counter of [s.wg] stands for, and what [Stop] has done
    once it is under way. *)
Definition counted (s : state) : Prop :=
  wg s = Z.of_nat (tracked s)
  /\ (stop s <> NotCalled -> done s = true)
  /\ (listener s = None -> accepting s = false).

End Lifecycle.

(** ** Path resolution *)

Module Paths.

(** Package [path/filepath], as far as [ResolvePath] calls it. *)
Record PathLib : Type := {
  IsAbs : string -> bool;
  Join : string -> string -> string;
  Dir : string -> string
}.

(** The process: [os.Getwd] and [os.Executable] ([None] is a non-nil
    error). *)
Record Process : Type := {
  Getwd : option string;
  Executable : option string
}.

(** [ResolvePath], configuration file lines 87-111. *)
Definition ResolvePath (lib : PathLib) (proc : Process) (fs : FileSystem)
    (path : string) : string :=
  if IsAbs lib path then path
  else
    let fromExecutable :=
      match Executable proc with
      | Some exe =>
          let exeDir := Dir lib exe in
          let absPath := Join lib exeDir path in
          if Stat fs absPath then absPath else path
      | None => path
      end in
    match Getwd proc with
    | Some cwd =>
        let absPath := Join lib cwd path in
        if Stat fs absPath then absPath else fromExecutable
    | None => fromExecutable
    end.

End Paths.

(** ** Connection supervisor *)

Module Conn.

(** What [handleGlobalRequests] does, in program order. *)
Inductive globalEvent : Type :=
  | GlLog (type : string)        (* "Received global request: %v" *)
  | GlReply (ok : bool).         (* req.Reply(ok, nil) *)

(** [handleGlobalRequests], server file lines 259-266, over the
    requests delivered before the stream is closed. *)
Fixpoint handleGlobalRequests (reqs : list Request) : list globalEvent :=
  match reqs with
  | [] => []
  | req :: later =>
      GlLog (Type_ req)
        :: (if WantReply req then [GlReply false] else [])
        ++ handleGlobalRequests later
  end.

(** ssh.NewChannel, as far as [handleConnection] uses it: the channel
    type and whether [Accept] returns an error. *)
Record ChannelOpen : Type := {
  ChannelType : string;
  AcceptFails : bool
}.

(** What [handleConnection] does, in program order. *)
Inductive connEvent : Type :=
  | CnLogNewConnection           (* "New connection from %s" *)
  | CnLogHandshakeFailed         (* "Failed to handshake: %v" *)
  | CnLogEstablished             (* "Connection established from ..." *)
  | CnLogAcceptFailed            (* "Could not accept channel: %v" *)
  | CnGoGlobalRequests           (* go s.handleGlobalRequests(reqs) *)
  | CnReject (message : string)  (* newChannel.Reject(ssh.UnknownChannelType, message) *)
  | CnGoChannel (index : nat)    (* go s.handleChannel(channel, requests) *)
  | CnCloseSSH                   (* sshConn.Close() *)
  | CnClose.                     (* conn.Close() *)

(** The [range chans] loop, server file lines 162-175; [index] numbers
    the channel-open events. *)
Fixpoint serveChannels (index : nat) (chans : list ChannelOpen)
  : list connEvent :=
  match chans with
  | [] => []
  | newChannel :: later =>
      (if negb (bool_decide (ChannelType newChannel = "session"))
       then [CnReject "unknown channel type"]
       else if AcceptFails newChannel then [CnLogAcceptFailed]
       else [CnGoChannel index])
      ++ serveChannels (S index) later
  end.

(** [handleConnection], server file lines 147-176: [handshake] is
    whether [ssh.NewServerConn] succeeds, [chans] the channels opened
    before the connection ends.  The deferred calls run last, in
    reverse order. *)
Definition handleConnection (handshake : bool) (chans : list ChannelOpen)
  : list connEvent :=
  if handshake then
    [CnLogNewConnection; CnLogEstablished; CnGoGlobalRequests]
      ++ serveChannels 0 chans ++ [CnCloseSSH; CnClose]
  else [CnLogNewConnection; CnLogHandshakeFailed; CnClose].

(** The channels for which a router is started. *)
Definition started (evs : list connEvent) : list nat :=
  omap (fun e => match e with CnGoChannel i => Some i | _ => None end) evs.

(** The indices, from [index] on, of the session channels whose
    [Accept] succeeds. *)
Fixpoint servable (index : nat) (chans : list ChannelOpen) : list nat :=
  match chans with
  | [] => []
  | c :: later =>
      (if bool_decide (ChannelType c = "session") && negb (AcceptFails c)
       then [index] else [])
      ++ servable (S index) later
  end.

End Conn.

(** ** The default command handler *)

Module DefaultHandler.

Section DefaultHandler.

(** What a registered function can read and change (the clock, the
    system, state it captured); the registry itself is not part of it:
    functions that look at the handler, as the package's [help] does,
    are the subject of [Closures] below. *)
Variable World : Type.

(** [strings.TrimSpace]. *)
Variable TrimSpace : string -> string.

(** A registered [func() (string, error)]: the output, the error
    message ([None] is nil) and the world as the call leaves it.  (A
    nil function and a nil map are not represented.) *)
Definition commandFunc : Type := World -> string * option string * World.

(** [DefaultCommandHandler], default handler file lines 11-13. *)
Record DefaultCommandHandler : Type := {
  commands : gmap string commandFunc
}.

(** [RegisterCommand], lines 57-59. *)
Definition RegisterCommand (name : string) (handler : commandFunc)
    (h : DefaultCommandHandler) : DefaultCommandHandler :=
  {| commands := <[name := handler]> (commands h) |}.

(** [Execute], lines 62-76. *)
Definition Execute (h : DefaultCommandHandler) (w : World) (cmd : string)
  : string * Z * World :=
  let cmd := TrimSpace cmd in
  if bool_decide (cmd = EmptyString) then (EmptyString, 0, w)
  else
    match (commands h !! cmd : option commandFunc) with
    | Some handler =>
        let '(output, err, w') := handler w in
        match err with
        | Some e => (("Error: " ++ e)%string, 1, w')
        | None => (output, 0, w')
        end
    | None =>
        (("Unknown command: " ++ cmd ++ LF
            ++ "Use 'help' to see available commands")%string, 1, w)
    end.

(** What [Execute] makes of the result of a registered function. *)
Definition answer (r : string * option string * World)
  : string * Z * World :=
  let '(output, err, w') := r in
  match err with
  | Some e => (("Error: " ++ e)%string, 1, w')
  | None => (output, 0, w')
  end.

(** [GetPrompt], lines 79-81. *)
Definition GetPrompt (h : DefaultCommandHandler) : string := "$ ".

(** [GetWelcomeMessage], lines 84-86. *)
Definition GetWelcomeMessage (h : DefaultCommandHandler) : string :=
  ("Welcome to SSH Server!" ++ LF
     ++ "Type 'help' to see available commands")%string.

End DefaultHandler.

End DefaultHandler.

(** ** The default command handler, with its functions as closures

    A registered [func() (string, error)] is a closure: it reads and
    changes what it captured, and that can be the handler itself.  The
    package's own [help] (default handler file lines 45-51) ranges over
    [h.commands].  So here the command table is part of the store the
    functions run on: a function is a code value, the store holds the
    table beside the rest of the program state, and [call] says what a
    code value does on a store. *)

Module Closures.

Section Closures.

(** Function values. *)
Variable Code : Type.

(** The program state other than the command table. *)
Variable World : Type.

(** [strings.TrimSpace]. *)
Variable TrimSpace : string -> string.

(** The store: the map [h.commands] ([None] is the nil map of a
    handler that [NewDefaultHandler] did not make) and the rest. *)
Record Heap : Type := {
  commands : option (gmap string Code);
  world : World
}.

(** Calling a function value on a store: the output, the error message
    ([None] is nil) and the store as the call leaves it.  The result is
    [None] for a call that does not return: it panics (a nil function
    does) or runs for ever. *)
Variable call : Code -> Heap -> option (string * option string * Heap).

(** [RegisterCommand], lines 57-59.  [None] is the panic of an
    assignment to an entry of a nil map. *)
Definition RegisterCommand (name : string) (handler : Code) (h : Heap)
  : option Heap :=
  match commands h with
  | Some table =>
      Some {| commands := Some (<[name := handler]> table);
              world := world h |}
  | None => None
  end.

(** [h.commands[cmd]]: reading a nil map finds nothing. *)
Definition registered (h : Heap) (cmd : string) : option Code :=
  match commands h with
  | Some table => table !! cmd
  | None => None
  end.

(** What [Execute] makes of the result of a registered function. *)
Definition answer (r : string * option string * Heap)
  : string * Z * Heap :=
  let '(output, err, h') := r in
  match err with
  | Some e => (("Error: " ++ e)%string, 1, h')
  | None => (output, 0, h')
  end.

(** [Execute], lines 62-76. *)
Definition Execute (h : Heap) (cmd : string) : option (string * Z * Heap) :=
  let cmd := TrimSpace cmd in
  if bool_decide (cmd = EmptyString) then Some (EmptyString, 0, h)
  else
    match registered h cmd with
    | Some handler =>
        match call handler h with
        | Some r => Some (answer r)
        | None => None
        end
    | None =>
        Some (("Unknown command: " ++ cmd ++ LF
                 ++ "Use 'help' to see available commands")%string, 1, h)
    end.

(** A store with another command table. *)
Definition withCommands (table : option (gmap string Code)) (h : Heap)
  : Heap :=
  {| commands := table; world := world h |}.

(** A function that neither reads nor changes the command table: on
    another table it gives the same result and leaves that table. *)
Definition tableBlind (c : Code) : Prop :=
  forall (h : Heap) (table : option (gmap string Code)),
    call c (withCommands table h)
    = match call c h with
      | Some (output, err, h') => Some (output, err, withCommands table h')
      | None => None
      end.

(** The result of [Execute] with the command table replaced. *)
Definition onTable (table : option (gmap string Code))
    (result : option (string * Z * Heap)) : option (string * Z * Heap) :=
  match result with
  | Some (output, status, h') => Some (output, status, withCommands table h')
  | None => None
  end.

End Closures.

Arguments commands {Code World} h.
Arguments world {Code World} h.
Arguments RegisterCommand {Code World} name handler h.
Arguments registered {Code World} h cmd.
Arguments answer {Code World} r.
Arguments Execute {Code World} TrimSpace call h cmd.
Arguments withCommands {Code World} table h.
Arguments tableBlind {Code World} call c.
Arguments onTable {Code World} table result.

(** A function of [DefaultHandler], which runs on the world alone, as
    a function value: it leaves the command table as it is. *)
Definition plainCall {World : Type} (f : DefaultHandler.commandFunc World)
    (h : Heap (DefaultHandler.commandFunc World) World)
  : option (string * option string
            * Heap (DefaultHandler.commandFunc World) World) :=
  let '(output, err, w') := f (world h) in
  Some (output, err, {| commands := commands h; world := w' |}).

End Closures.

(** ** Vocabulary of the further properties *)

Module Spec.

(** The bytes left of a trust-store file after its first [n] records. *)
Fixpoint remainder `{lib : SSH} (n : nat) (file : list byte)
  : option (list byte) :=
  match n with
  | O => Some file
  | S n' =>
      match file with
      | [] => None
      | _ :: _ =>
          match ParseAuthorizedKey file with
          | None => None
          | Some (_, rest) => remainder n' rest
          end
      end
  end.

(** A byte the line editor appends and echoes: not a line end, not an
    erase byte. *)
Definition plain (b : byte) : bool :=
  negb (Byte.eqb b x0d || Byte.eqb b x0a || Byte.eqb b x7f || Byte.eqb b x08).

(** The bytes typed for some lines, each ended by a carriage return. *)
Definition typed (lines : list (list byte)) : list byte :=
  concat (map (fun line => line ++ [x0d]) lines).

(** The commands of typed lines: the lines that are not empty. *)
Definition commandsOf (lines : list (list byte)) : list string :=
  omap (fun line =>
          match line with
          | [] => None
          | _ :: _ => Some (string_of_list_byte line)
          end) lines.

(** A command the line editor may hand over: not empty, and made of
    plain bytes only. *)
Definition wellFormed (cmd : string) : Prop :=
  cmd <> EmptyString
  /\ Forall (fun b => plain b = true) (list_byte_of_string cmd).

(** The erase sequence: backspace, space, backspace. *)
Definition erase : event := EvWrite [x08; x20; x08].

(** The echo of typed bytes. *)
Definition echo (data : list byte) : list event :=
  map (fun b => EvWrite [b]) data.

(** The handler object after the commands [cmds], in order. *)
Fixpoint after {H : Type} `{CH : CommandHandler H} (h : H)
    (cmds : list string) : H :=
  match cmds with
  | [] => h
  | cmd :: later => after (Execute h cmd).2 later
  end.

(** The answer to a request that does not run a command: positive
    for [pty-req] and [shell] only. *)
Definition acknowledged (req : Request) : bool :=
  bool_decide (Type_ req = "pty-req"%string)
  || bool_decide (Type_ req = "shell"%string).

(** A request that runs no command: there is no handler, or it is
    not an exec request, or its payload does not decode. *)
Definition quiet {H : Type} (h : option H) (req : Request) : Prop :=
  h = None
  \/ (Type_ req = "exec"%string ->
      is_err (Codec.parseExecPayload (Payload req)) = true).

(** The actions by which a counted goroutine returns, and the return
    of [Stop] itself. *)
Definition isReturn (a : Lifecycle.action) : bool :=
  match a with
  | Lifecycle.AcceptReturn | Lifecycle.Handshake false
  | Lifecycle.ConnectionEnd | Lifecycle.StopWaitReturn => true
  | _ => false
  end.

(** Until [Stop] is called the shutdown marker is open and a started
    accept loop is running. *)
Definition unstopped (s : Lifecycle.state) : Prop :=
  Lifecycle.stop s = Lifecycle.NotCalled ->
  Lifecycle.done s = false
  /\ (Lifecycle.listener s <> None -> Lifecycle.accepting s = true).

(** The global requests logged and the replies given, in a trace of
    [handleGlobalRequests]. *)
Definition globalLogged (evs : list Conn.globalEvent) : list string :=
  omap (fun e => match e with Conn.GlLog t => Some t | _ => None end) evs.

Definition globalReplies (evs : list Conn.globalEvent) : list bool :=
  omap (fun e => match e with Conn.GlReply ok => Some ok | _ => None end) evs.

(** The replies in a trace. *)
Definition replies (evs : list event) : list bool :=
  omap (fun e => match e with EvReply ok => Some ok | _ => None end) evs.

(** The number of line editors started in a trace. *)
Definition shellsStarted (evs : list event) : nat :=
  length (omap (fun e => match e with EvGoShell => Some tt | _ => None end)
            evs).

End Spec.

(** ** Test doubles *)

Module Fixtures.

(** A command processor that counts its invocations and answers with
    the command text and status zero. *)
Definition Counting : CommandHandler nat := {|
  Execute := fun n cmd => (cmd, 0, S n);
  GetPrompt := fun _ => "$ "%string;
  GetWelcomeMessage := fun _ => "welcome"%string
|}.

(** A transport whose key records are single bytes: a zero byte is a
    malformed record, any other byte is a key, and the fingerprint of a
    key is the one-character string of its byte. *)
Definition ByteKeys : SSH := {|
  PublicKey := byte;
  Signer := unit;
  FingerprintSHA256 := fun k => string_of_list_byte [k];
  ParseAuthorizedKey := fun input =>
    match input with
    | [] => None
    | b :: rest => if Byte.eqb b x00 then None else Some (b, rest)
    end;
  ParsePrivateKey := fun _ => Some tt
|}.

(** A file system holding a host key and a trust store with the keys
    [a] and [b], then a malformed record, then the key [c]. *)
Definition disk : FileSystem := {|
  ReadFile := fun path =>
    if String.eqb path "authorized_keys" then Some [x61; x62; x00; x63]%list
    else if String.eqb path "server_key" then Some [x6b]%list
    else None;
  Stat := fun path =>
    String.eqb path "authorized_keys" || String.eqb path "server_key";
  OpenFile := fun _ => true
|}.

(** A file system with no files. *)
Definition emptyDisk : FileSystem := {|
  ReadFile := fun _ => None;
  Stat := fun _ => false;
  OpenFile := fun _ => true
|}.

(** The server [NewServer] builds on [disk] from the default
    configuration. *)
Definition server : @Srv.Server nat ByteKeys := {|
  Srv.config := DefaultConfig;
  Srv.sshConfig := @Srv.Build_ServerConfig ByteKeys false [tt] true false;
  Srv.cmdHandler := Some 0%nat;
  Srv.logger := Some [Srv.Stdout; Srv.LogFile "ssh_server.log"]
|}.

Definition execRequest (payload : list byte) : Request :=
  {| Type_ := "exec"; WantReply := true; Payload := payload |}.

Definition shellRequest : Request :=
  {| Type_ := "shell"; WantReply := true; Payload := [] |}.

End Fixtures.

(** ** Further test doubles *)

Module MoreFixtures.

Import Stdlib.Strings.Ascii.
Import Paths.

(** Slash-separated paths: absolute when they start with a slash. *)
Definition slashPaths : PathLib := {|
  IsAbs := fun path =>
    match path with
    | String "/"%char _ => true
    | _ => false
    end;
  Join := fun dir path => (dir ++ "/" ++ path)%string;
  Dir := fun _ => "/opt/gosh"%string
|}.

(** A process started in [/home/u] from [/opt/gosh/server]. *)
Definition process : Process := {|
  Getwd := Some "/home/u"%string;
  Executable := Some "/opt/gosh/server"%string
|}.

(** A file system whose only file is [/opt/gosh/server_key]. *)
Definition installDisk : FileSystem := {|
  ReadFile := fun _ => None;
  Stat := fun path => String.eqb path "/opt/gosh/server_key";
  OpenFile := fun _ => true
|}.

(** Trimming of leading and trailing blanks (the ASCII space only). *)
Fixpoint trimLeft (l : list ascii) : list ascii :=
  match l with
  | " "%char :: rest => trimLeft rest
  | _ => l
  end.

Definition trimRight (l : list ascii) : list ascii :=
  rev (trimLeft (rev l)).

Definition trimBlanks (s : string) : string :=
  string_of_list_ascii (trimRight (trimLeft (list_ascii_of_string s))).

(** A registered function that counts its calls in the world. *)
Definition greet : DefaultHandler.commandFunc nat :=
  fun calls => ("Hello from SSH Server!"%string, None, S calls).

(** A registered function that fails. *)
Definition broken : DefaultHandler.commandFunc nat :=
  fun calls => (EmptyString, Some "no such device"%string, S calls).

Definition registry : DefaultHandler.DefaultCommandHandler nat :=
  DefaultHandler.RegisterCommand nat "probe" broken
    (DefaultHandler.RegisterCommand nat "hello" greet
       {| DefaultHandler.commands := ∅ |}).

(** Function values for the closure model: [Hello] answers and counts
    its calls, [Probe] fails, [Count] reads the command table (as
    [help] does) and reports how many names it holds, [Nil] is the nil
    function. *)
Inductive code : Type := Hello | Probe | Count | Nil.

Definition tally (n : nat) : string :=
  match n with
  | 0%nat => "0" | 1%nat => "1" | 2%nat => "2" | 3%nat => "3"
  | _ => "many"
  end.

Definition behaviour (c : code) (h : Closures.Heap code nat)
  : option (string * option string * Closures.Heap code nat) :=
  match c with
  | Hello =>
      Some ("Hello from SSH Server!"%string, None,
            {| Closures.commands := Closures.commands h;
               Closures.world := S (Closures.world h) |})
  | Probe =>
      Some (EmptyString, Some "no such device"%string,
            {| Closures.commands := Closures.commands h;
               Closures.world := S (Closures.world h) |})
  | Count =>
      Some (tally (match Closures.commands h with
                   | Some table => size table
                   | None => 0
                   end), None, h)
  | Nil => None
  end.

(** A store whose handler knows [hello] and [help]. *)
Definition store : Closures.Heap code nat := {|
  Closures.commands :=
    Some (<["help"%string := Count]> (<["hello"%string := Hello]> ∅));
  Closures.world := 7%nat
|}.

(** A transport whose parser, like [ssh.ParseAuthorizedKey], passes
    over what is no key: records are single bytes, a zero byte is a
    line without a key, any other byte is a key; the parser returns the
    first key of its input and fails when there is none. *)
Fixpoint firstKey (input : list byte) : option (byte * list byte) :=
  match input with
  | [] => None
  | b :: rest => if Byte.eqb b x00 then firstKey rest else Some (b, rest)
  end.

Definition LineKeys : SSH := {|
  PublicKey := byte;
  Signer := unit;
  FingerprintSHA256 := fun k => string_of_list_byte [k];
  ParseAuthorizedKey := firstKey;
  ParsePrivateKey := fun _ => Some tt
|}.

(** A trust store with the keys [a] and [b], a line without a key
    between them and two after them. *)
Definition trailingDisk : FileSystem := {|
  ReadFile := fun path =>
    if String.eqb path "authorized_keys"
    then Some [x61; x00; x62; x00; x00]%list
    else if String.eqb path "server_key" then Some [x6b]%list
    else None;
  Stat := fun path =>
    String.eqb path "authorized_keys" || String.eqb path "server_key";
  OpenFile := fun _ => true
|}.

Definition lineServer : @Srv.Server nat LineKeys := {|
  Srv.config := DefaultConfig;
  Srv.sshConfig := @Srv.Build_ServerConfig LineKeys false [tt] true false;
  Srv.cmdHandler := Some 0%nat;
  Srv.logger := Some [Srv.Stdout; Srv.LogFile "ssh_server.log"]
|}.

End MoreFixtures.

(** * Properties *)

(** ** Integer and byte facts *)

Section Arith.

Lemma uint32_of_byte_range (b : byte) : 0 <= uint32_of_byte b < 256.
Proof.
  unfold uint32_of_byte. pose proof (Byte.to_N_bounded b). lia.
Qed.

Lemma int_of_uint32_id (x : Z) : 0 <= x < 2 ^ 32 -> int_of_uint32 x = x.
Proof.
  intros Hx. unfold int_of_uint32.
  rewrite Z.mod_small; lia.
Qed.

(** Bits of a number below [2^k] and bits of a multiple of [2^k] do not
    meet, so [lor] adds. *)
Lemma lor_shiftl_add (a b k : Z) :
  0 <= k -> 0 <= a < 2 ^ k -> 0 <= b ->
  Z.lor a (Z.shiftl b k) = a + b * 2 ^ k.
Proof.
  intros Hk Ha Hb.
  assert (Hland : Z.land a (Z.shiftl b k) = 0).
  { apply Z.bits_inj'. intros n Hn.
    rewrite Z.land_spec, Z.bits_0.
    destruct (Z.lt_ge_cases n k) as [Hlt | Hge].
    - rewrite Z.shiftl_spec_low by lia. apply andb_false_r.
    - replace a with (a mod 2 ^ k) by (apply Z.mod_small; lia).
      rewrite Z.mod_pow2_bits_high by lia. reflexivity. }
  rewrite <- Z.lxor_lor by exact Hland.
  rewrite <- Z.add_nocarry_lxor by exact Hland.
  rewrite Z.shiftl_mul_pow2 by lia. reflexivity.
Qed.

Lemma shl32_small (x n : Z) :
  0 <= n -> 0 <= x -> x * 2 ^ n < 2 ^ 32 -> shl32 x n = x * 2 ^ n.
Proof.
  intros Hn Hx Hlt. unfold shl32, wrap32.
  rewrite Z.shiftl_mul_pow2 by lia.
  apply Z.mod_small. split; [| lia].
  apply Z.mul_nonneg_nonneg; [lia | apply Z.pow_nonneg; lia].
Qed.

End Arith.

(** ** Exec payload codec *)

Module CodecFacts.

Import Codec.

(** The length computed at line 324 is the big-endian value of the
    first four bytes. *)
Lemma length_field_value (p0 p1 p2 p3 : byte) :
  Z.lor (Z.lor (Z.lor (uint32_of_byte p3) (shl32 (uint32_of_byte p2) 8))
               (shl32 (uint32_of_byte p1) 16))
        (shl32 (uint32_of_byte p0) 24)
  = declared_length p0 p1 p2 p3.
Proof.
  pose proof (uint32_of_byte_range p0) as H0.
  pose proof (uint32_of_byte_range p1) as H1.
  pose proof (uint32_of_byte_range p2) as H2.
  pose proof (uint32_of_byte_range p3) as H3.
  unfold declared_length.
  rewrite (shl32_small _ 8), (shl32_small _ 16), (shl32_small _ 24)
    by (change (2 ^ 8) with 256; change (2 ^ 16) with 65536;
        change (2 ^ 24) with 16777216; change (2 ^ 32) with 4294967296; lia).
  rewrite <- !Z.shiftl_mul_pow2 by lia.
  rewrite (lor_shiftl_add _ _ 8), (lor_shiftl_add _ _ 16),
    (lor_shiftl_add _ _ 24);
    rewrite ?Z.shiftl_mul_pow2 by lia;
    change (2 ^ 8) with 256; change (2 ^ 16) with 65536;
    change (2 ^ 24) with 16777216; lia.
Qed.

Lemma declared_length_range (p0 p1 p2 p3 : byte) :
  0 <= declared_length p0 p1 p2 p3 < 2 ^ 32.
Proof.
  pose proof (uint32_of_byte_range p0).
  pose proof (uint32_of_byte_range p1).
  pose proof (uint32_of_byte_range p2).
  pose proof (uint32_of_byte_range p3).
  unfold declared_length.
  change (2 ^ 8) with 256; change (2 ^ 16) with 65536;
  change (2 ^ 24) with 16777216; change (2 ^ 32) with 4294967296. lia.
Qed.

(** [parseExecPayload] on a payload that has a length field. *)
Lemma parseExecPayload_cons4 (p0 p1 p2 p3 : byte) (rest : list byte) :
  parseExecPayload (p0 :: p1 :: p2 :: p3 :: rest) =
  let L := declared_length p0 p1 p2 p3 in
  if bool_decide (L = 0) || bool_decide (L > len rest)
  then Err InvalidCommandLength
  else match slice (p0 :: p1 :: p2 :: p3 :: rest) 4 (add32 4 L) with
       | Some command => Ok (string_of_list_byte command)
       | None => Panic
       end.
Proof.
  unfold parseExecPayload.
  assert (Hlen : len (p0 :: p1 :: p2 :: p3 :: rest) = len rest + 4).
  { unfold len. cbn [length]. lia. }
  rewrite bool_decide_eq_false_2 by (rewrite Hlen; unfold len; lia).
  cbn [index lookup list_lookup].
  rewrite length_field_value.
  rewrite int_of_uint32_id by apply declared_length_range.
  rewrite Hlen. cbv zeta.
  replace (len rest + 4 - 4) with (len rest) by lia.
  reflexivity.
Qed.

Lemma parseExecPayload_short (payload : list byte) :
  len payload < 4 -> parseExecPayload payload = Err ExecPayloadTooShort.
Proof.
  intros Hlt. unfold parseExecPayload.
  rewrite bool_decide_eq_true_2 by exact Hlt. reflexivity.
Qed.

(** A payload is too short or starts with a length field. *)
Lemma payload_cases (payload : list byte) :
  len payload < 4 \/
  exists p0 p1 p2 p3 rest, payload = p0 :: p1 :: p2 :: p3 :: rest.
Proof.
  destruct payload as [| p0 [| p1 [| p2 [| p3 rest]]]];
    try (left; unfold len; cbn [length]; lia).
  right. eauto 6.
Qed.

Lemma slice_in_range {A} (s : list A) (lo hi : Z) :
  0 <= lo -> lo <= hi -> hi <= len s ->
  slice s lo hi = Some (take (Z.to_nat (hi - lo)) (drop (Z.to_nat lo) s)).
Proof.
  intros H1 H2 H3. unfold slice.
  rewrite bool_decide_eq_true_2 by auto. reflexivity.
Qed.

(** Decoding a payload whose length field is in range. *)
Lemma parseExecPayload_in_range (p0 p1 p2 p3 : byte) (rest : list byte) :
  let L := declared_length p0 p1 p2 p3 in
  0 < L <= len rest -> L + 4 < 2 ^ 32 ->
  parseExecPayload (p0 :: p1 :: p2 :: p3 :: rest)
  = Ok (string_of_list_byte (take (Z.to_nat L) rest)).
Proof.
  intros L HL Hsmall. rewrite parseExecPayload_cons4. fold L. cbv zeta.
  rewrite (bool_decide_eq_false_2 (L = 0)) by lia.
  rewrite (bool_decide_eq_false_2 (L > len rest)) by lia.
  cbn [orb].
  assert (Hadd : add32 4 L = 4 + L).
  { unfold add32, wrap32. apply Z.mod_small. lia. }
  rewrite Hadd.
  rewrite slice_in_range; [| lia | lia | unfold len in *; cbn [length]; lia].
  replace (4 + L - 4) with L by lia.
  reflexivity.
Qed.

(** Decoding fails on a length field of zero or beyond the payload. *)
Lemma parseExecPayload_bad_length (p0 p1 p2 p3 : byte) (rest : list byte) :
  let L := declared_length p0 p1 p2 p3 in
  L = 0 \/ L > len rest ->
  parseExecPayload (p0 :: p1 :: p2 :: p3 :: rest) = Err InvalidCommandLength.
Proof.
  intros L HL. rewrite parseExecPayload_cons4. fold L. cbv zeta.
  destruct HL as [HL | HL].
  - rewrite (bool_decide_eq_true_2 (L = 0)) by exact HL. reflexivity.
  - rewrite (bool_decide_eq_true_2 (L > len rest)) by exact HL.
    rewrite orb_true_r. reflexivity.
Qed.

(** Decoding does not fail on a length field in range (it succeeds, or
    the slice expression panics). *)
Lemma parseExecPayload_good_length (p0 p1 p2 p3 : byte) (rest : list byte) :
  let L := declared_length p0 p1 p2 p3 in
  L <> 0 -> L <= len rest ->
  is_err (parseExecPayload (p0 :: p1 :: p2 :: p3 :: rest)) = false.
Proof.
  intros L H0 Hle. rewrite parseExecPayload_cons4. fold L. cbv zeta.
  rewrite (bool_decide_eq_false_2 (L = 0)) by exact H0.
  rewrite (bool_decide_eq_false_2 (L > len rest)) by lia.
  cbn [orb]. destruct (slice _ _ _); reflexivity.
Qed.

(** When decoding fails. *)
Lemma parseExecPayload_fails_iff (payload : list byte) :
  is_err (parseExecPayload payload) = true <->
  len payload < 4 \/ lengthField payload = 0
  \/ lengthField payload > len payload - 4.
Proof.
  destruct (payload_cases payload) as [Hshort | (p0 & p1 & p2 & p3 & rest & ->)].
  - rewrite parseExecPayload_short by exact Hshort.
    split; [intros _; left; exact Hshort | reflexivity].
  - assert (Hlen : len (p0 :: p1 :: p2 :: p3 :: rest) - 4 = len rest).
    { unfold len. cbn [length]. lia. }
    cbn [lengthField]. rewrite Hlen.
    split.
    + intros Herr.
      destruct (Z.eq_dec (declared_length p0 p1 p2 p3) 0) as [Hz | Hnz];
        [right; left; exact Hz |].
      destruct (Z_gt_le_dec (declared_length p0 p1 p2 p3) (len rest))
        as [Hgt | Hle]; [right; right; exact Hgt |].
      rewrite parseExecPayload_good_length in Herr by assumption.
      discriminate.
    + intros [Hshort | Hbad].
      * unfold len in Hshort. cbn [length] in Hshort. lia.
      * rewrite parseExecPayload_bad_length by exact Hbad. reflexivity.
Qed.

(** *** Encoding *)

Lemma uint32_of_byte_at (z sh : Z) :
  0 <= z -> 0 <= sh -> uint32_of_byte (byte_at z sh) = (z / 2 ^ sh) mod 256.
Proof.
  intros Hz Hsh. unfold uint32_of_byte, byte_at.
  rewrite Z.shiftr_div_pow2 by exact Hsh.
  set (m := (z / 2 ^ sh) mod 256).
  assert (Hm : 0 <= m < 256) by (apply Z.mod_pos_bound; lia).
  destruct (Byte.of_N (Z.to_N m)) as [b |] eqn:E.
  - apply Byte.to_of_N in E. rewrite E. lia.
  - apply Byte.of_N_None_iff in E. lia.
Qed.

(** The four bytes written for [n] read back as [n]. *)
Lemma declared_length_byte_at (n : Z) :
  0 <= n < 2 ^ 32 ->
  declared_length (byte_at n 24) (byte_at n 16) (byte_at n 8) (byte_at n 0) = n.
Proof.
  intros Hn. unfold declared_length.
  rewrite !uint32_of_byte_at by lia.
  change (2 ^ 0) with 1; change (2 ^ 8) with 256; change (2 ^ 16) with 65536;
    change (2 ^ 24) with 16777216; change (2 ^ 32) with 4294967296 in Hn.
  Z.div_mod_to_equations. lia.
Qed.

Lemma encodeExecPayload_decodes (command : string) :
  0 < strlen command ->
  strlen command + 4 < 2 ^ 32 ->
  parseExecPayload (encodeExecPayload command) = Ok command.
Proof.
  unfold strlen. intros Hpos Hsmall. unfold encodeExecPayload. cbv zeta.
  set (body := list_byte_of_string command) in *.
  assert (Hwrap : wrap32 (len body) = len body).
  { unfold wrap32. apply Z.mod_small. lia. }
  rewrite Hwrap.
  rewrite parseExecPayload_in_range;
    rewrite ?declared_length_byte_at by lia; try lia.
  unfold len. rewrite Nat2Z.id, firstn_all.
  subst body. rewrite string_of_list_byte_of_string. reflexivity.
Qed.

End CodecFacts.

(** ** Channel router *)

Module RouterFacts.

Import Srv.

Section Router.

Context {H : Type} {CH : CommandHandler H}.

Lemma executed_app (evs evs' : list event) :
  executed (evs ++ evs') = executed evs ++ executed evs'.
Proof. unfold executed. apply omap_app. Qed.

(** Case analysis following the branches of [handleRequest]. *)
Ltac handleRequest_cases h req :=
  unfold handleRequest;
  repeat case_bool_decide;
  try destruct h as [? |];
  try destruct (Codec.parseExecPayload (Payload req)) as [? | ? |] eqn:?;
  try destruct (Execute _ _) as [[? ?] ?] eqn:?.

(** A turn after which the loop goes on calls no command and leaves
    the handler as it was. *)
Lemma handleRequest_continue (h h' : option H) (req : Request)
    (evs : list event) :
  handleRequest h req = (evs, h', true) -> executed evs = [] /\ h' = h.
Proof.
  handleRequest_cases h req; intros [= <- <-]; split; reflexivity.
Qed.

(** A turn calls at most one command, and only a turn that ends the
    loop calls one. *)
Lemma handleRequest_executed (h : option H) (req : Request) :
  (length (executed (handleRequest h req).1.1) <= 1)%nat.
Proof.
  handleRequest_cases h req; cbn; lia.
Qed.

Lemma handleRequest_no_close (h : option H) (req : Request) :
  EvClose ∉ (handleRequest h req).1.1.
Proof.
  handleRequest_cases h req; cbn;
    rewrite ?elem_of_cons, elem_of_nil; intros Hin;
    repeat (destruct Hin as [Hin | Hin]; [discriminate |]); exact Hin.
Qed.

(** An exec request whose payload does not decode. *)
Lemma handleRequest_exec_undecodable (h : option H) (req : Request)
    (e : error) :
  Type_ req = "exec"%string ->
  Codec.parseExecPayload (Payload req) = Err e ->
  handleRequest h req =
  (EvLog (LogChannelRequest "exec")
     :: match h with
        | Some _ => [EvLog (LogExecParseError e); EvReply false]
        | None => [EvReply false]
        end,
   h, true).
Proof.
  intros Hty Hparse. unfold handleRequest. rewrite Hty, Hparse.
  destruct h; reflexivity.
Qed.

(** An exec request whose payload decodes, with a handler present. *)
Lemma handleRequest_exec_decoded (hs : H) (req : Request) (command : string) :
  Type_ req = "exec"%string ->
  Codec.parseExecPayload (Payload req) = Ok command ->
  handleRequest (Some hs) req =
  let '(output, exitStatus, hs') := Execute hs command in
  ([EvLog (LogChannelRequest "exec"); EvExecute command;
    EvWrite (list_byte_of_string (output ++ LF));
    EvReply true; EvExitStatus exitStatus], Some hs', false).
Proof.
  intros Hty Hparse. unfold handleRequest. rewrite Hty, Hparse.
  reflexivity.
Qed.

Lemma handleRequests_cons (h : option H) (req : Request)
    (later : list Request) :
  handleRequests h (req :: later) =
  let '(evs, h', continue) := handleRequest h req in
  if continue then
    let '(evs', h'') := handleRequests h' later in (evs ++ evs', h'')
  else (evs, h').
Proof. reflexivity. Qed.

Lemma handleRequests_executed (h : option H) (requests : list Request) :
  (length (executed (handleRequests h requests).1) <= 1)%nat.
Proof.
  revert h. induction requests as [| req later IH]; intros h.
  - cbn. lia.
  - rewrite handleRequests_cons.
    pose proof (handleRequest_executed h req) as Hone.
    destruct (handleRequest h req) as [[evs h'] continue] eqn:Hreq.
    destruct continue.
    + apply handleRequest_continue in Hreq as [Hnone ->].
      specialize (IH h).
      destruct (handleRequests h later) as [evs' h''].
      cbn in *. rewrite executed_app, Hnone. exact IH.
    + exact Hone.
Qed.

Lemma handleRequests_no_close (h : option H) (requests : list Request) :
  EvClose ∉ (handleRequests h requests).1.
Proof.
  revert h. induction requests as [| req later IH]; intros h.
  - cbn. apply not_elem_of_nil.
  - rewrite handleRequests_cons.
    pose proof (handleRequest_no_close h req) as Hno.
    destruct (handleRequest h req) as [[evs h'] continue].
    destruct continue; [| exact Hno].
    specialize (IH h').
    destruct (handleRequests h' later) as [evs' h''].
    cbn in *. rewrite elem_of_app. tauto.
Qed.

(** The loop goes on after every request but an exec request whose
    payload decodes or panics. *)
Lemma handleRequest_goes_on (h : option H) (req : Request) :
  (Type_ req = "exec"%string ->
   is_err (Codec.parseExecPayload (Payload req)) = true) ->
  (handleRequest h req).2 = true.
Proof.
  intros Hexec. handleRequest_cases h req; try reflexivity;
    specialize (Hexec ltac:(assumption)); discriminate.
Qed.

Lemma handleRequests_undecodable (h : option H) (requests : list Request) :
  (forall req, req ∈ requests -> Type_ req = "exec"%string ->
     is_err (Codec.parseExecPayload (Payload req)) = true) ->
  executed (handleRequests h requests).1 = [].
Proof.
  revert h. induction requests as [| req later IH]; intros h Hall.
  - reflexivity.
  - rewrite handleRequests_cons.
    pose proof (handleRequest_goes_on h req
                  (Hall req ltac:(apply list_elem_of_here))) as Hgo.
    destruct (handleRequest h req) as [[evs h'] continue] eqn:Hreq.
    cbn in Hgo. subst continue.
    apply handleRequest_continue in Hreq as [Hnone ->].
    specialize (IH h (fun r Hr => Hall r (list_elem_of_further _ _ _ Hr))).
    destruct (handleRequests h later) as [evs' h''].
    cbn [fst snd] in *. rewrite executed_app, Hnone, IH. reflexivity.
Qed.

(** Nothing after an exec request that decodes is looked at. *)
Lemma handleRequests_stops_after_exec (hs : H)
    (before after : list Request) (req : Request) (command : string) :
  Type_ req = "exec"%string ->
  Codec.parseExecPayload (Payload req) = Ok command ->
  handleRequests (Some hs) (before ++ req :: after)
  = handleRequests (Some hs) (before ++ [req]).
Proof.
  intros Hty Hparse. revert hs.
  induction before as [| r before IH]; intros hs.
  - cbn [app]. rewrite !handleRequests_cons.
    rewrite (handleRequest_exec_decoded hs req command Hty Hparse).
    destruct (Execute hs command) as [[output exitStatus] hs'].
    reflexivity.
  - cbn [app]. rewrite !handleRequests_cons.
    destruct (handleRequest (Some hs) r) as [[evs h'] continue] eqn:Hreq.
    destruct continue; [| reflexivity].
    apply handleRequest_continue in Hreq as [_ ->].
    rewrite IH. reflexivity.
Qed.

(** An exec request that decodes is executed whatever requests came
    before it, as long as none of them ended the loop. *)
Lemma handleRequests_reaches_exec (hs : H)
    (before after : list Request) (req : Request) (command : string) :
  (forall r, r ∈ before -> Type_ r = "exec"%string ->
     is_err (Codec.parseExecPayload (Payload r)) = true) ->
  Type_ req = "exec"%string ->
  Codec.parseExecPayload (Payload req) = Ok command ->
  executed (handleRequests (Some hs) (before ++ req :: after)).1 = [command].
Proof.
  intros Hall Hty Hparse. revert hs Hall.
  induction before as [| r before IH]; intros hs Hall.
  - cbn [app]. rewrite handleRequests_cons.
    rewrite (handleRequest_exec_decoded hs req command Hty Hparse).
    destruct (Execute hs command) as [[output exitStatus] hs'].
    reflexivity.
  - cbn [app]. rewrite handleRequests_cons.
    pose proof (handleRequest_goes_on (Some hs) r
                  (Hall r ltac:(apply list_elem_of_here))) as Hgo.
    destruct (handleRequest (Some hs) r) as [[evs h'] continue] eqn:Hreq.
    cbn in Hgo. subst continue.
    apply handleRequest_continue in Hreq as [Hnone ->].
    specialize (IH hs (fun r' Hr => Hall r' (list_elem_of_further _ _ _ Hr))).
    destruct (handleRequests (Some hs) (before ++ req :: after)) as [evs' h''].
    cbn [fst snd] in *. rewrite executed_app, Hnone, IH. reflexivity.
Qed.

Lemma handleChannel_trace (h : option H) (requests : list Request) :
  (handleChannel h requests).1 = (handleRequests h requests).1 ++ [EvClose].
Proof.
  unfold handleChannel. destruct (handleRequests h requests). reflexivity.
Qed.

End Router.

End RouterFacts.

(** ** Line editor *)

Module ShellFacts.

Import Srv.

Section Shell.

Context {H : Type} {CH : CommandHandler H}.

Lemma shellBytes_app (data data' : list byte) (st : editor) :
  shellBytes (data ++ data') st =
  let '(st1, evs1) := shellBytes data st in
  let '(st2, evs2) := shellBytes data' st1 in
  (st2, evs1 ++ evs2).
Proof.
  revert st. induction data as [| b data IH]; intros st.
  - cbn. destruct (shellBytes data' st). reflexivity.
  - cbn [app shellBytes].
    destruct (shellByte b st) as [st' evs].
    rewrite IH.
    destruct (shellBytes data st') as [st1 evs1].
    destruct (shellBytes data' st1) as [st2 evs2].
    rewrite app_assoc. reflexivity.
Qed.

(** Reads that all deliver bytes are handled as one read of all the
    bytes; what ends the reads decides how the loop ends. *)
Lemma shellLoop_chunks (chunks : list (list byte)) (ending : list read)
    (st : editor) :
  shellLoop (map ReadBytes chunks ++ ending) st =
  let '(st1, evs1) := shellBytes (concat chunks) st in
  let '(st2, evs2, returned) := shellLoop ending st1 in
  (st2, evs1 ++ evs2, returned).
Proof.
  revert st. induction chunks as [| data chunks IH]; intros st.
  - cbn. destruct (shellLoop ending st) as [[? ?] ?]. reflexivity.
  - cbn [map app concat shellLoop].
    rewrite shellBytes_app.
    destruct (shellBytes data st) as [st' evs].
    rewrite IH.
    destruct (shellBytes (concat chunks) st') as [st1 evs1].
    destruct (shellLoop ending st1) as [[st2 evs2] returned].
    rewrite app_assoc. reflexivity.
Qed.

(** A read error ends the loop without touching the editor and without
    calling the handler. *)
Lemma shellLoop_error (eof : bool) (st : editor) :
  shellLoop [ReadError eof] st
  = (st, if eof then [] else [EvLog LogReadError], true).
Proof. reflexivity. Qed.

(** A byte that is neither a line end nor an erase byte is appended
    and echoed. *)
Lemma shellByte_plain (b : byte) (st : editor) :
  Byte.eqb b x0d = false -> Byte.eqb b x0a = false ->
  Byte.eqb b x7f = false -> Byte.eqb b x08 = false ->
  shellByte b st
  = ({| cmdBuffer := cmdBuffer st ++ [b]; handler := handler st |},
     [EvWrite [b]]).
Proof.
  intros H1 H2 H3 H4. unfold shellByte. rewrite H1, H2, H3, H4.
  reflexivity.
Qed.

Lemma len_positive {A} (l : list A) (x : A) : len (l ++ [x]) > 0.
Proof. unfold len. rewrite length_app. cbn. lia. Qed.

End Shell.

End ShellFacts.

(** ** Authenticator *)

Module AuthFacts.

Import Srv.

Section Authenticator.

Context {lib : SSH}.

Lemma validateLoop_nil (fuel : nat) (user fp : string) :
  validateLoop fuel user fp [] = Some (Err (PublicKeyAuthFailed user), []).
Proof. destruct fuel; reflexivity. Qed.

Lemma validateLoop_cons (fuel : nat) (user fp : string) (b : byte)
    (bs : list byte) :
  validateLoop (S fuel) user fp (b :: bs) =
  match ParseAuthorizedKey (b :: bs) with
  | None => Some (Err KeyParseError, [LogErrorParsingKey KeyParseError])
  | Some (pubKey, rest) =>
      if bool_decide (FingerprintSHA256 pubKey = fp)
      then Some (Ok (granted fp), [LogAuthSuccess user])
      else validateLoop fuel user fp rest
  end.
Proof.
  cbn [validateLoop].
  rewrite bool_decide_eq_true_2 by (unfold len; cbn [length]; lia).
  reflexivity.
Qed.

Lemma validateLoop_no_fuel (user fp : string) (b : byte) (bs : list byte) :
  validateLoop 0 user fp (b :: bs) = None.
Proof.
  cbn [validateLoop].
  rewrite bool_decide_eq_true_2 by (unfold len; cbn [length]; lia).
  reflexivity.
Qed.

(** A listed key with the presented fingerprint is accepted as soon as
    the fuel reaches its record. *)
Lemma validateLoop_match (n : nat) :
  forall (fuel : nat) (user fp : string) (file : list byte)
         (pk : PublicKey),
    entry n file = Some pk -> FingerprintSHA256 pk = fp ->
    (n < fuel)%nat ->
    validateLoop fuel user fp file
    = Some (Ok (granted fp), [LogAuthSuccess user]).
Proof.
  induction n as [| n IH]; intros fuel user fp file pk Hentry Hfp Hfuel;
    destruct file as [| b bs]; try discriminate;
    (destruct fuel as [| fuel]; [lia |]);
    rewrite validateLoop_cons; cbn [entry] in Hentry;
    destruct (ParseAuthorizedKey (b :: bs)) as [[pubKey rest] |];
    try discriminate.
  - injection Hentry as ->.
    rewrite bool_decide_eq_true_2 by exact Hfp. reflexivity.
  - case_bool_decide as Hfirst; [reflexivity |].
    apply (IH fuel user fp rest pk Hentry Hfp). lia.
Qed.

(** Until the first matching record the loop is still running. *)
Lemma validateLoop_not_earlier (n : nat) :
  forall (user fp : string) (file : list byte) (pk : PublicKey),
    entry n file = Some pk ->
    (forall m pk', (m < n)%nat -> entry m file = Some pk' ->
                   FingerprintSHA256 pk' <> fp) ->
    validateLoop n user fp file = None.
Proof.
  induction n as [| n IH]; intros user fp file pk Hentry Hbefore;
    destruct file as [| b bs]; try discriminate.
  - apply validateLoop_no_fuel.
  - rewrite validateLoop_cons. cbn [entry] in Hentry.
    destruct (ParseAuthorizedKey (b :: bs)) as [[pubKey rest] |] eqn:Hparse;
      try discriminate.
    rewrite bool_decide_eq_false_2.
    + apply (IH user fp rest pk Hentry).
      intros m pk' Hm Hm'. apply (Hbefore (S m) pk'); [lia |].
      cbn [entry]. rewrite Hparse. exact Hm'.
    + apply (Hbefore 0%nat pubKey); [lia |].
      cbn [entry]. rewrite Hparse. reflexivity.
Qed.

Section Consuming.

(** The parser consumes input: the bytes left after a record are fewer
    than the bytes it was given. *)
Hypothesis parser_consumes :
  forall (input rest : list byte) (pk : PublicKey),
    ParseAuthorizedKey input = Some (pk, rest) ->
    (length rest < length input)%nat.

Lemma entry_within_file (n : nat) :
  forall (file : list byte) (pk : PublicKey),
    entry n file = Some pk -> (n < length file)%nat.
Proof.
  induction n as [| n IH]; intros file pk Hentry;
    destruct file as [| b bs]; try discriminate; cbn [entry] in Hentry.
  - cbn [length]. lia.
  - destruct (ParseAuthorizedKey (b :: bs)) as [[pubKey rest] |] eqn:Hparse;
      try discriminate.
    apply parser_consumes in Hparse. apply IH in Hentry. lia.
Qed.

(** With no listed key of the presented fingerprint the loop ends in
    an error. *)
Lemma validateLoop_no_match (fuel : nat) :
  forall (user fp : string) (file : list byte),
    (length file <= fuel)%nat ->
    (forall n pk, entry n file = Some pk -> FingerprintSHA256 pk <> fp) ->
    exists e logs, validateLoop fuel user fp file = Some (Err e, logs).
Proof.
  induction fuel as [| fuel IH]; intros user fp file Hfuel Hnone;
    destruct file as [| b bs];
    try (rewrite validateLoop_nil; eauto);
    cbn [length] in Hfuel; try lia.
  rewrite validateLoop_cons.
  destruct (ParseAuthorizedKey (b :: bs)) as [[pubKey rest] |] eqn:Hparse;
    [| eauto].
  rewrite bool_decide_eq_false_2.
  - apply IH.
    + apply parser_consumes in Hparse. cbn [length] in Hparse. lia.
    + intros n pk Hn. apply (Hnone (S n) pk).
      cbn [entry]. rewrite Hparse. exact Hn.
  - apply (Hnone 0%nat pubKey). cbn [entry]. rewrite Hparse. reflexivity.
Qed.

End Consuming.

End Authenticator.

(** The byte-record parser of the test transport consumes its input. *)
Lemma ByteKeys_consumes (input rest : list byte) (pk : @PublicKey Fixtures.ByteKeys) :
  @ParseAuthorizedKey Fixtures.ByteKeys input = Some (pk, rest) ->
  (length rest < length input)%nat.
Proof.
  destruct input as [| b bs]; cbn; [discriminate |].
  destruct (Byte.eqb b x00); [discriminate |].
  intros [= _ <-]. lia.
Qed.

End AuthFacts.

(** ** Shutdown protocol *)

Module LifecycleFacts.

Import Lifecycle.

(** Reading a field of an updated state. *)
Ltac read_fields :=
  cbn [wg accepting handshaking serving drains routers shells stop done
       listener closeDone setListener wgAdd setAccepting setHandshaking
       setServing setDrains setRouters setShells setStop] in *.

Lemma counted_init : counted init.
Proof.
  repeat split. intros Hstop. exfalso. apply Hstop. reflexivity.
Qed.

(** Every action keeps the counter equal to the number of live
    goroutines that were added to it. *)
Lemma step_counted (a : action) (s s' : state) :
  counted s -> step a s = Some s' -> counted s'.
Proof.
  intros (Hwg & Hdone & Hnil) Hstep. unfold counted, tracked in *.
  destruct a; cbn [step] in Hstep;
    repeat match type of Hstep with
      | (if ?c then _ else _) = Some _ => destruct c eqn:?; try discriminate
      | match ?x with _ => _ end = Some _ => destruct x eqn:?; try discriminate
      end;
    injection Hstep as <-; read_fields;
    repeat match goal with
      | E : _ && _ = true |- _ => apply andb_prop in E as [? ?]
      | E : bool_decide _ = true |- _ => apply bool_decide_eq_true_1 in E
      end;
    try (rewrite Hnil in * by assumption);
    repeat match goal with
      | E : accepting s = _ |- _ => rewrite E in *
      | E : handshaking s = _ |- _ => rewrite E in *
      | E : serving s = _ |- _ => rewrite E in *
      | E : stop s = _ |- _ => rewrite E in *
      | E : listener s = _ |- _ => rewrite E in *
      end;
    (split; [lia | split]);
    try (intros _; reflexivity);
    try (intros; apply Hdone; discriminate);
    try (intros; discriminate);
    auto.
Qed.

Lemma run_counted (schedule : list action) :
  forall s s', counted s -> run schedule s = Some s' -> counted s'.
Proof.
  induction schedule as [| a schedule IH]; intros s s' Hs Hrun; cbn in Hrun.
  - injection Hrun as <-. exact Hs.
  - destruct (step a s) as [s1 |] eqn:Hstep; [| discriminate].
    apply (IH s1 s'); [apply (step_counted a s s1 Hs Hstep) | exact Hrun].
Qed.

Lemma reachable_counted (s : state) : reachable s -> counted s.
Proof.
  intros [schedule Hrun]. apply (run_counted schedule init s counted_init Hrun).
Qed.

End LifecycleFacts.

(** * The properties of the specification *)

Section Claims.

Import Codec CodecFacts Srv RouterFacts ShellFacts AuthFacts Fixtures.
Import Lifecycle LifecycleFacts.

(** C2: where [int] has 32 bits the decoder does not fail on every
    payload whose length field exceeds the bytes that remain.  The
    four-byte payload [80 00 00 00] declares [2^31] bytes and carries
    none; [int(length)], line 325, is negative there, so the length
    check does not fire, and the slice expression of line 329 panics:
    no error is returned.  Where [int] has 64 bits the same payload is
    rejected with "invalid command length". *)
Theorem exec_decoding_panics_with_32_bit_int :
  lengthField [x80; x00; x00; x00] > len [x80; x00; x00; x00] - 4
  /\ parseExecPayloadOn 32 [x80; x00; x00; x00] = Panic
  /\ is_err (parseExecPayloadOn 32 [x80; x00; x00; x00]) = false
  /\ parseExecPayloadOn 64 [x80; x00; x00; x00] = Err InvalidCommandLength.
Proof.
  repeat split; vm_compute; reflexivity.
Qed.

(** Where [int] has 64 bits, decoding an exec payload fails exactly
    when the payload is shorter than four bytes, or its big-endian
    length field is zero, or the field exceeds the number of bytes that
    remain after it.  On an exec request whose payload fails to decode
    the router replies negatively, calls no command and goes on to the
    next request; a channel on which every exec payload fails to decode
    never has a command executed. *)
Theorem exec_decoding_failure_is_rejected :
  (forall payload : list byte,
     is_err (parseExecPayload payload) = true <->
     len payload < 4 \/ lengthField payload = 0
     \/ lengthField payload > len payload - 4)
  /\ (forall (H : Type) (CH : CommandHandler H) (h : option H) (req : Request),
        Type_ req = "exec"%string ->
        is_err (parseExecPayload (Payload req)) = true ->
        exists evs,
          handleRequest h req = (evs, h, true)
          /\ (EvReply false ∈ evs) /\ (EvReply true ∉ evs)
          /\ executed evs = [])
  /\ (forall (H : Type) (CH : CommandHandler H) (h : option H)
             (requests : list Request),
        (forall req, req ∈ requests -> Type_ req = "exec"%string ->
           is_err (parseExecPayload (Payload req)) = true) ->
        executed (handleChannel h requests).1 = []).
Proof.
  split; [exact parseExecPayload_fails_iff |]. split.
  - intros H CH h req Hty Herr.
    destruct (parseExecPayload (Payload req)) as [? | e |] eqn:Hparse;
      try discriminate.
    rewrite (handleRequest_exec_undecodable h req e Hty Hparse).
    eexists. split; [reflexivity |].
    destruct h; cbn; repeat split;
      rewrite ?elem_of_cons, ?elem_of_nil; try tauto;
      intros Hin; repeat (destruct Hin as [Hin | Hin]; [discriminate |]);
      exact Hin.
  - intros H CH h requests Hall.
    rewrite handleChannel_trace, executed_app.
    rewrite (handleRequests_undecodable h requests Hall). reflexivity.
Qed.

Lemma exec_decoding_failure_is_rejected_witness :
  executed (@handleChannel nat Counting (Some 0%nat)
              [execRequest [x00; x00; x00; x05; x6c; x73];
               execRequest [x00; x00; x00];
               execRequest [x00; x00; x00; x00; x6c; x73]]).1 = [].
Proof.
  apply (proj2 (proj2 exec_decoding_failure_is_rejected) nat Counting).
  intros req Hin _.
  repeat (apply elem_of_cons in Hin as [-> | Hin]; [reflexivity |]).
  apply elem_of_nil in Hin. destruct Hin.
Defined.

(** C10: a payload whose first four bytes declare a big-endian length
    [L] with [0 < L <= len(payload) - 4] decodes to exactly the [L]
    bytes at positions [4] to [4 + L - 1]; bytes after them are
    ignored, so the payload followed by any extra bytes decodes to the
    same command.  (A payload is shorter than [2^32] bytes, the bound
    of an SSH packet; the sum [4 + length] at line 329 is a [uint32].) *)
Theorem parseExecPayload_returns_declared_bytes (payload extra : list byte) :
  0 < lengthField payload <= len payload - 4 ->
  len payload < 2 ^ 32 ->
  parseExecPayload payload
  = Ok (string_of_list_byte
          (take (Z.to_nat (lengthField payload)) (drop 4 payload)))
  /\ parseExecPayload (payload ++ extra) = parseExecPayload payload.
Proof.
  intros HL Hsmall.
  destruct (payload_cases payload)
    as [Hshort | (p0 & p1 & p2 & p3 & rest & ->)].
  - destruct payload as [| ? [| ? [| ? [| ? ?]]]]; cbn [lengthField] in HL;
      try lia.
  - cbn [lengthField] in *.
    assert (Hlen : len (p0 :: p1 :: p2 :: p3 :: rest) = len rest + 4).
    { unfold len. cbn [length]. lia. }
    rewrite Hlen in *.
    assert (Hfirst : parseExecPayload (p0 :: p1 :: p2 :: p3 :: rest)
                     = Ok (string_of_list_byte
                             (take (Z.to_nat (declared_length p0 p1 p2 p3)) rest))).
    { apply parseExecPayload_in_range; lia. }
    split; [exact Hfirst |].
    rewrite Hfirst. cbn [app].
    rewrite parseExecPayload_in_range;
      [| unfold len in *; rewrite length_app; lia | lia].
    rewrite take_app_le by (unfold len in HL; lia).
    reflexivity.
Qed.

Lemma parseExecPayload_returns_declared_bytes_witness :
  parseExecPayload [x00; x00; x00; x02; x6c; x73] = Ok "ls"%string
  /\ parseExecPayload ([x00; x00; x00; x02; x6c; x73] ++ [x20; x2d; x6c])
     = parseExecPayload [x00; x00; x00; x02; x6c; x73].
Proof.
  apply (parseExecPayload_returns_declared_bytes
           [x00; x00; x00; x02; x6c; x73] [x20; x2d; x6c]).
  - vm_compute. split; [reflexivity | discriminate].
  - reflexivity.
Defined.

(** C3, as stated (every command string survives encoding then
    decoding), fails on the empty command: its length field is zero,
    which line 325 rejects. *)
Lemma empty_command_is_not_decoded :
  encodeExecPayload EmptyString = [x00; x00; x00; x00]
  /\ parseExecPayload (encodeExecPayload EmptyString) = Err InvalidCommandLength.
Proof. split; reflexivity. Qed.

(** C3, amended: for every non-empty command string [C] of fewer than
    [2^32 - 4] bytes, encoding [C] as a four-byte big-endian length
    field followed by the bytes of [C] and decoding the payload yields
    exactly [C]. *)
Theorem exec_payload_round_trip (command : string) :
  0 < strlen command ->
  strlen command < 2 ^ 32 - 4 ->
  parseExecPayload (encodeExecPayload command) = Ok command.
Proof.
  intros Hpos Hsmall. apply encodeExecPayload_decodes; lia.
Qed.

Lemma exec_payload_round_trip_witness :
  parseExecPayload (encodeExecPayload "echo hi") = Ok "echo hi"%string.
Proof.
  apply (exec_payload_round_trip "echo hi"); vm_compute; reflexivity.
Defined.

(** C4, as stated (a first shell request keeps a later exec request
    from executing), fails: the router starts the line editor in a
    goroutine of its own and goes on with the next request, so the
    exec request after the shell request runs its command. *)
Lemma shell_then_exec_still_executes :
  (@handleChannel nat Counting (Some 0%nat)
     [shellRequest; execRequest [x00; x00; x00; x02; x6c; x73]]).1
  = [EvLog (LogChannelRequest "shell"); EvReply true;
     EvWrite (list_byte_of_string ("welcome" ++ LF)); EvGoShell;
     EvLog (LogChannelRequest "exec"); EvExecute "ls";
     EvWrite (list_byte_of_string ("ls" ++ LF)); EvReply true;
     EvExitStatus 0; EvClose].
Proof. reflexivity. Qed.

(** C4, amended: for every sequence of channel requests, the router
    executes at most one command and closes the channel as its last
    act; after an exec request that decodes (handler present) no
    further request of any type is processed; and an exec request that
    decodes is executed whatever requests came before it, a shell
    request included, unless an earlier exec request already ended the
    loop. *)
Theorem router_runs_one_exec_then_closes (H : Type) (CH : CommandHandler H) :
  (forall (h : option H) (requests : list Request),
     (length (executed (handleChannel h requests).1) <= 1)%nat
     /\ exists evs, (handleChannel h requests).1 = evs ++ [EvClose]
                    /\ (EvClose ∉ evs))
  /\ (forall (hs : H) (before after : list Request) (req : Request)
             (command : string),
        Type_ req = "exec"%string ->
        parseExecPayload (Payload req) = Ok command ->
        handleChannel (Some hs) (before ++ req :: after)
        = handleChannel (Some hs) (before ++ [req]))
  /\ (forall (hs : H) (before after : list Request) (req : Request)
             (command : string),
        (forall r, r ∈ before -> Type_ r = "exec"%string ->
           is_err (parseExecPayload (Payload r)) = true) ->
        Type_ req = "exec"%string ->
        parseExecPayload (Payload req) = Ok command ->
        executed (handleChannel (Some hs) (before ++ req :: after)).1
        = [command]).
Proof.
  repeat split.
  - rewrite handleChannel_trace, executed_app, length_app.
    pose proof (handleRequests_executed h requests). cbn. lia.
  - exists (handleRequests h requests).1.
    split; [apply handleChannel_trace | apply handleRequests_no_close].
  - intros hs before after req command Hty Hparse.
    unfold handleChannel.
    rewrite (handleRequests_stops_after_exec hs before after req command)
      by assumption.
    reflexivity.
  - intros hs before after req command Hall Hty Hparse.
    rewrite handleChannel_trace, executed_app.
    rewrite (handleRequests_reaches_exec hs before after req command)
      by assumption.
    reflexivity.
Qed.

Lemma router_runs_one_exec_then_closes_witness :
  @handleChannel nat Counting (Some 0%nat)
    ([shellRequest] ++ execRequest [x00; x00; x00; x02; x6c; x73]
       :: [execRequest [x00; x00; x00; x02; x70; x73]; shellRequest])
  = @handleChannel nat Counting (Some 0%nat)
      ([shellRequest] ++ [execRequest [x00; x00; x00; x02; x6c; x73]]).
Proof.
  apply (proj1 (proj2 (router_runs_one_exec_then_closes nat Counting))
           0%nat [shellRequest] _ _ "ls"%string);
    reflexivity.
Defined.

(** C5: the line editor started with an empty buffer and fed the byte
    stream ["echo hi\r"], however the channel cuts it into reads and
    whether or not a read error follows, calls [Execute] exactly once,
    with exactly ["echo hi"], and leaves the buffer empty; a carriage
    return or line feed that finds the buffer empty writes a line
    break and the prompt and calls no command. *)
Theorem line_editor_dispatches_one_line (H : Type) (CH : CommandHandler H) :
  (forall (h : H) (chunks : list (list byte)) (ending : list read),
     concat chunks = list_byte_of_string "echo hi" ++ [x0d] ->
     (ending = [] \/ exists eof, ending = [ReadError eof]) ->
     let result := handleShell h (map ReadBytes chunks ++ ending) in
     executed result.1.2 = ["echo hi"%string]
     /\ cmdBuffer result.1.1 = []
     /\ handler result.1.1 = (Execute h "echo hi").2)
  /\ (forall (b : byte) (st : editor),
        b = x0d \/ b = x0a ->
        cmdBuffer st = [] ->
        shellByte b st
        = (st, [EvWrite (list_byte_of_string (CRLF ++ GetPrompt (handler st)))])).
Proof.
  split.
  - intros h chunks ending Hstream Hending result. subst result.
    unfold handleShell. rewrite shellLoop_chunks, Hstream.
    change (list_byte_of_string "echo hi" ++ [x0d])
      with [x65; x63; x68; x6f; x20; x68; x69; x0d].
    cbn [shellBytes].
    rewrite !shellByte_plain by reflexivity. cbn [cmdBuffer handler app].
    unfold shellByte. cbn [Byte.eqb orb cmdBuffer handler].
    rewrite bool_decide_eq_true_2 by (unfold len; cbn; lia).
    change (string_of_list_byte [x65; x63; x68; x6f; x20; x68; x69])
      with "echo hi"%string.
    destruct (Execute h "echo hi") as [[output status] h'].
    destruct Hending as [-> | [eof ->]]; cbn [shellLoop];
      [| destruct eof]; cbn; auto.
  - intros b st Hb Hempty. unfold shellByte.
    destruct Hb as [-> | ->]; cbn [Byte.eqb orb];
      rewrite Hempty;
      rewrite bool_decide_eq_false_2 by (unfold len; cbn; lia);
      reflexivity.
Qed.

Lemma line_editor_dispatches_one_line_witness :
  let result :=
    @handleShell nat Counting 0%nat
      (map ReadBytes [[x65; x63; x68]; []; [x6f; x20; x68; x69; x0d]]
         ++ [ReadError true]) in
  executed result.1.2 = ["echo hi"%string]
  /\ cmdBuffer result.1.1 = []
  /\ handler result.1.1 = (@Execute nat Counting 0%nat "echo hi").2.
Proof.
  apply (proj1 (line_editor_dispatches_one_line nat Counting)).
  - reflexivity.
  - right. exists true. reflexivity.
Defined.

(** C6: on a backspace or delete byte ([0x7f] or [0x08]) the line
    editor drops the last byte of a non-empty buffer (["abc"] becomes
    ["ab"]) and writes the three bytes backspace, space, backspace; on
    an empty buffer it does nothing: the buffer stays empty and nothing
    is written. *)
Theorem backspace_erases_last_byte (H : Type) (CH : CommandHandler H)
    (b : byte) (h : H) :
  b = x7f \/ b = x08 ->
  (forall (kept : list byte) (last : byte),
     shellByte b {| cmdBuffer := kept ++ [last]; handler := h |}
     = ({| cmdBuffer := kept; handler := h |}, [EvWrite [x08; x20; x08]]))
  /\ shellByte b {| cmdBuffer := []; handler := h |}
     = ({| cmdBuffer := []; handler := h |}, []).
Proof.
  intros Hb. split.
  - intros kept last. unfold shellByte.
    destruct Hb as [-> | ->]; cbn [Byte.eqb orb cmdBuffer handler];
      rewrite bool_decide_eq_true_2 by apply len_positive;
      rewrite length_app; cbn [length];
      replace (length kept + 1 - 1)%nat with (length kept) by lia;
      rewrite take_app_length; reflexivity.
  - destruct Hb as [-> | ->]; reflexivity.
Qed.

Lemma backspace_erases_last_byte_witness :
  @shellByte nat Counting x7f
    {| cmdBuffer := list_byte_of_string "abc"; handler := 0%nat |}
  = ({| cmdBuffer := list_byte_of_string "ab"; handler := 0%nat |},
     [EvWrite [x08; x20; x08]])
  /\ @shellByte nat Counting x7f {| cmdBuffer := []; handler := 0%nat |}
     = ({| cmdBuffer := []; handler := 0%nat |}, []).
Proof.
  destruct (backspace_erases_last_byte nat Counting x7f 0%nat
              (or_introl eq_refl)) as [Hdrop Hempty].
  split; [exact (Hdrop [x61; x62] x63) | exact Hempty].
Defined.

(** C1: for every trust-store file and every presented key, with a
    parser that consumes its input: if the file holds a record whose
    SHA-256 fingerprint equals the fingerprint of the presented key,
    [validatePublicKey] succeeds with a permission record carrying that
    fingerprint; it returns at the first such record, after exactly as
    many turns of its loop as there are records up to that one; and if
    the fingerprint differs from that of every record of the file, it
    returns an error and no permissions. *)
Theorem validatePublicKey_accepts_listed_keys_only (H : Type) (lib : SSH)
    (fs : FileSystem) (s : @Server H lib) (conn : ConnMetadata)
    (key : PublicKey) (file : list byte) :
  (forall (input rest : list byte) (pk : PublicKey),
     ParseAuthorizedKey input = Some (pk, rest) ->
     (length rest < length input)%nat) ->
  ReadFile fs (AuthorizedKeysFile (config s)) = Some file ->
  let fp := FingerprintSHA256 key in
  ((exists n pk, entry n file = Some pk /\ FingerprintSHA256 pk = fp) ->
   validatePublicKey fs s conn key
   = Some (Ok (granted fp),
           [LogAttempting (User conn) fp; LogAuthSuccess (User conn)]))
  /\ (forall n pk,
        entry n file = Some pk -> FingerprintSHA256 pk = fp ->
        (forall m pk', (m < n)%nat -> entry m file = Some pk' ->
                       FingerprintSHA256 pk' <> fp) ->
        validateLoop (S n) (User conn) fp file
        = Some (Ok (granted fp), [LogAuthSuccess (User conn)])
        /\ validateLoop n (User conn) fp file = None)
  /\ ((forall n pk, entry n file = Some pk -> FingerprintSHA256 pk <> fp) ->
      exists e logs, validatePublicKey fs s conn key = Some (Err e, logs)).
Proof.
  intros Hconsumes Hread fp. repeat split.
  - intros (n & pk & Hentry & Hfp).
    unfold validatePublicKey. rewrite Hread. fold fp.
    rewrite (validateLoop_match n _ (User conn) fp file pk Hentry Hfp
               (entry_within_file Hconsumes n file pk Hentry)).
    reflexivity.
  - apply (validateLoop_match n _ _ _ _ pk); auto.
  - apply (validateLoop_not_earlier n _ _ _ pk); auto.
  - intros Hnone.
    unfold validatePublicKey. rewrite Hread. fold fp.
    destruct (validateLoop_no_match Hconsumes (length file) (User conn) fp
                file (le_n _) Hnone) as (e & logs & ->).
    eauto.
Qed.

Lemma validatePublicKey_accepts_listed_keys_only_witness :
  @validatePublicKey nat ByteKeys disk server {| User := "alice" |} x62
  = Some (Ok (granted "b"),
          [LogAttempting "alice" "b"; LogAuthSuccess "alice"])
  /\ (exists e logs,
        @validatePublicKey nat ByteKeys disk server {| User := "alice" |} x63
        = Some (Err e, logs)).
Proof.
  split.
  - apply (validatePublicKey_accepts_listed_keys_only nat ByteKeys disk
             server {| User := "alice" |} x62 [x61; x62; x00; x63]
             ByteKeys_consumes eq_refl).
    exists 1%nat, x62. split; reflexivity.
  - apply (validatePublicKey_accepts_listed_keys_only nat ByteKeys disk
             server {| User := "alice" |} x63 [x61; x62; x00; x63]
             ByteKeys_consumes eq_refl).
    intros n pk.
    destruct n as [| [| [| n]]]; cbn; intros Hentry;
      try discriminate Hentry;
      injection Hentry as Hpk; subst pk; discriminate.
Defined.

(** C8: when the trust-store file cannot be read, [validatePublicKey]
    returns the read error and no permissions, whatever key is
    presented: it never accepts. *)
Theorem validatePublicKey_fails_closed (H : Type) (lib : SSH)
    (fs : FileSystem) (s : @Server H lib) (conn : ConnMetadata)
    (key : PublicKey) :
  ReadFile fs (AuthorizedKeysFile (config s)) = None ->
  validatePublicKey fs s conn key
  = Some (Err (OsError (AuthorizedKeysFile (config s))),
          [LogFailedLoadAuthorizedKeys
             (OsError (AuthorizedKeysFile (config s)))])
  /\ (forall perms logs,
        validatePublicKey fs s conn key <> Some (Ok perms, logs)).
Proof.
  intros Hread. unfold validatePublicKey. rewrite Hread.
  split; [reflexivity | discriminate].
Qed.

Lemma validatePublicKey_fails_closed_witness :
  @validatePublicKey nat ByteKeys emptyDisk server {| User := "alice" |} x62
  = Some (Err (OsError "authorized_keys"),
          [LogFailedLoadAuthorizedKeys (OsError "authorized_keys")]).
Proof.
  apply (validatePublicKey_fails_closed nat ByteKeys emptyDisk server
           {| User := "alice" |} x62 eq_refl).
Defined.

(** C7: server construction fails, before any socket is bound,
    whenever the listen address is empty, or client authentication is
    enabled and the host-key path or the authorized-keys path is unset
    or its file is missing: [Validate] returns an error, [NewServer]
    returns it as an invalid configuration, no server to [Start] and no
    listen call among the system calls made.  A configuration that
    passes these checks is accepted by [Validate]. *)
Theorem invalid_configuration_stops_construction (H : Type) (lib : SSH)
    (fs : FileSystem) (c : Config) (handler : option H) :
  let invalid :=
    ListenAddress c = EmptyString
    \/ (NoClientAuth c = false
        /\ (HostKeyFile c = EmptyString \/ AuthorizedKeysFile c = EmptyString
            \/ Stat fs (HostKeyFile c) = false
            \/ Stat fs (AuthorizedKeysFile c) = false)) in
  (invalid ->
   exists e calls,
     Validate fs c = (Some e, calls)
     /\ @NewServer H lib fs c handler = (Err (InvalidConfiguration e), calls)
     /\ (forall address, SysListen address ∉ calls))
  /\ (~ invalid -> exists calls, Validate fs c = (None, calls)).
Proof.
  intros invalid. subst invalid. unfold NewServer, Validate.
  destruct (NoClientAuth c) eqn:Hauth; cbn [negb];
    repeat case_bool_decide;
    try destruct (Stat fs (HostKeyFile c)) eqn:Hhost;
    try destruct (Stat fs (AuthorizedKeysFile c)) eqn:Hkeys;
    cbn [negb]; (split; [intros Hinvalid | intros Hvalid]);
    try (do 2 eexists; split; [reflexivity |]; split; [reflexivity |];
         intros address Hin;
         repeat (apply elem_of_cons in Hin as [Hin | Hin];
                 [discriminate |]);
         apply elem_of_nil in Hin; exact Hin);
    try (eexists; reflexivity);
    try (exfalso; apply Hvalid; tauto);
    try (exfalso; intuition congruence).
Qed.

Lemma invalid_configuration_stops_construction_witness :
  exists e calls,
    Validate emptyDisk DefaultConfig = (Some e, calls)
    /\ @NewServer nat ByteKeys emptyDisk DefaultConfig (Some 0%nat)
       = (Err (InvalidConfiguration e), calls)
    /\ (forall address, SysListen address ∉ calls).
Proof.
  apply (proj1 (invalid_configuration_stops_construction nat ByteKeys
                  emptyDisk DefaultConfig (Some 0%nat))).
  right. split; [reflexivity |]. right. right. left. reflexivity.
Defined.

(** On a disk that holds both files the default configuration builds
    the test server; the socket is bound by [Start] only. *)
Example default_configuration_builds_server :
  @NewServer nat ByteKeys disk DefaultConfig (Some 0%nat)
  = (Ok server,
     [SysStat "server_key"; SysStat "authorized_keys";
      SysOpenFile "ssh_server.log"; SysReadFile "server_key"])
  /\ Start (fun _ => true) server
     = (Ok (LogListening ":2222"), [SysListen ":2222"]).
Proof. split; reflexivity. Qed.

(** C9, as stated ([Stop] returns only when every goroutine the server
    spawned has finished), fails: a channel router, its shell and the
    global-request drain are started with a bare [go] and are not
    added to the counter, so [Stop] does not wait for them.  Here a
    connection is accepted, opens a session channel with a shell, and
    ends while those goroutines have not yet returned (a router can be
    inside [Execute], for instance); [Stop] then returns nil with
    three goroutines live. *)
Lemma Stop_returns_while_channel_goroutines_run :
  exists s,
    run [StartListening; AcceptConnection; Handshake true; NewChannel true;
         ShellRequest; ConnectionEnd; StopCloseDone; StopCloseListener true;
         AcceptReturn; StopWaitReturn] init = Some s
    /\ stop s = Returned None
    /\ routers s = 1%nat /\ shells s = 1%nat /\ drains s = 1%nat
    /\ live s = 3%nat.
Proof.
  eexists. split; [vm_compute; reflexivity |].
  cbn. auto 6.
Qed.

(** C9, amended: [Stop] signals the shutdown marker, closes the
    listener, and when the listener closes without error does not
    return until the goroutines counted by the shared counter have
    finished: the accept loop and every connection goroutine.  (The
    per-channel router and shell goroutines and the global-request
    drain are not counted.) *)
Theorem Stop_waits_for_counted_goroutines :
  (forall s s', step StopCloseDone s = Some s' -> done s' = true)
  /\ (forall s s',
        step (StopCloseListener true) s = Some s' -> listener s' <> Some true)
  /\ (forall a s s',
        step a s = Some s' -> stop s' = Returned None ->
        a = StopWaitReturn \/ stop s = Returned None)
  /\ (forall s s',
        reachable s -> step StopWaitReturn s = Some s' ->
        stop s' = Returned None /\ done s' = true /\ accepting s' = false
        /\ handshaking s' = 0%nat /\ serving s' = 0%nat).
Proof.
  split; [| split; [| split]].
  - intros s s' Hstep. cbn [step] in Hstep.
    destruct (stop s); try discriminate.
    injection Hstep as <-. reflexivity.
  - intros s s' Hstep. cbn [step] in Hstep.
    destruct (stop s); try discriminate.
    destruct (listener s) eqn:Hlistener;
      injection Hstep as <-; read_fields; congruence.
  - intros a s s' Hstep Hstop.
    destruct a; [.. | left; reflexivity]; right; cbn [step] in Hstep;
      repeat match type of Hstep with
        | (if ?c then _ else _) = Some _ => destruct c eqn:?; try discriminate
        | match ?x with _ => _ end = Some _ => destruct x eqn:?; try discriminate
        end;
      injection Hstep as <-; read_fields;
      try exact Hstop; try discriminate; congruence.
  - intros s s' Hreach Hstep.
    apply reachable_counted in Hreach as (Hwg & Hdone & _).
    cbn [step] in Hstep.
    destruct (stop s) eqn:Hstop; try discriminate.
    case_bool_decide as Hzero; [| discriminate].
    injection Hstep as <-. read_fields.
    unfold tracked in Hwg.
    split; [reflexivity |].
    split; [apply Hdone; discriminate |].
    destruct (accepting s); repeat split; lia.
Qed.

Lemma Stop_waits_for_counted_goroutines_witness :
  exists s',
    run [StartListening; AcceptConnection; Handshake false; StopCloseDone;
         StopCloseListener true; AcceptReturn; StopWaitReturn] init = Some s'
    /\ stop s' = Returned None /\ done s' = true /\ accepting s' = false
    /\ handshaking s' = 0%nat /\ serving s' = 0%nat.
Proof.
  eexists. split; [vm_compute; reflexivity |].
  apply (proj2 (proj2 (proj2 Stop_waits_for_counted_goroutines))
           {| done := true; listener := Some false; wg := 0;
              accepting := false; handshaking := 0; serving := 0;
              drains := 0; routers := 0; shells := 0; stop := Waiting |}).
  - exists [StartListening; AcceptConnection; Handshake false; StopCloseDone;
            StopCloseListener true; AcceptReturn].
    reflexivity.
  - reflexivity.
Defined.

End Claims.

(** * Further properties of the package *)

(** Membership in a short explicit list. *)
Ltac member_cases Hin :=
  repeat first
    [ apply elem_of_app in Hin as [Hin | Hin]
    | apply elem_of_cons in Hin as [Hin | Hin]
    | apply elem_of_nil in Hin; destruct Hin ];
  try discriminate Hin; try (injection Hin as ->).

(** ** Exec payload codec *)

Section CodecFurther.

Import Codec CodecFacts.

Lemma slice_some {A} (s : list A) (lo hi : Z) (r : list A) :
  slice s lo hi = Some r ->
  0 <= lo /\ lo <= hi /\ hi <= len s
  /\ r = take (Z.to_nat (hi - lo)) (drop (Z.to_nat lo) s).
Proof.
  unfold slice. case_bool_decide as Hb; [| discriminate].
  intros [= <-]. tauto.
Qed.

(** What a successful decoding tells about the payload. *)
Lemma parseExecPayload_ok_inv (payload : list byte) (command : string) :
  parseExecPayload payload = Ok command ->
  exists p0 p1 p2 p3 rest,
    payload = p0 :: p1 :: p2 :: p3 :: rest
    /\ 0 < declared_length p0 p1 p2 p3 <= len rest
    /\ declared_length p0 p1 p2 p3 + 4 < 2 ^ 32
    /\ command = string_of_list_byte
                   (take (Z.to_nat (declared_length p0 p1 p2 p3)) rest).
Proof.
  intros Hok.
  destruct (payload_cases payload)
    as [Hshort | (p0 & p1 & p2 & p3 & rest & ->)].
  - rewrite parseExecPayload_short in Hok by exact Hshort. discriminate.
  - exists p0, p1, p2, p3, rest. split; [reflexivity |].
    pose proof (declared_length_range p0 p1 p2 p3) as Hrange.
    rewrite parseExecPayload_cons4 in Hok. cbv zeta in Hok.
    set (L := declared_length p0 p1 p2 p3) in *.
    destruct (bool_decide (L = 0)) eqn:Hzero; [discriminate |].
    destruct (bool_decide (L > len rest)) eqn:Hlong; [discriminate |].
    apply bool_decide_eq_false_1 in Hzero, Hlong.
    cbn [orb] in Hok.
    destruct (slice (p0 :: p1 :: p2 :: p3 :: rest) 4 (add32 4 L))
      as [bytes |] eqn:Hslice; [| discriminate].
    apply slice_some in Hslice as (_ & Hlo & _ & ->).
    assert (Hnowrap : L + 4 < 2 ^ 32).
    { unfold add32, wrap32 in Hlo.
      destruct (Z_lt_ge_dec (4 + L) (2 ^ 32)) as [Hlt | Hge]; [lia |].
      exfalso.
      assert (Hmod : (4 + L) mod 2 ^ 32 = 4 + L - 2 ^ 32).
      { symmetry. apply (Z.mod_unique _ _ 1); lia. }
      lia. }
    assert (Hadd : add32 4 L = 4 + L).
    { unfold add32, wrap32. apply Z.mod_small. lia. }
    rewrite Hadd in Hok.
    replace (4 + L - 4) with L in Hok by lia.
    injection Hok as <-.
    repeat split; try lia.
Qed.

(** Where [int] has 64 bits, decoding a payload shorter than [2^32]
    bytes returns a command or an error. *)
Lemma parseExecPayload_returns (payload : list byte) :
  len payload < 2 ^ 32 -> parseExecPayload payload <> Panic.
Proof.
  intros Hsmall.
  destruct (payload_cases payload)
    as [Hshort | (p0 & p1 & p2 & p3 & rest & ->)].
  - rewrite parseExecPayload_short by exact Hshort. discriminate.
  - assert (Hlen : len (p0 :: p1 :: p2 :: p3 :: rest) = len rest + 4).
    { unfold len. cbn [length]. lia. }
    pose proof (declared_length_range p0 p1 p2 p3) as Hrange.
    destruct (Z.eq_dec (declared_length p0 p1 p2 p3) 0) as [Hz | Hnz].
    { rewrite parseExecPayload_bad_length by (left; exact Hz). discriminate. }
    destruct (Z_gt_le_dec (declared_length p0 p1 p2 p3) (len rest))
      as [Hgt | Hle].
    { rewrite parseExecPayload_bad_length by (right; exact Hgt).
      discriminate. }
    rewrite parseExecPayload_in_range by lia. discriminate.
Qed.

(** The decoder for an [int] of 64 bits is the decoder of the server
    model. *)
Lemma parseExecPayloadOn_64 (payload : list byte) :
  parseExecPayloadOn 64 payload = parseExecPayload payload.
Proof. reflexivity. Qed.

(** [int(x)] where [int] has 32 bits: the upper half of the [uint32]
    range becomes negative. *)
Lemma int_of_uint32_on_32_low (x : Z) :
  0 <= x < 2 ^ 31 -> int_of_uint32_on 32 x = x.
Proof.
  intros Hx. unfold int_of_uint32_on.
  change (32 - 1) with 31.
  change (2 ^ 31) with 2147483648 in *. change (2 ^ 32) with 4294967296.
  rewrite Z.mod_small; lia.
Qed.

Lemma int_of_uint32_on_32_high (x : Z) :
  2 ^ 31 <= x < 2 ^ 32 -> int_of_uint32_on 32 x = x - 2 ^ 32.
Proof.
  intros Hx. unfold int_of_uint32_on.
  change (32 - 1) with 31.
  change (2 ^ 31) with 2147483648 in *.
  change (2 ^ 32) with 4294967296 in *.
  rewrite <- (Z.mod_unique (x + 2147483648) 4294967296 1 (x - 2147483648));
    lia.
Qed.

Lemma parseExecPayloadOn_short (intSize : Z) (payload : list byte) :
  len payload < 4 ->
  parseExecPayloadOn intSize payload = Err ExecPayloadTooShort.
Proof.
  intros Hlt. unfold parseExecPayloadOn.
  rewrite bool_decide_eq_true_2 by exact Hlt. reflexivity.
Qed.

(** [parseExecPayloadOn] on a payload that has a length field. *)
Lemma parseExecPayloadOn_cons4 (intSize : Z) (p0 p1 p2 p3 : byte)
    (rest : list byte) :
  parseExecPayloadOn intSize (p0 :: p1 :: p2 :: p3 :: rest) =
  let L := declared_length p0 p1 p2 p3 in
  if bool_decide (L = 0) || bool_decide (int_of_uint32_on intSize L > len rest)
  then Err InvalidCommandLength
  else match slice (p0 :: p1 :: p2 :: p3 :: rest) 4 (add32 4 L) with
       | Some command => Ok (string_of_list_byte command)
       | None => Panic
       end.
Proof.
  unfold parseExecPayloadOn.
  assert (Hlen : len (p0 :: p1 :: p2 :: p3 :: rest) = len rest + 4).
  { unfold len. cbn [length]. lia. }
  rewrite bool_decide_eq_false_2 by (rewrite Hlen; unfold len; lia).
  cbn [index lookup list_lookup].
  rewrite length_field_value.
  rewrite Hlen. cbv zeta.
  replace (len rest + 4 - 4) with (len rest) by lia.
  reflexivity.
Qed.

(** A slice bound computed from a length field of [2^31] or more lies
    outside a payload shorter than [2^31] bytes. *)
Lemma slice_beyond_payload (payload : list byte) (L : Z) :
  len payload < 2 ^ 31 -> 2 ^ 31 <= L < 2 ^ 32 ->
  slice payload 4 (add32 4 L) = None.
Proof.
  intros Hlen HL. unfold slice.
  rewrite bool_decide_eq_false_2; [reflexivity |].
  intros (_ & Hlo & Hhi). unfold add32, wrap32 in *.
  change (2 ^ 31) with 2147483648 in *.
  change (2 ^ 32) with 4294967296 in *.
  destruct (Z_lt_ge_dec (4 + L) 4294967296) as [Hlt | Hge].
  - rewrite Z.mod_small in Hhi by lia. lia.
  - rewrite <- (Z.mod_unique (4 + L) 4294967296 1 (4 + L - 4294967296))
      in Hlo by lia.
    lia.
Qed.

(** X1: when the exec decoder panics.  Where [int] has 64 bits it
    never does, on a payload shorter than [2^32] bytes (every SSH
    packet is): it returns a command or an error.  Where [int] has 32
    bits (a payload is shorter than [2^31] bytes there) it panics
    exactly on the payloads that have a length field of [2^31] or
    more: [int(length)] is negative then, the length check lets the
    payload through, and the slice bound is out of range. *)
Theorem parseExecPayloadOn_panics_iff (payload : list byte) :
  (len payload < 2 ^ 32 -> parseExecPayloadOn 64 payload <> Panic)
  /\ (len payload < 2 ^ 31 ->
      (parseExecPayloadOn 32 payload = Panic <->
       4 <= len payload /\ 2 ^ 31 <= lengthField payload)).
Proof.
  split.
  - rewrite parseExecPayloadOn_64. apply parseExecPayload_returns.
  - intros Hsmall.
    destruct (payload_cases payload)
      as [Hshort | (p0 & p1 & p2 & p3 & rest & ->)].
    + rewrite parseExecPayloadOn_short by exact Hshort.
      split; [discriminate | lia].
    + assert (Hlen : len (p0 :: p1 :: p2 :: p3 :: rest) = len rest + 4).
      { unfold len. cbn [length]. lia. }
      pose proof (declared_length_range p0 p1 p2 p3) as Hrange.
      rewrite parseExecPayloadOn_cons4. cbn [lengthField]. cbv zeta.
      set (L := declared_length p0 p1 p2 p3) in *.
      destruct (Z_lt_ge_dec L (2 ^ 31)) as [Hlow | Hhigh].
      * rewrite int_of_uint32_on_32_low by lia.
        split; [| lia].
        destruct (bool_decide (L = 0)) eqn:Hzero; [discriminate |].
        destruct (bool_decide (L > len rest)) eqn:Hlong; [discriminate |].
        apply bool_decide_eq_false_1 in Hzero, Hlong. cbn [orb].
        assert (Hadd : add32 4 L = 4 + L).
        { unfold add32, wrap32. apply Z.mod_small.
          change (2 ^ 31) with 2147483648 in *.
          change (2 ^ 32) with 4294967296 in *. lia. }
        rewrite Hadd, slice_in_range by lia. discriminate.
      * rewrite int_of_uint32_on_32_high by lia.
        rewrite (bool_decide_eq_false_2 (L = 0))
          by (change (2 ^ 31) with 2147483648 in *; lia).
        rewrite (bool_decide_eq_false_2 (L - 2 ^ 32 > len rest))
          by (unfold len; lia).
        cbn [orb]. rewrite slice_beyond_payload by (assumption || lia).
        split; [intros _; rewrite Hlen; unfold len; lia | reflexivity].
Qed.

Lemma parseExecPayloadOn_panics_iff_witness :
  parseExecPayloadOn 64 [xff; xff; xff; xff; x6c; x73] <> Panic
  /\ parseExecPayloadOn 32 [xff; xff; xff; xff; x6c; x73] = Panic.
Proof.
  split.
  - apply (proj1 (parseExecPayloadOn_panics_iff
                    [xff; xff; xff; xff; x6c; x73])).
    reflexivity.
  - apply (proj2 (parseExecPayloadOn_panics_iff
                    [xff; xff; xff; xff; x6c; x73])); [reflexivity |].
    split; vm_compute; discriminate.
Defined.

(** X2: a decoded command is never empty; it has exactly the declared
    number of bytes, which is at most what follows the length field. *)
Theorem parseExecPayload_command_length (payload : list byte)
    (command : string) :
  parseExecPayload payload = Ok command ->
  0 < strlen command
  /\ strlen command = lengthField payload
  /\ strlen command <= len payload - 4.
Proof.
  intros Hok.
  apply parseExecPayload_ok_inv in Hok
    as (p0 & p1 & p2 & p3 & rest & -> & HL & _ & ->).
  cbn [lengthField]. unfold strlen.
  rewrite list_byte_of_string_of_list_byte.
  unfold len in *. cbn [length].
  rewrite length_take. lia.
Qed.

Lemma parseExecPayload_command_length_witness :
  0 < strlen "ls"
  /\ strlen "ls" = lengthField [x00; x00; x00; x02; x6c; x73; x0a]
  /\ strlen "ls" <= len [x00; x00; x00; x02; x6c; x73; x0a] - 4.
Proof.
  apply (parseExecPayload_command_length
           [x00; x00; x00; x02; x6c; x73; x0a] "ls").
  reflexivity.
Defined.

Lemma byte_at_uint32_of_byte (z sh : Z) (b : byte) :
  0 <= sh -> (z / 2 ^ sh) mod 256 = uint32_of_byte b -> byte_at z sh = b.
Proof.
  intros Hsh Hb. unfold byte_at.
  rewrite Z.shiftr_div_pow2 by exact Hsh. rewrite Hb.
  unfold uint32_of_byte. rewrite N2Z.id, Byte.of_to_N. reflexivity.
Qed.

(** The four bytes of a length field are the bytes written for its
    value. *)
Lemma byte_at_declared_length (p0 p1 p2 p3 : byte) :
  let L := declared_length p0 p1 p2 p3 in
  byte_at L 24 = p0 /\ byte_at L 16 = p1
  /\ byte_at L 8 = p2 /\ byte_at L 0 = p3.
Proof.
  pose proof (uint32_of_byte_range p0) as H0.
  pose proof (uint32_of_byte_range p1) as H1.
  pose proof (uint32_of_byte_range p2) as H2.
  pose proof (uint32_of_byte_range p3) as H3.
  cbv zeta. unfold declared_length.
  repeat split; apply byte_at_uint32_of_byte; try lia;
    change (2 ^ 0) with 1; change (2 ^ 8) with 256;
    change (2 ^ 16) with 65536; change (2 ^ 24) with 16777216;
    Z.div_mod_to_equations; lia.
Qed.

(** X3: decoding then encoding: a payload that decodes to a command
    starts with the encoding of that command; what follows is the
    trailing bytes the decoder ignored. *)
Theorem parseExecPayload_then_encode (payload : list byte) (command : string) :
  parseExecPayload payload = Ok command ->
  payload
  = encodeExecPayload command
      ++ drop (Z.to_nat (4 + strlen command)) payload.
Proof.
  intros Hok.
  apply parseExecPayload_ok_inv in Hok
    as (p0 & p1 & p2 & p3 & rest & -> & HL & Hsmall & ->).
  set (L := declared_length p0 p1 p2 p3) in *.
  assert (Hlen : len (take (Z.to_nat L) rest) = L).
  { unfold len in *. rewrite length_take. lia. }
  unfold strlen, encodeExecPayload. cbv zeta.
  rewrite list_byte_of_string_of_list_byte, Hlen.
  assert (Hwrap : wrap32 L = L).
  { unfold wrap32. apply Z.mod_small. lia. }
  rewrite Hwrap.
  destruct (byte_at_declared_length p0 p1 p2 p3) as (E0 & E1 & E2 & E3).
  fold L in E0, E1, E2, E3. rewrite E0, E1, E2, E3.
  replace (Z.to_nat (4 + L)) with (4 + Z.to_nat L)%nat by lia.
  cbn [app drop Nat.add].
  rewrite take_drop. reflexivity.
Qed.

Lemma parseExecPayload_then_encode_witness :
  [x00; x00; x00; x02; x6c; x73; x0a; x0a]
  = encodeExecPayload "ls"
      ++ drop (Z.to_nat (4 + strlen "ls"))
           [x00; x00; x00; x02; x6c; x73; x0a; x0a].
Proof.
  apply (parseExecPayload_then_encode
           [x00; x00; x00; x02; x6c; x73; x0a; x0a] "ls").
  reflexivity.
Defined.

End CodecFurther.

(** ** Authenticator *)

Section AuthFurther.

Import Srv AuthFacts Spec Fixtures.

Context {lib : SSH}.

(** An accepting loop found a record with the presented fingerprint. *)
Lemma validateLoop_ok_inv (fuel : nat) :
  forall (user fp : string) (file : list byte) (perms : Permissions)
         (logs : list logline),
    validateLoop fuel user fp file = Some (Ok perms, logs) ->
    perms = granted fp /\ logs = [LogAuthSuccess user]
    /\ exists n pk, entry n file = Some pk /\ FingerprintSHA256 pk = fp.
Proof.
  induction fuel as [| fuel IH]; intros user fp file perms logs Hok;
    destruct file as [| b bs];
    try (rewrite validateLoop_nil in Hok; discriminate).
  - rewrite validateLoop_no_fuel in Hok. discriminate.
  - rewrite validateLoop_cons in Hok.
    destruct (ParseAuthorizedKey (b :: bs)) as [[pubKey rest] |] eqn:Hparse;
      [| discriminate].
    case_bool_decide as Hfp.
    + injection Hok as <- <-. repeat split.
      exists 0%nat, pubKey. cbn [entry]. rewrite Hparse. auto.
    + apply IH in Hok as (-> & -> & n & pk & Hentry & Hpk).
      repeat split. exists (S n), pk. cbn [entry]. rewrite Hparse. auto.
Qed.

(** The loop with another user name. *)
Lemma validateLoop_user (fuel : nat) :
  forall (user user' fp : string) (file : list byte) (perms : Permissions)
         (logs : list logline),
    validateLoop fuel user fp file = Some (Ok perms, logs) ->
    validateLoop fuel user' fp file = Some (Ok perms, [LogAuthSuccess user']).
Proof.
  induction fuel as [| fuel IH]; intros user user' fp file perms logs Hok;
    destruct file as [| b bs];
    try (rewrite validateLoop_nil in Hok; discriminate).
  - rewrite validateLoop_no_fuel in Hok. discriminate.
  - rewrite validateLoop_cons in *.
    destruct (ParseAuthorizedKey (b :: bs)) as [[pubKey rest] |];
      [| discriminate].
    case_bool_decide as Hfp.
    + injection Hok as <- _. reflexivity.
    + apply (IH user user' fp rest perms logs Hok).
Qed.

(** X4: the authenticator never accepts a key that is not listed: when
    it returns permissions, the trust-store file was read and holds a
    record with the fingerprint of the presented key, and the
    permissions are exactly the record that carries this fingerprint
    under ["pubkey-fp"]. *)
Theorem validatePublicKey_accepts_only_listed (H : Type)
    (fs : FileSystem) (s : @Server H lib) (conn : ConnMetadata)
    (key : PublicKey) (perms : Permissions) (logs : list logline) :
  validatePublicKey fs s conn key = Some (Ok perms, logs) ->
  perms = granted (FingerprintSHA256 key)
  /\ exists file n pk,
       ReadFile fs (AuthorizedKeysFile (config s)) = Some file
       /\ entry n file = Some pk
       /\ FingerprintSHA256 pk = FingerprintSHA256 key.
Proof.
  unfold validatePublicKey.
  destruct (ReadFile fs (AuthorizedKeysFile (config s))) as [file |];
    [| discriminate].
  destruct (validateLoop (length file) (User conn) (FingerprintSHA256 key)
              file) as [[res logs'] |] eqn:Hloop; [| discriminate].
  intros [= -> _].
  apply validateLoop_ok_inv in Hloop as (-> & _ & n & pk & Hentry & Hpk).
  split; [reflexivity |]. exists file, n, pk. auto.
Qed.

(** X5: the user name plays no part in the decision: a key accepted
    for one connecting user is accepted, with the same permissions, for
    every other. *)
Theorem validatePublicKey_ignores_user (H : Type)
    (fs : FileSystem) (s : @Server H lib) (conn conn' : ConnMetadata)
    (key : PublicKey) (perms : Permissions) (logs : list logline) :
  validatePublicKey fs s conn key = Some (Ok perms, logs) ->
  validatePublicKey fs s conn' key
  = Some (Ok perms,
          [LogAttempting (User conn') (FingerprintSHA256 key);
           LogAuthSuccess (User conn')]).
Proof.
  unfold validatePublicKey.
  destruct (ReadFile fs (AuthorizedKeysFile (config s))) as [file |];
    [| discriminate].
  destruct (validateLoop (length file) (User conn) (FingerprintSHA256 key)
              file) as [[res logs'] |] eqn:Hloop; [| discriminate].
  intros [= -> _].
  rewrite (validateLoop_user _ _ (User conn') _ _ _ _ Hloop). reflexivity.
Qed.

(** The loop on a file whose [n]-th record is malformed, or that ends
    after [n] records, none of the records before matching. *)
Lemma validateLoop_stops (n : nat) :
  forall (fuel : nat) (user fp : string) (file rest : list byte),
    remainder n file = Some rest ->
    (forall m pk, (m < n)%nat -> entry m file = Some pk ->
                  FingerprintSHA256 pk <> fp) ->
    (n < fuel)%nat ->
    validateLoop fuel user fp file =
    match rest with
    | [] => Some (Err (PublicKeyAuthFailed user), [])
    | _ :: _ =>
        match ParseAuthorizedKey rest with
        | None => Some (Err KeyParseError, [LogErrorParsingKey KeyParseError])
        | Some _ => validateLoop (fuel - n) user fp rest
        end
    end.
Proof.
  induction n as [| n IH]; intros fuel user fp file rest Hrem Hbefore Hfuel.
  - cbn [remainder] in Hrem. injection Hrem as ->.
    destruct rest as [| b bs]; [apply validateLoop_nil |].
    destruct (ParseAuthorizedKey (b :: bs)) as [[pk rest'] |] eqn:Hparse.
    + rewrite Nat.sub_0_r. reflexivity.
    + destruct fuel as [| fuel]; [lia |].
      rewrite validateLoop_cons, Hparse. reflexivity.
  - destruct file as [| b bs]; [discriminate |].
    cbn [remainder] in Hrem.
    destruct (ParseAuthorizedKey (b :: bs)) as [[pk rest'] |] eqn:Hparse;
      [| discriminate].
    destruct fuel as [| fuel]; [lia |].
    rewrite validateLoop_cons, Hparse.
    rewrite bool_decide_eq_false_2.
    + rewrite (IH fuel user fp rest' rest Hrem); [reflexivity | | lia].
      intros m pk' Hm Hentry. apply (Hbefore (S m) pk'); [lia |].
      cbn [entry]. rewrite Hparse. exact Hentry.
    + apply (Hbefore 0%nat pk); [lia |].
      cbn [entry]. rewrite Hparse. reflexivity.
Qed.

(** The loop on a file that ends after [n] records, none matching. *)
Lemma validateLoop_exhausted (n : nat) :
  forall (fuel : nat) (user fp : string) (file : list byte),
    remainder n file = Some [] ->
    (forall m pk, (m < n)%nat -> entry m file = Some pk ->
                  FingerprintSHA256 pk <> fp) ->
    (n <= fuel)%nat ->
    validateLoop fuel user fp file = Some (Err (PublicKeyAuthFailed user), []).
Proof.
  induction n as [| n IH]; intros fuel user fp file Hrem Hbefore Hfuel.
  - cbn [remainder] in Hrem. injection Hrem as ->. apply validateLoop_nil.
  - destruct file as [| b bs]; [discriminate |].
    cbn [remainder] in Hrem.
    destruct (ParseAuthorizedKey (b :: bs)) as [[pk rest'] |] eqn:Hparse;
      [| discriminate].
    destruct fuel as [| fuel]; [lia |].
    rewrite validateLoop_cons, Hparse.
    rewrite bool_decide_eq_false_2.
    + apply (IH fuel user fp rest' Hrem); [| lia].
      intros m pk' Hm Hentry. apply (Hbefore (S m) pk'); [lia |].
      cbn [entry]. rewrite Hparse. exact Hentry.
    + apply (Hbefore 0%nat pk); [lia |].
      cbn [entry]. rewrite Hparse. reflexivity.
Qed.

Section Consuming.

Hypothesis parser_consumes :
  forall (input rest : list byte) (pk : PublicKey),
    ParseAuthorizedKey input = Some (pk, rest) ->
    (length rest < length input)%nat.

Lemma remainder_within_file (n : nat) :
  forall (file rest : list byte),
    remainder n file = Some rest -> (n + length rest <= length file)%nat.
Proof.
  induction n as [| n IH]; intros file rest Hrem; cbn [remainder] in Hrem.
  - injection Hrem as ->. lia.
  - destruct file as [| b bs]; [discriminate |].
    destruct (ParseAuthorizedKey (b :: bs)) as [[pk rest'] |] eqn:Hparse;
      [| discriminate].
    apply parser_consumes in Hparse. apply IH in Hrem. lia.
Qed.

Lemma validateLoop_terminates (fuel : nat) :
  forall (user fp : string) (file : list byte),
    (length file <= fuel)%nat ->
    validateLoop fuel user fp file <> None.
Proof.
  induction fuel as [| fuel IH]; intros user fp file Hfuel;
    destruct file as [| b bs];
    try (rewrite validateLoop_nil; discriminate);
    cbn [length] in Hfuel; try lia.
  rewrite validateLoop_cons.
  destruct (ParseAuthorizedKey (b :: bs)) as [[pk rest] |] eqn:Hparse;
    [| discriminate].
  case_bool_decide; [discriminate |].
  apply IH. apply parser_consumes in Hparse. cbn [length] in Hparse. lia.
Qed.

End Consuming.

End AuthFurther.

Section AuthFurtherResults.

Import Srv AuthFacts Spec Fixtures MoreFixtures.

Lemma validatePublicKey_accepts_only_listed_witness :
  granted "b" = granted (@FingerprintSHA256 ByteKeys x62)
  /\ exists file n pk,
       ReadFile disk (AuthorizedKeysFile (config server)) = Some file
       /\ @entry ByteKeys n file = Some pk
       /\ @FingerprintSHA256 ByteKeys pk = @FingerprintSHA256 ByteKeys x62.
Proof.
  apply (@validatePublicKey_accepts_only_listed ByteKeys nat disk server
           {| User := "alice" |} x62 (granted "b")
           [LogAttempting "alice" "b"; LogAuthSuccess "alice"]).
  reflexivity.
Defined.

Lemma validatePublicKey_ignores_user_witness :
  @validatePublicKey nat ByteKeys disk server {| User := "mallory" |} x62
  = Some (Ok (granted "b"),
          [LogAttempting "mallory" "b"; LogAuthSuccess "mallory"]).
Proof.
  apply (@validatePublicKey_ignores_user ByteKeys nat disk server
           {| User := "alice" |} {| User := "mallory" |} x62 (granted "b")
           [LogAttempting "alice" "b"; LogAuthSuccess "alice"]).
  reflexivity.
Defined.

(** X6: with a parser that consumes its input, an authentication
    attempt always ends: the loop over the trust store returns an
    answer for every file and every key. *)
Theorem validatePublicKey_terminates (H : Type) (lib : SSH)
    (fs : FileSystem) (s : @Server H lib) (conn : ConnMetadata)
    (key : PublicKey) :
  (forall (input rest : list byte) (pk : PublicKey),
     ParseAuthorizedKey input = Some (pk, rest) ->
     (length rest < length input)%nat) ->
  validatePublicKey fs s conn key <> None.
Proof.
  intros Hconsumes. unfold validatePublicKey.
  destruct (ReadFile fs (AuthorizedKeysFile (config s))) as [file |];
    [| discriminate].
  pose proof (validateLoop_terminates Hconsumes (length file) (User conn)
                (FingerprintSHA256 key) file (le_n _)) as Hend.
  destruct (validateLoop _ _ _ _) as [[res logs] |]; [discriminate | tauto].
Qed.

Lemma validatePublicKey_terminates_witness :
  @validatePublicKey nat ByteKeys disk server {| User := "alice" |} x7a
  <> None.
Proof.
  apply (validatePublicKey_terminates nat ByteKeys disk server
           {| User := "alice" |} x7a ByteKeys_consumes).
Defined.

(** X7: which error a refused key gets.  When no record before
    position [n] has the fingerprint of the key and the parser finds no
    key in what is left of the file at position [n], the attempt fails
    with the parser's error if bytes are left there, and with "public
    key authentication failed" for the user if the file ends there.
    ([ssh.ParseAuthorizedKey] passes over blank, comment and malformed
    lines: bytes in which it finds no key are such lines at the end of
    the trust store.) *)
Theorem validatePublicKey_refusal (H : Type) (lib : SSH)
    (fs : FileSystem) (s : @Server H lib) (conn : ConnMetadata)
    (key : PublicKey) (file rest : list byte) (n : nat) :
  (forall (input rest : list byte) (pk : PublicKey),
     ParseAuthorizedKey input = Some (pk, rest) ->
     (length rest < length input)%nat) ->
  ReadFile fs (AuthorizedKeysFile (config s)) = Some file ->
  remainder n file = Some rest ->
  (forall m pk, (m < n)%nat -> entry m file = Some pk ->
                FingerprintSHA256 pk <> FingerprintSHA256 key) ->
  (rest <> [] -> ParseAuthorizedKey rest = None ->
   validatePublicKey fs s conn key
   = Some (Err KeyParseError,
           [LogAttempting (User conn) (FingerprintSHA256 key);
            LogErrorParsingKey KeyParseError]))
  /\ (rest = [] ->
      validatePublicKey fs s conn key
      = Some (Err (PublicKeyAuthFailed (User conn)),
              [LogAttempting (User conn) (FingerprintSHA256 key)])).
Proof.
  intros Hconsumes Hread Hrem Hbefore.
  pose proof (remainder_within_file Hconsumes n file rest Hrem) as Hlen.
  unfold validatePublicKey. rewrite Hread. cbv zeta.
  split.
  - intros Hrest Hbad.
    destruct rest as [| b bs]; [congruence |]. cbn [length] in Hlen.
    rewrite (validateLoop_stops n (length file) _ _ file (b :: bs) Hrem
               Hbefore) by lia.
    rewrite Hbad. reflexivity.
  - intros ->. cbn [length] in Hlen.
    rewrite (validateLoop_exhausted n (length file) _ _ file Hrem Hbefore)
      by lia.
    reflexivity.
Qed.

(** The parser of [LineKeys] consumes its input. *)
Lemma LineKeys_consumes (input rest : list byte) (pk : byte) :
  firstKey input = Some (pk, rest) -> (length rest < length input)%nat.
Proof.
  induction input as [| b input IH]; [discriminate |].
  cbn [firstKey length]. destruct (Byte.eqb b x00).
  - intros Hkey. specialize (IH Hkey). lia.
  - intros [= _ <-]. lia.
Qed.

Lemma validatePublicKey_refusal_witness :
  @validatePublicKey nat LineKeys trailingDisk lineServer
    {| User := "alice" |} x63
  = Some (Err KeyParseError,
          [LogAttempting "alice" "c"; LogErrorParsingKey KeyParseError]).
Proof.
  apply (validatePublicKey_refusal nat LineKeys trailingDisk lineServer
           {| User := "alice" |} x63 [x61; x00; x62; x00; x00] [x00; x00] 2
           LineKeys_consumes eq_refl eq_refl).
  - intros m pk Hm.
    destruct m as [| [| m]]; [| | lia]; cbn; intros Hentry;
      injection Hentry as Hpk; subst pk; discriminate.
  - discriminate.
  - reflexivity.
Defined.

End AuthFurtherResults.

(** ** Server construction *)

Section ConstructionFurther.

Import Srv Fixtures.

Context {H : Type} {lib : SSH}.

(** The log writer opens unless a configured log file does not. *)
Lemma openLogWriter_result (fs : FileSystem) (lw : LogConfig) :
  let failing :=
    Enabled lw = true /\ FilePath lw <> EmptyString
    /\ OpenFile fs (FilePath lw) = false in
  (failing ->
   openLogWriter fs lw
   = (Err (LogFileOpenFailed (OsError (FilePath lw))),
      [SysOpenFile (FilePath lw)]))
  /\ (~ failing ->
      exists logWriter calls,
        openLogWriter fs lw = (Ok logWriter, calls)
        /\ (logWriter = None <-> Enabled lw = false)
        /\ calls = if Enabled lw && negb (bool_decide (FilePath lw = EmptyString))
                   then [SysOpenFile (FilePath lw)] else []).
Proof.
  cbv zeta. unfold openLogWriter.
  destruct (Enabled lw); [| split; [intros (? & _); discriminate |]].
  - case_bool_decide as Hpath; cbn [negb andb].
    + split; [intros (_ & Hne & _); congruence |].
      intros _. do 2 eexists. split; [reflexivity |].
      split; [split; discriminate | reflexivity].
    + destruct (OpenFile fs (FilePath lw)) eqn:Hopen.
      * split; [intros (_ & _ & ?); discriminate |].
        intros _. do 2 eexists. split; [reflexivity |].
        split; [split; discriminate | reflexivity].
      * split; [reflexivity | intros Hnot; exfalso; apply Hnot; auto].
  - intros _. do 2 eexists. split; [reflexivity |].
    split; [tauto | reflexivity].
Qed.

(** The host key loads when its file is read and parses. *)
Lemma loadHostKey_result (fs : FileSystem) (keyFile : string) :
  match ReadFile fs keyFile with
  | Some privateBytes =>
      match ParsePrivateKey privateBytes with
      | Some private =>
          loadHostKey fs keyFile = (Ok private, [SysReadFile keyFile])
      | None =>
          loadHostKey fs keyFile
          = (Err (ParsePrivateKeyFailed KeyParseError), [SysReadFile keyFile])
      end
  | None =>
      loadHostKey fs keyFile
      = (Err (LoadPrivateKeyFailed (OsError keyFile)), [SysReadFile keyFile])
  end.
Proof.
  unfold loadHostKey.
  destruct (ReadFile fs keyFile) as [privateBytes |]; [| reflexivity].
  destruct (ParsePrivateKey privateBytes); reflexivity.
Qed.

(** X8: when construction succeeds.  [NewServer] returns a server
    exactly when validation passes, the log configuration is present,
    the log file (if logging is enabled and a path is set) opens, and,
    with client authentication enabled, the host key file is read and
    parses. *)
Theorem NewServer_succeeds_iff (fs : FileSystem) (c : Config)
    (handler : option H) :
  (exists s calls, @NewServer H lib fs c handler = (Ok s, calls)) <->
  (Validate fs c).1 = None
  /\ (exists lw,
        LogWriter c = Some lw
        /\ (Enabled lw = true -> FilePath lw <> EmptyString ->
            OpenFile fs (FilePath lw) = true))
  /\ (NoClientAuth c = false ->
      exists privateBytes private,
        ReadFile fs (HostKeyFile c) = Some privateBytes
        /\ ParsePrivateKey privateBytes = Some private).
Proof.
  unfold NewServer.
  destruct (Validate fs c) as [verr t1]. cbn [fst].
  destruct verr as [err |].
  { split; [intros (? & ? & Heq); discriminate Heq
           | intros (Heq & _); discriminate Heq]. }
  destruct (LogWriter c) as [lw |].
  2: { split; [intros (? & ? & Heq); discriminate Heq
             | intros (_ & (? & Heq & _) & _); discriminate Heq]. }
  destruct (openLogWriter_result fs lw) as [Hfail Hopen].
  assert (Hdec : (Enabled lw = true -> FilePath lw <> EmptyString ->
                  OpenFile fs (FilePath lw) = true)
                 \/ (Enabled lw = true /\ FilePath lw <> EmptyString
                     /\ OpenFile fs (FilePath lw) = false)).
  { destruct (Enabled lw); [| left; discriminate].
    destruct (decide (FilePath lw = EmptyString)) as [He | Hne];
      [left; congruence |].
    destruct (OpenFile fs (FilePath lw)); [left; reflexivity | right; auto]. }
  destruct Hdec as [Hopens | Hfails].
  2: { rewrite (Hfail Hfails).
       split; [intros (? & ? & Heq); discriminate Heq |].
       intros (_ & (lw' & Heq & Hopens) & _). injection Heq as <-.
       destruct Hfails as (He & Hne & Hno).
       rewrite (Hopens He Hne) in Hno. discriminate. }
  destruct Hopen as (logWriter & t2 & -> & _ & _);
    [intros (He & Hne & Hno); rewrite (Hopens He Hne) in Hno; discriminate |].
  destruct (NoClientAuth c); cbn [negb].
  { split; [| intros _; eauto].
    intros _. split; [reflexivity |].
    split; [exists lw; auto | discriminate]. }
  pose proof (loadHostKey_result fs (HostKeyFile c)) as Hkey.
  destruct (ReadFile fs (HostKeyFile c)) as [privateBytes |] eqn:Hread.
  2: { rewrite Hkey.
       split; [intros (? & ? & Heq); discriminate Heq |].
       intros (_ & _ & Hk).
       destruct (Hk eq_refl) as (? & ? & Heq & _). discriminate Heq. }
  destruct (ParsePrivateKey privateBytes) as [private |] eqn:Hparse;
    rewrite Hkey.
  - split; [| intros _; eauto].
    intros _. split; [reflexivity |].
    split; [exists lw; auto | eauto].
  - split; [intros (? & ? & Heq); discriminate Heq |].
    intros (_ & _ & Hk).
    destruct (Hk eq_refl) as (pb & pk & Heq & Hpk).
    injection Heq as <-. congruence.
Qed.

(** The system calls of [Validate]: the two key files, host key
    first, and only with client authentication enabled. *)
Lemma Validate_calls (fs : FileSystem) (c : Config) :
  (Validate fs c).2 = []
  \/ (NoClientAuth c = false
      /\ ((Validate fs c).2 = [SysStat (HostKeyFile c)]
          \/ (Validate fs c).2
             = [SysStat (HostKeyFile c); SysStat (AuthorizedKeysFile c)])).
Proof.
  unfold Validate.
  destruct (NoClientAuth c); cbn [negb]; repeat case_bool_decide;
    try (left; reflexivity).
  destruct (Stat fs (HostKeyFile c)); cbn [negb]; [| right; auto].
  destruct (Stat fs (AuthorizedKeysFile c)); cbn [negb]; right; auto.
Qed.

(** The stages of [NewServer]: validation, the log writer, the host
    key; each stage runs only if those before it passed, and the calls
    made are those of the stages that ran. *)
Lemma NewServer_stages (fs : FileSystem) (c : Config) (handler : option H) :
  let result := @NewServer H lib fs c handler in
  let t1 := (Validate fs c).2 in
  match (Validate fs c).1 with
  | Some err => result = (Err (InvalidConfiguration err), t1)
  | None =>
      match LogWriter c with
      | None => result = (Panic, t1)
      | Some lw =>
          let t2 := (openLogWriter fs lw).2 in
          match (openLogWriter fs lw).1 with
          | Err e => result = (Err e, t1 ++ t2)
          | Panic => False
          | Ok logWriter =>
              if NoClientAuth c then
                result
                = (Ok {| config := c;
                         sshConfig :=
                           {| scNoClientAuth := true;
                              scHostKeys := [];
                              scPublicKeyCallback := false;
                              scKeyboardInteractiveCallback := false |};
                         cmdHandler := handler;
                         logger := logWriter |}, t1 ++ t2)
              else
                let t3 := [SysReadFile (HostKeyFile c)] in
                match (loadHostKey fs (HostKeyFile c)).1 with
                | Err e => result = (Err (LoadHostKeyFailed e), t1 ++ t2 ++ t3)
                | Panic => False
                | Ok private =>
                    result
                    = (Ok {| config := c;
                             sshConfig :=
                               {| scNoClientAuth := false;
                                  scHostKeys := [private];
                                  scPublicKeyCallback := true;
                                  scKeyboardInteractiveCallback :=
                                    AllowKeyboardInteractive c |};
                             cmdHandler := handler;
                             logger := logWriter |}, t1 ++ t2 ++ t3)
                end
          end
      end
  end.
Proof.
  cbv zeta. unfold NewServer.
  destruct (Validate fs c) as [verr t1]. cbn [fst snd].
  destruct verr as [err |]; [reflexivity |].
  destruct (LogWriter c) as [lw |]; [| reflexivity].
  assert (Hnopanic : (openLogWriter fs lw).1 <> Panic).
  { unfold openLogWriter.
    destruct (Enabled lw); [| discriminate].
    case_bool_decide; cbn [negb]; [discriminate |].
    destruct (OpenFile fs (FilePath lw)); discriminate. }
  destruct (openLogWriter fs lw) as [lres t2]. cbn [fst snd] in *.
  destruct lres as [logWriter | e |]; [| reflexivity | congruence].
  destruct (NoClientAuth c) eqn:Hauth; cbn [negb]; [reflexivity |].
  pose proof (loadHostKey_result fs (HostKeyFile c)) as Hkey.
  destruct (ReadFile fs (HostKeyFile c)) as [privateBytes |];
    [destruct (ParsePrivateKey privateBytes) as [private |] |];
    rewrite Hkey; reflexivity.
Qed.

(** The calls of the log writer stage. *)
Lemma openLogWriter_calls (fs : FileSystem) (lw : LogConfig) :
  (openLogWriter fs lw).2 = []
  \/ (Enabled lw = true /\ FilePath lw <> EmptyString
      /\ (openLogWriter fs lw).2 = [SysOpenFile (FilePath lw)]).
Proof.
  unfold openLogWriter.
  destruct (Enabled lw); [| left; reflexivity].
  case_bool_decide; cbn [negb]; [left; reflexivity |].
  destruct (OpenFile fs (FilePath lw)); right; auto.
Qed.

(** Going through the stages of a given run of [NewServer]. *)
Ltac NewServer_run fs c handler Hnew :=
  let Hst := fresh "Hst" in
  pose proof (NewServer_stages fs c handler) as Hst; cbv zeta in Hst;
  destruct ((Validate fs c).1) eqn:?;
    [rewrite Hst in Hnew |
     destruct (LogWriter c) eqn:?;
       [match type of Hst with
        | context [openLogWriter fs ?lw] =>
            destruct ((openLogWriter fs lw).1) eqn:?;
              [destruct (NoClientAuth c) eqn:?;
                 [rewrite Hst in Hnew |
                  destruct ((loadHostKey fs (HostKeyFile c)).1) eqn:?;
                    [rewrite Hst in Hnew | rewrite Hst in Hnew
                    | destruct Hst]]
              | rewrite Hst in Hnew
              | destruct Hst]
        end
       | rewrite Hst in Hnew]].

(** X9: what a constructed server holds: the configuration and the
    handler it was given; with client authentication enabled, one host
    key and the public-key callback, and the keyboard-interactive
    callback only if the configuration allows it; with client
    authentication disabled, no host key and no callback at all. *)
Theorem NewServer_server_fields (fs : FileSystem) (c : Config)
    (handler : option H) (s : Server) (calls : list syscall) :
  @NewServer H lib fs c handler = (Ok s, calls) ->
  config s = c /\ cmdHandler s = handler
  /\ scNoClientAuth (sshConfig s) = NoClientAuth c
  /\ length (scHostKeys (sshConfig s))
     = (if NoClientAuth c then 0 else 1)%nat
  /\ scPublicKeyCallback (sshConfig s) = negb (NoClientAuth c)
  /\ scKeyboardInteractiveCallback (sshConfig s)
     = negb (NoClientAuth c) && AllowKeyboardInteractive c.
Proof.
  intros Hnew. NewServer_run fs c handler Hnew;
    try discriminate Hnew; injection Hnew as <- _; cbn; auto 10.
Qed.

(** On a configuration that is there, construction panics exactly
    when validation passes and [LogWriter] is nil. *)
Lemma NewServer_panics_on_nil_log (fs : FileSystem) (c : Config)
    (handler : option H) :
  (@NewServer H lib fs c handler).1 = Panic <->
  (Validate fs c).1 = None /\ LogWriter c = None.
Proof.
  split.
  - intros Hpanic.
    destruct (NewServer fs c handler) as [res calls] eqn:Hnew.
    cbn [fst] in Hpanic. subst res.
    NewServer_run fs c handler Hnew; try discriminate Hnew; auto.
  - intros [Hvalid Hnil].
    pose proof (NewServer_stages fs c handler) as Hst. cbv zeta in Hst.
    rewrite Hvalid, Hnil in Hst. rewrite Hst. reflexivity.
Qed.

(** X10: when construction panics.  [NewServer] dereferences a nil
    pointer in exactly two cases: the configuration pointer it is
    given is nil, which [Validate] dereferences before any system
    call; or the configuration passes validation and its [LogWriter]
    is nil.  (The calls into the file system and into the SSH library
    are taken to return.) *)
Theorem NewServer_panics_iff (fs : FileSystem) (config : option Config)
    (handler : option H) :
  (@Ptr.NewServer H lib fs config handler).1 = Panic <->
  config = None
  \/ exists c, config = Some c
               /\ (Validate fs c).1 = None /\ LogWriter c = None.
Proof.
  destruct config as [c |]; cbn [Ptr.NewServer].
  - rewrite NewServer_panics_on_nil_log. split.
    + intros [Hvalid Hnil]. right. exists c. auto.
    + intros [Hnone | (c' & Hsome & Hvalid & Hnil)]; [discriminate |].
      injection Hsome as <-. auto.
  - split; [intros _; left; reflexivity | reflexivity].
Qed.

(** The calls of a run, stage by stage. *)
Lemma NewServer_calls_shape (fs : FileSystem) (c : Config)
    (handler : option H) :
  exists t2 t3,
    (@NewServer H lib fs c handler).2 = (Validate fs c).2 ++ t2 ++ t3
    /\ (t2 = []
        \/ exists lw, LogWriter c = Some lw /\ Enabled lw = true
                      /\ FilePath lw <> EmptyString
                      /\ t2 = [SysOpenFile (FilePath lw)])
    /\ (t3 = []
        \/ (NoClientAuth c = false /\ t3 = [SysReadFile (HostKeyFile c)])).
Proof.
  destruct (NewServer fs c handler) as [res calls] eqn:Hnew. cbn [snd].
  NewServer_run fs c handler Hnew; injection Hnew as <- <-;
    try match goal with
      | E : LogWriter c = Some ?lw |- _ =>
          pose proof (openLogWriter_calls fs lw) as Hl
      end.
  - exists [], []. rewrite !app_nil_r. auto.
  - eexists _, []. rewrite app_nil_r. split; [reflexivity |].
    split; [| auto].
    destruct Hl as [-> | (He & Hp & ->)]; [auto | right; eauto].
  - eexists _, _. split; [reflexivity |].
    split; [| auto].
    destruct Hl as [-> | (He & Hp & ->)]; [auto | right; eauto].
  - eexists _, _. split; [reflexivity |].
    split; [| auto].
    destruct Hl as [-> | (He & Hp & ->)]; [auto | right; eauto].
  - eexists _, []. rewrite app_nil_r. split; [reflexivity |].
    split; [| auto].
    destruct Hl as [-> | (He & Hp & ->)]; [auto | right; eauto].
  - exists [], []. rewrite !app_nil_r. auto.
Qed.

(** X11: what construction touches.  [NewServer] never listens; it
    stats only the two key files and reads only the host key file, and
    neither with client authentication disabled; the authorized-keys
    file is never read; the only file it opens is the configured log
    file, with logging enabled. *)
Theorem NewServer_system_calls (fs : FileSystem) (c : Config)
    (handler : option H) :
  let calls := (@NewServer H lib fs c handler).2 in
  (forall address, SysListen address ∉ calls)
  /\ (forall path, SysStat path ∈ calls ->
        NoClientAuth c = false
        /\ (path = HostKeyFile c \/ path = AuthorizedKeysFile c))
  /\ (forall path, SysReadFile path ∈ calls ->
        NoClientAuth c = false /\ path = HostKeyFile c)
  /\ (forall path, SysOpenFile path ∈ calls ->
        exists lw, LogWriter c = Some lw /\ Enabled lw = true
                   /\ path = FilePath lw /\ path <> EmptyString).
Proof.
  cbv zeta.
  destruct (NewServer_calls_shape fs c handler)
    as (t2 & t3 & -> & Ht2 & Ht3).
  pose proof (Validate_calls fs c) as Hv.
  (split; [| split; [| split]]); intros x Hin;
    destruct Hv as [Hv | (Hauth & [Hv | Hv])]; rewrite Hv in Hin;
    destruct Ht2 as [-> | (lw & Hlw & Hen & Hpath & ->)];
    destruct Ht3 as [-> | (Hauth' & ->)];
    member_cases Hin; eauto 6.
Qed.

End ConstructionFurther.

Section ConstructionResults.

Import Srv Fixtures.

Lemma NewServer_succeeds_iff_witness :
  exists s calls,
    @NewServer nat ByteKeys disk DefaultConfig (Some 0%nat) = (Ok s, calls).
Proof.
  apply (proj2 (@NewServer_succeeds_iff nat ByteKeys disk DefaultConfig
                  (Some 0%nat))).
  split; [reflexivity |]. split.
  - eexists. split; [reflexivity |]. reflexivity.
  - intros _. exists [x6b], tt. split; reflexivity.
Defined.

Lemma NewServer_server_fields_witness :
  config server = DefaultConfig /\ cmdHandler server = Some 0%nat
  /\ scNoClientAuth (sshConfig server) = NoClientAuth DefaultConfig
  /\ length (scHostKeys (sshConfig server))
     = (if NoClientAuth DefaultConfig then 0 else 1)%nat
  /\ scPublicKeyCallback (sshConfig server)
     = negb (NoClientAuth DefaultConfig)
  /\ scKeyboardInteractiveCallback (sshConfig server)
     = negb (NoClientAuth DefaultConfig)
       && AllowKeyboardInteractive DefaultConfig.
Proof.
  apply (@NewServer_server_fields nat ByteKeys disk DefaultConfig
           (Some 0%nat) server
           [SysStat "server_key"; SysStat "authorized_keys";
            SysOpenFile "ssh_server.log"; SysReadFile "server_key"]).
  reflexivity.
Defined.

Lemma NewServer_panics_iff_witness :
  (@Ptr.NewServer nat ByteKeys emptyDisk None (Some 0%nat)).1 = Panic
  /\ (@Ptr.NewServer nat ByteKeys emptyDisk
        (Some {| ListenAddress := ":2222"; HostKeyFile := EmptyString;
                 AuthorizedKeysFile := EmptyString; NoClientAuth := true;
                 AllowKeyboardInteractive := false; LogWriter := None |})
        (Some 0%nat)).1 = Panic.
Proof.
  split.
  - apply (proj2 (@NewServer_panics_iff nat ByteKeys emptyDisk None
                    (Some 0%nat))).
    left. reflexivity.
  - apply (proj2 (@NewServer_panics_iff nat ByteKeys emptyDisk _
                    (Some 0%nat))).
    right. eexists. split; [reflexivity |]. split; reflexivity.
Defined.

Lemma NewServer_system_calls_witness :
  NoClientAuth DefaultConfig = false
  /\ "server_key"%string = HostKeyFile DefaultConfig.
Proof.
  apply (proj1 (proj2 (proj2 (@NewServer_system_calls nat ByteKeys disk
                                DefaultConfig (Some 0%nat))))).
  apply list_elem_of_In. vm_compute. auto 6.
Defined.

End ConstructionResults.

(** ** Path resolution *)

Section PathsFurther.

Import Paths MoreFixtures.

(** X12: what [ResolvePath] returns: an absolute path unchanged; for a
    relative path, the path joined to the working directory or to the
    directory of the executable, and then only if that file exists,
    the working directory first; otherwise the path as it was given. *)
Theorem ResolvePath_result (lib : PathLib) (proc : Process)
    (fs : FileSystem) (path : string) :
  let resolved := ResolvePath lib proc fs path in
  (IsAbs lib path = true -> resolved = path)
  /\ (resolved = path
      \/ (IsAbs lib path = false /\ Stat fs resolved = true
          /\ ((exists cwd, Getwd proc = Some cwd
                           /\ resolved = Join lib cwd path)
              \/ (exists exe, Executable proc = Some exe
                              /\ resolved = Join lib (Dir lib exe) path))))
  /\ (forall cwd,
        IsAbs lib path = false -> Getwd proc = Some cwd ->
        Stat fs (Join lib cwd path) = true ->
        resolved = Join lib cwd path)
  /\ (forall exe,
        IsAbs lib path = false -> Executable proc = Some exe ->
        Stat fs (Join lib (Dir lib exe) path) = true ->
        (forall cwd, Getwd proc = Some cwd ->
           Stat fs (Join lib cwd path) = false) ->
        resolved = Join lib (Dir lib exe) path).
Proof.
  cbv zeta. unfold ResolvePath.
  destruct (IsAbs lib path).
  { split; [auto |]. split; [auto |]. split; discriminate. }
  split; [discriminate |].
  split; [| split].
  - destruct (Getwd proc) as [cwd |].
    + destruct (Stat fs (Join lib cwd path)) eqn:Hcwd; [right; eauto 8 |].
      destruct (Executable proc) as [exe |]; [| left; reflexivity].
      destruct (Stat fs (Join lib (Dir lib exe) path)) eqn:Hexe;
        [right; eauto 8 | left; reflexivity].
    + destruct (Executable proc) as [exe |]; [| left; reflexivity].
      destruct (Stat fs (Join lib (Dir lib exe) path)) eqn:Hexe;
        [right; eauto 8 | left; reflexivity].
  - intros cwd _ -> ->. reflexivity.
  - intros exe _ -> Hexe Hcwd. rewrite Hexe.
    destruct (Getwd proc) as [cwd |]; [| reflexivity].
    rewrite (Hcwd cwd eq_refl). reflexivity.
Qed.

Lemma ResolvePath_result_witness :
  ResolvePath slashPaths process installDisk "server_key"
  = "/opt/gosh/server_key"%string.
Proof.
  apply (proj2 (proj2 (proj2 (ResolvePath_result slashPaths process
                                installDisk "server_key")))
           "/opt/gosh/server"%string eq_refl eq_refl eq_refl).
  intros cwd [= <-]. reflexivity.
Defined.

End PathsFurther.

(** ** The default command handler *)

Section DefaultHandlerFurther.

Import DefaultHandler MoreFixtures.

Variable World : Type.
Variable TrimSpace : string -> string.

(** X14: the status of [Execute] is 0 or 1; it is 0 exactly when the
    input is blank or names a registered function that returns no
    error; and unless a registered function runs, the world is left as
    it was. *)
Theorem Execute_status (h : DefaultCommandHandler World) (w : World) (cmd : string) :
  let result := DefaultHandler.Execute World TrimSpace h w cmd in
  (result.1.2 = 0 \/ result.1.2 = 1)
  /\ (result.1.2 = 0 <->
      TrimSpace cmd = EmptyString
      \/ exists f, commands World h !! TrimSpace cmd = Some f
                   /\ (f w).1.2 = None)
  /\ (TrimSpace cmd = EmptyString \/ commands World h !! TrimSpace cmd = None ->
      result.2 = w).
Proof.
  cbv zeta. unfold DefaultHandler.Execute.
  case_bool_decide as Hblank.
  - cbn. split; [auto |]. split; [tauto | auto].
  - destruct (commands World h !! TrimSpace cmd) as [f |] eqn:Hf.
    + destruct (f w) as [[output err] w'] eqn:Hrun.
      destruct err as [e |]; cbn.
      * split; [auto |]. split; [| intros [? | ?]; congruence].
        split; [discriminate |].
        intros [? | (f' & Hf' & Herr)]; [congruence |].
        injection Hf' as <-. rewrite Hrun in Herr. discriminate.
      * split; [auto |]. split; [| intros [? | ?]; congruence].
        split; [| reflexivity].
        intros _. right. exists f. rewrite Hrun. auto.
    + cbn. split; [auto |]. split; [| auto].
      split; [discriminate |].
      intros [? | (f' & Hf' & _)]; congruence.
Qed.

End DefaultHandlerFurther.

Section DefaultHandlerResults.

Import DefaultHandler MoreFixtures.

Import Stdlib.Strings.Ascii.

Lemma trimLeft_cons (a : ascii) (l : list ascii) :
  trimLeft (a :: l) = if Ascii.eqb a " " then trimLeft l else a :: l.
Proof.
  destruct a as [[] [] [] [] [] [] [] []]; reflexivity.
Qed.

(** What is left after trimming starts with no blank. *)
Lemma trimLeft_head (l : list ascii) :
  match trimLeft l with
  | [] => True
  | a :: _ => Ascii.eqb a " " = false
  end.
Proof.
  induction l as [| a l IH]; [exact I |].
  rewrite trimLeft_cons. destruct (Ascii.eqb a " ") eqn:Ha; [exact IH | exact Ha].
Qed.

Lemma trimLeft_snoc (l : list ascii) (a : ascii) :
  Ascii.eqb a " " = false -> exists l', trimLeft (l ++ [a]) = l' ++ [a].
Proof.
  intros Ha. induction l as [| b l IH].
  - exists []. cbn [app]. rewrite trimLeft_cons, Ha. reflexivity.
  - cbn [app]. rewrite trimLeft_cons.
    destruct (Ascii.eqb b " "); [exact IH | exists (b :: l); reflexivity].
Qed.

Lemma trimLeft_twice (l : list ascii) : trimLeft (trimLeft l) = trimLeft l.
Proof.
  pose proof (trimLeft_head l) as Hhead.
  destruct (trimLeft l) as [| a rest]; [reflexivity |].
  rewrite trimLeft_cons, Hhead. reflexivity.
Qed.

Lemma trimBlanks_twice (s : string) :
  trimBlanks (trimBlanks s) = trimBlanks s.
Proof.
  unfold trimBlanks. rewrite list_ascii_of_string_of_list_ascii.
  f_equal.
  pose proof (trimLeft_head (list_ascii_of_string s)) as Hhead.
  destruct (trimLeft (list_ascii_of_string s)) as [| a rest];
    [reflexivity |].
  unfold trimRight at 2 3. cbn [rev].
  destruct (trimLeft_snoc (rev rest) a Hhead) as [kept Hkept].
  rewrite Hkept, rev_app_distr. cbn [rev app].
  rewrite trimLeft_cons, Hhead.
  unfold trimRight. cbn [rev]. rewrite rev_involutive.
  rewrite <- Hkept, trimLeft_twice, Hkept.
  rewrite rev_app_distr. reflexivity.
Qed.


Lemma Execute_status_witness :
  (DefaultHandler.Execute nat trimBlanks registry 7%nat "probe").1.2 = 0 <->
  trimBlanks "probe" = EmptyString
  \/ exists f, commands nat registry !! trimBlanks "probe" = Some f
               /\ (f 7%nat).1.2 = None.
Proof.
  apply (proj1 (proj2 (Execute_status nat trimBlanks registry 7%nat
                         "probe"))).
Defined.

End DefaultHandlerResults.

(** ** The default command handler and its closures *)

Section ClosuresFurther.

Import Closures.

Variable Code : Type.
Variable World : Type.
Variable TrimSpace : string -> string.
Variable call :
  Code -> Heap Code World -> option (string * option string * Heap Code World).

(** A registration leaves the rest of the store alone. *)
Lemma RegisterCommand_result (h h1 : Heap Code World) (name : string)
    (f : Code) :
  RegisterCommand name f h = Some h1 ->
  exists table,
    commands h = Some table
    /\ h1 = withCommands (Some (<[name := f]> table)) h.
Proof.
  unfold RegisterCommand.
  destruct (commands h) as [table |]; [| discriminate].
  intros [= <-]. exists table. split; reflexivity.
Qed.

(** What [Execute] makes of a call on another table, for a function
    that does not look at the table. *)
Lemma answer_on_table (g : Code) (h : Heap Code World)
    (table : option (gmap string Code)) :
  tableBlind call g ->
  match call g (withCommands table h) with
  | Some r => Some (answer r)
  | None => None
  end
  = onTable table match call g h with
                  | Some r => Some (answer r)
                  | None => None
                  end.
Proof.
  intros Hblind. rewrite (Hblind h table).
  destruct (call g h) as [[[output err] h'] |]; [| reflexivity].
  destruct err; reflexivity.
Qed.

(** An input that does not reach the name just registered. *)
Lemma Execute_elsewhere (h h1 : Heap Code World) (name cmd : string)
    (f : Code) :
  RegisterCommand name f h = Some h1 ->
  TrimSpace cmd = EmptyString \/ TrimSpace cmd <> name ->
  (forall g, registered h (TrimSpace cmd) = Some g -> tableBlind call g) ->
  Execute TrimSpace call h1 cmd
  = onTable (commands h1) (Execute TrimSpace call h cmd).
Proof.
  intros Hreg Hcmd Hblind.
  apply RegisterCommand_result in Hreg as (table & Htable & ->).
  unfold Execute. case_bool_decide as Hblank; [reflexivity |].
  destruct Hcmd as [Hempty | Hother]; [contradiction |].
  assert (Hsame : registered (withCommands (Some (<[name := f]> table)) h)
                    (TrimSpace cmd)
                  = registered h (TrimSpace cmd)).
  { unfold registered. rewrite Htable. cbn [commands withCommands].
    apply lookup_insert_ne. congruence. }
  rewrite Hsame.
  destruct (registered h (TrimSpace cmd)) as [g |] eqn:Hg; [| reflexivity].
  apply answer_on_table. apply Hblind. reflexivity.
Qed.

(** X13: registering then executing.  After [RegisterCommand name f]
    with a name that is not empty, every input that trims to [name]
    calls [f], whatever was registered under that name before, and
    answers its output with status 0, or "Error: " and its error with
    status 1.  Every other input is answered as before, with the same
    effect on the rest of the store, provided the function it names
    does not look at the command table; a function that does (the
    package's [help]) sees the new name. *)
Theorem RegisterCommand_then_Execute (h h1 : Heap Code World)
    (name cmd : string) (f : Code) :
  name <> EmptyString ->
  RegisterCommand name f h = Some h1 ->
  (TrimSpace cmd = name ->
   Execute TrimSpace call h1 cmd
   = match call f h1 with
     | Some r => Some (answer r)
     | None => None
     end)
  /\ (TrimSpace cmd <> name ->
      (forall g, registered h (TrimSpace cmd) = Some g ->
                 tableBlind call g) ->
      Execute TrimSpace call h1 cmd
      = onTable (commands h1) (Execute TrimSpace call h cmd)).
Proof.
  intros Hname Hreg. split.
  - intros Htrim.
    apply RegisterCommand_result in Hreg as (table & Htable & ->).
    unfold Execute. rewrite Htrim.
    rewrite bool_decide_eq_false_2 by exact Hname.
    unfold registered. cbn [commands withCommands].
    rewrite lookup_insert_eq. reflexivity.
  - intros Hother Hblind.
    apply (Execute_elsewhere h h1 name cmd f Hreg); [right |]; assumption.
Qed.

(** X15: names that can never be typed.  [Execute] looks up the
    trimmed input and skips the empty one, so a function registered
    under the empty name, or under a name that trimming changes, is
    never called by it: every input is answered as before the
    registration, with the same effect on the rest of the store,
    provided the function it names does not look at the command
    table. *)
Theorem RegisterCommand_unreachable_name (h h1 : Heap Code World)
    (name cmd : string) (f : Code) :
  (forall s, TrimSpace (TrimSpace s) = TrimSpace s) ->
  name = EmptyString \/ TrimSpace name <> name ->
  RegisterCommand name f h = Some h1 ->
  (forall g, registered h (TrimSpace cmd) = Some g -> tableBlind call g) ->
  Execute TrimSpace call h1 cmd
  = onTable (commands h1) (Execute TrimSpace call h cmd).
Proof.
  intros Hidem Hname Hreg Hblind.
  apply (Execute_elsewhere h h1 name cmd f Hreg); [| exact Hblind].
  destruct (decide (TrimSpace cmd = name)) as [Heq | Hne]; [| right; exact Hne].
  destruct Hname as [-> | Hchanged]; [left; exact Heq |].
  exfalso. apply Hchanged. rewrite <- Heq. apply Hidem.
Qed.

End ClosuresFurther.

(** The two models of [Execute] agree on functions that run on the
    world alone. *)
Lemma Execute_plainCall (World : Type) (TrimSpace : string -> string)
    (table : gmap string (DefaultHandler.commandFunc World)) (w : World)
    (cmd : string) :
  Closures.Execute TrimSpace Closures.plainCall
    {| Closures.commands := Some table; Closures.world := w |} cmd
  = let '(output, status, w') :=
      DefaultHandler.Execute World TrimSpace
        {| DefaultHandler.commands := table |} w cmd in
    Some (output, status,
          {| Closures.commands := Some table; Closures.world := w' |}).
Proof.
  unfold Closures.Execute, DefaultHandler.Execute, Closures.registered.
  cbn [Closures.commands DefaultHandler.commands].
  case_bool_decide as Hblank; [reflexivity |].
  destruct (table !! TrimSpace cmd) as [f |]; [| reflexivity].
  unfold Closures.plainCall. cbn [Closures.world Closures.commands].
  destruct (f w) as [[output err] w']. destruct err; reflexivity.
Qed.

Section ClosuresResults.

Import Closures MoreFixtures.

(** [Hello] does not look at the command table. *)
Lemma Hello_tableBlind : tableBlind behaviour Hello.
Proof. intros h table. reflexivity. Qed.

(** [Count] does: after a registration, even under a name that cannot
    be typed, it answers otherwise. *)
Example Count_sees_registration :
  fst <$> Execute trimBlanks behaviour store "help" = Some ("2"%string, 0)
  /\ fst <$> Execute trimBlanks behaviour
               (withCommands
                  (Some (<[" hello"%string := Nil]>
                           (<["help"%string := Count]>
                              (<["hello"%string := Hello]> ∅)))) store)
               "help"
     = Some ("3"%string, 0).
Proof.
  split; vm_compute; reflexivity.
Qed.

Lemma RegisterCommand_then_Execute_witness :
  exists h1,
    RegisterCommand "probe" Probe store = Some h1
    /\ Execute trimBlanks behaviour h1 " probe "
       = match behaviour Probe h1 with
         | Some r => Some (answer r)
         | None => None
         end
    /\ Execute trimBlanks behaviour h1 "hello"
       = onTable (commands h1) (Execute trimBlanks behaviour store "hello").
Proof.
  eexists. split; [reflexivity |]. split.
  - apply (proj1 (RegisterCommand_then_Execute code nat trimBlanks behaviour
                    store _ "probe" " probe " Probe ltac:(discriminate)
                    eq_refl)).
    reflexivity.
  - apply (proj2 (RegisterCommand_then_Execute code nat trimBlanks behaviour
                    store _ "probe" "hello" Probe ltac:(discriminate)
                    eq_refl)).
    + intros Hsame. vm_compute in Hsame. discriminate Hsame.
    + intros g Hg. vm_compute in Hg. injection Hg as <-.
      exact Hello_tableBlind.
Defined.

Lemma RegisterCommand_unreachable_name_witness :
  exists h1,
    RegisterCommand " hello" Nil store = Some h1
    /\ Execute trimBlanks behaviour h1 " hello"
       = onTable (commands h1) (Execute trimBlanks behaviour store " hello").
Proof.
  eexists. split; [reflexivity |].
  apply (RegisterCommand_unreachable_name code nat trimBlanks behaviour
           store _ " hello" " hello" Nil trimBlanks_twice).
  - right. discriminate.
  - reflexivity.
  - intros g Hg. vm_compute in Hg. injection Hg as <-.
    exact Hello_tableBlind.
Defined.

End ClosuresResults.

(** ** Channel router *)

Section RouterFurther.

Import Codec CodecFacts Srv RouterFacts Spec Fixtures.

Context {H : Type} {CH : CommandHandler H}.

Lemma replies_app (evs evs' : list event) :
  replies (evs ++ evs') = replies evs ++ replies evs'.
Proof. unfold replies. apply omap_app. Qed.

Lemma shellsStarted_app (evs evs' : list event) :
  shellsStarted (evs ++ evs') = (shellsStarted evs + shellsStarted evs')%nat.
Proof. unfold shellsStarted. rewrite omap_app, length_app. reflexivity. Qed.

(** One turn on a quiet request. *)
Lemma handleRequest_quiet (h : option H) (req : Request) :
  quiet h req ->
  exists evs,
    handleRequest h req = (evs, h, true)
    /\ replies evs = [acknowledged req]
    /\ executed evs = []
    /\ shellsStarted evs
       = (if bool_decide (Type_ req = "shell"%string)
          then match h with Some _ => 1 | None => 0 end else 0)%nat
    /\ (h = None -> forall data, EvWrite data ∉ evs).
Proof.
  intros Hquiet. unfold handleRequest, acknowledged.
  case_bool_decide as Hpty.
  { rewrite bool_decide_eq_false_2 by (rewrite Hpty; discriminate).
    eexists. split; [reflexivity |]. repeat split.
    intros _ data Hin. member_cases Hin. }
  case_bool_decide as Hshell.
  { destruct h as [hs |]; eexists; (split; [reflexivity |]); repeat split;
      try discriminate.
    intros _ data Hin. member_cases Hin. }
  case_bool_decide as Hexec.
  - destruct h as [hs |].
    + destruct Hquiet as [Hnil | Herr]; [discriminate |].
      specialize (Herr Hexec).
      destruct (parseExecPayload (Payload req)) as [? | e |];
        try discriminate.
      eexists. split; [reflexivity |]. repeat split. discriminate.
    + eexists. split; [reflexivity |]. repeat split.
      intros _ data Hin. member_cases Hin.
  - eexists. split; [reflexivity |]. repeat split.
    intros _ data Hin. member_cases Hin.
Qed.

(** The loop over quiet requests. *)
Lemma handleRequests_quiet (h : option H) (requests : list Request) :
  (forall req, req ∈ requests -> quiet h req) ->
  exists evs,
    handleRequests h requests = (evs, h)
    /\ replies evs = map acknowledged requests
    /\ executed evs = []
    /\ shellsStarted evs
       = match h with
         | Some _ =>
             length (filter (fun req => Type_ req = "shell"%string) requests)
         | None => 0%nat
         end
    /\ (h = None -> forall data, EvWrite data ∉ evs).
Proof.
  induction requests as [| req later IH]; intros Hquiet.
  - exists []. repeat split; [destruct h; reflexivity |].
    intros _ data Hin. member_cases Hin.
  - destruct (handleRequest_quiet h req (Hquiet req (list_elem_of_here _ _)))
      as (evs & Hreq & Hreplies & Hexec & Hshells & Hwrites).
    destruct (IH (fun r Hr => Hquiet r (list_elem_of_further _ _ _ Hr)))
      as (evs' & Hlater & Hreplies' & Hexec' & Hshells' & Hwrites').
    exists (evs ++ evs').
    rewrite handleRequests_cons, Hreq, Hlater.
    rewrite replies_app, executed_app, shellsStarted_app.
    rewrite Hreplies, Hreplies', Hexec, Hexec', Hshells, Hshells'.
    repeat split.
    + rewrite filter_cons. destruct h as [hs |].
      * case_bool_decide as Hshell; destruct (decide _); cbn [length];
          congruence || lia.
      * case_bool_decide; reflexivity.
    + intros Hnil data Hin. apply elem_of_app in Hin as [Hin | Hin].
      * exact (Hwrites Hnil data Hin).
      * exact (Hwrites' Hnil data Hin).
Qed.


(** X17: a server without a handler runs nothing: it executes no
    command, starts no line editor and writes nothing to the channel,
    and yet acknowledges a shell request. *)
Theorem handleChannel_without_handler (requests : list Request) :
  let evs := (@handleChannel H CH None requests).1 in
  executed evs = [] /\ shellsStarted evs = 0%nat
  /\ (forall data, EvWrite data ∉ evs)
  /\ replies evs = map acknowledged requests.
Proof.
  cbv zeta.
  destruct (handleRequests_quiet None requests
              (fun _ _ => or_introl eq_refl))
    as (evs & Hrun & Hreplies & Hexec & Hshells & Hwrites).
  unfold handleChannel. rewrite Hrun. cbn [fst].
  rewrite replies_app, executed_app, shellsStarted_app.
  rewrite Hreplies, Hexec, Hshells. cbn. rewrite app_nil_r.
  repeat split.
  intros data Hin. apply elem_of_app in Hin as [Hin | Hin].
  - exact (Hwrites eq_refl data Hin).
  - member_cases Hin.
Qed.


(** X19: an exec request end to end.  For a non-empty command of
    fewer than [2^32 - 4] bytes sent in the exec wire format, the
    router runs exactly that command, writes its output and a line
    feed, replies positively, sends the command's status as exit
    status and closes the channel, in this order. *)
Theorem handleChannel_exec_end_to_end (hs : H) (command : string)
    (wantReply : bool) :
  0 < strlen command -> strlen command < 2 ^ 32 - 4 ->
  handleChannel (Some hs)
    [{| Type_ := "exec"; WantReply := wantReply;
        Payload := encodeExecPayload command |}]
  = ([EvLog (LogChannelRequest "exec"); EvExecute command;
      EvWrite (list_byte_of_string ((Execute hs command).1.1 ++ LF));
      EvReply true; EvExitStatus (Execute hs command).1.2; EvClose],
     Some (Execute hs command).2).
Proof.
  intros Hpos Hsmall.
  unfold handleChannel. rewrite handleRequests_cons.
  rewrite (handleRequest_exec_decoded hs
             {| Type_ := "exec"; WantReply := wantReply;
                Payload := encodeExecPayload command |} command eq_refl)
    by (apply encodeExecPayload_decodes; lia).
  destruct (Execute hs command) as [[output status] hs']. reflexivity.
Qed.

(** The handler after one turn. *)
Lemma handleRequest_handler (h : option H) (req : Request) :
  (handleRequest h req).1.2
  = match h with
    | Some hs => Some (after hs (executed (handleRequest h req).1.1))
    | None => None
    end.
Proof.
  unfold handleRequest.
  repeat case_bool_decide; destruct h as [hs |]; try reflexivity.
  destruct (parseExecPayload (Payload req)) as [command | e |];
    try reflexivity.
  destruct (Execute hs command) as [[output status] hs'] eqn:Hrun.
  cbn. rewrite Hrun. reflexivity.
Qed.

(** X20: the router changes the handler only through [Execute]: the
    handler it leaves is the one it was given after the commands it
    executed. *)
Theorem handleChannel_handler (h : option H) (requests : list Request) :
  (handleChannel h requests).2
  = match h with
    | Some hs => Some (after hs (executed (handleChannel h requests).1))
    | None => None
    end.
Proof.
  rewrite handleChannel_trace, executed_app. cbn [executed omap].
  rewrite app_nil_r.
  replace (handleChannel h requests).2 with (handleRequests h requests).2
    by (unfold handleChannel; destruct (handleRequests h requests);
        reflexivity).
  revert h. induction requests as [| req later IH]; intros h.
  - destruct h; reflexivity.
  - rewrite handleRequests_cons.
    pose proof (handleRequest_handler h req) as Hone.
    destruct (handleRequest h req) as [[evs h'] continue] eqn:Hreq.
    cbn [fst snd] in Hone.
    destruct continue; [| exact Hone].
    apply handleRequest_continue in Hreq as [Hnone ->].
    specialize (IH h).
    destruct (handleRequests h later) as [evs' h''].
    cbn [fst snd] in *. rewrite executed_app, Hnone. exact IH.
Qed.

End RouterFurther.

Section RouterResults.

Import Codec Srv Spec Fixtures.



Lemma handleChannel_exec_end_to_end_witness :
  @handleChannel nat Counting (Some 0%nat)
    [{| Type_ := "exec"; WantReply := true;
        Payload := encodeExecPayload "uptime" |}]
  = ([EvLog (LogChannelRequest "exec"); EvExecute "uptime";
      EvWrite (list_byte_of_string ("uptime" ++ LF));
      EvReply true; EvExitStatus 0; EvClose],
     Some 1%nat).
Proof.
  apply (@handleChannel_exec_end_to_end nat Counting 0%nat "uptime" true);
    reflexivity.
Defined.

End RouterResults.

(** ** Line editor *)

Section ShellFurther.

Import Srv RouterFacts ShellFacts Spec Fixtures.

Context {H : Type} {CH : CommandHandler H}.

Lemma plain_spec (b : byte) :
  plain b = true <->
  Byte.eqb b x0d = false /\ Byte.eqb b x0a = false
  /\ Byte.eqb b x7f = false /\ Byte.eqb b x08 = false.
Proof.
  unfold plain.
  destruct (Byte.eqb b x0d), (Byte.eqb b x0a), (Byte.eqb b x7f),
    (Byte.eqb b x08); cbn; intuition discriminate.
Qed.

Lemma editor_eta (st : @editor H) :
  {| cmdBuffer := cmdBuffer st; handler := handler st |} = st.
Proof. destruct st. reflexivity. Qed.

(** Typing plain bytes appends and echoes them. *)
Lemma shellBytes_plain (data : list byte) :
  forall st : @editor H,
    Forall (fun b => plain b = true) data ->
    shellBytes data st
    = ({| cmdBuffer := cmdBuffer st ++ data; handler := handler st |},
       echo data).
Proof.
  induction data as [| b data IH]; intros st Hplain.
  - cbn. rewrite app_nil_r, editor_eta. reflexivity.
  - apply Forall_cons in Hplain as [Hb Hdata].
    apply plain_spec in Hb as (H1 & H2 & H3 & H4).
    cbn [shellBytes]. rewrite shellByte_plain by assumption.
    rewrite (IH _ Hdata). cbn [cmdBuffer handler].
    rewrite <- app_assoc. reflexivity.
Qed.

Lemma executed_echo (data : list byte) : executed (echo data) = [].
Proof. induction data as [| b data IH]; [reflexivity | exact IH]. Qed.

(** A line end on a buffer that is not empty. *)
Lemma shellByte_line_end (b : byte) (st : @editor H) :
  b = x0d \/ b = x0a -> cmdBuffer st <> [] ->
  shellByte b st
  = (let cmd := string_of_list_byte (cmdBuffer st) in
     ({| cmdBuffer := []; handler := (Execute (handler st) cmd).2 |},
      [EvExecute cmd;
       EvWrite (list_byte_of_string
                  (CRLF ++ (Execute (handler st) cmd).1.1 ++ CRLF
                   ++ GetPrompt (Execute (handler st) cmd).2))])).
Proof.
  intros Hb Hbuf. unfold shellByte.
  assert (Hlen : len (cmdBuffer st) > 0).
  { unfold len. destruct (cmdBuffer st); [congruence | cbn [length]; lia]. }
  destruct Hb as [-> | ->]; cbn [Byte.eqb orb];
    rewrite bool_decide_eq_true_2 by exact Hlen; cbv zeta;
    destruct (Execute (handler st) (string_of_list_byte (cmdBuffer st)))
      as [[output status] h']; reflexivity.
Qed.

(** A line end on the empty buffer. *)
Lemma shellByte_empty_line (b : byte) (h : H) :
  b = x0d \/ b = x0a ->
  shellByte b {| cmdBuffer := []; handler := h |}
  = ({| cmdBuffer := []; handler := h |},
     [EvWrite (list_byte_of_string (CRLF ++ GetPrompt h))]).
Proof. intros [-> | ->]; reflexivity. Qed.

(** X21: a typed line is run as typed.  From the empty buffer, any
    non-empty line of plain bytes followed by a carriage return or a
    line feed is echoed byte by byte and then handed to [Execute] as
    one command, exactly the bytes typed; the buffer is empty again
    and the handler is as the command left it. *)
Theorem line_editor_runs_typed_line (h : H) (line : list byte)
    (terminator : byte) :
  Forall (fun b => plain b = true) line -> line <> [] ->
  terminator = x0d \/ terminator = x0a ->
  let cmd := string_of_list_byte line in
  shellBytes (line ++ [terminator]) {| cmdBuffer := []; handler := h |}
  = ({| cmdBuffer := []; handler := (Execute h cmd).2 |},
     echo line
       ++ [EvExecute cmd;
           EvWrite (list_byte_of_string
                      (CRLF ++ (Execute h cmd).1.1 ++ CRLF
                       ++ GetPrompt (Execute h cmd).2))]).
Proof.
  intros Hplain Hline Hterm. cbv zeta.
  rewrite shellBytes_app, (shellBytes_plain line _ Hplain).
  cbn [cmdBuffer handler app shellBytes].
  rewrite (shellByte_line_end terminator _ Hterm) by exact Hline.
  cbn [cmdBuffer handler]. rewrite app_nil_r. reflexivity.
Qed.

(** Typed lines, from the empty buffer. *)
Lemma shellBytes_typed (lines : list (list byte)) :
  forall h : H,
    Forall (Forall (fun b => plain b = true)) lines ->
    exists evs,
      shellBytes (typed lines) {| cmdBuffer := []; handler := h |}
      = ({| cmdBuffer := []; handler := after h (commandsOf lines) |}, evs)
      /\ executed evs = commandsOf lines.
Proof.
  induction lines as [| line lines IH]; intros h Hplain.
  - exists []. split; reflexivity.
  - apply Forall_cons in Hplain as [Hline Hlines].
    unfold typed. cbn [map concat]. fold (typed lines).
    rewrite !shellBytes_app, (shellBytes_plain line _ Hline).
    cbn [cmdBuffer handler app shellBytes].
    destruct line as [| b line].
    + rewrite (shellByte_empty_line x0d h (or_introl eq_refl)).
      destruct (IH h Hlines) as (evs & -> & Hexec).
      eexists. split; [reflexivity |].
      rewrite !executed_app, Hexec. reflexivity.
    + rewrite (shellByte_line_end x0d _ (or_introl eq_refl))
        by discriminate.
      cbv zeta. cbn [cmdBuffer handler].
      destruct (IH (Execute h (string_of_list_byte (b :: line))).2 Hlines)
        as (evs & -> & Hexec).
      eexists. split; [reflexivity |].
      rewrite !executed_app, executed_echo, Hexec. reflexivity.
Qed.

(** X22: a session of typed lines.  When the channel delivers, cut
    into reads in any way, lines of plain bytes each ended by a
    carriage return, the line editor executes exactly the non-empty
    lines, in order, one command per line; the buffer ends empty and
    the handler is the given one after these commands. *)
Theorem line_editor_runs_lines (h : H) (lines chunks : list (list byte))
    (ending : list read) :
  Forall (Forall (fun b => plain b = true)) lines ->
  concat chunks = typed lines ->
  ending = [] \/ (exists eof, ending = [ReadError eof]) ->
  let result := handleShell h (map ReadBytes chunks ++ ending) in
  executed result.1.2 = commandsOf lines
  /\ cmdBuffer result.1.1 = []
  /\ handler result.1.1 = after h (commandsOf lines).
Proof.
  intros Hplain Hstream Hending. cbv zeta.
  unfold handleShell. rewrite shellLoop_chunks, Hstream.
  destruct (shellBytes_typed lines h Hplain) as (evs & -> & Hexec).
  destruct Hending as [-> | [eof ->]]; cbn [shellLoop];
    [| destruct eof]; cbn [fst snd cmdBuffer handler];
    (split; [| auto]);
    change (executed (?e :: ?l)) with (executed l);
    rewrite !executed_app, Hexec; cbn; rewrite ?app_nil_r; reflexivity.
Qed.

(** The handler after the events of one byte. *)
Lemma shellByte_handler (b : byte) (st : @editor H) :
  handler (shellByte b st).1
  = after (handler st) (executed (shellByte b st).2).
Proof.
  unfold shellByte.
  destruct (Byte.eqb b x0d || Byte.eqb b x0a).
  - case_bool_decide; [| reflexivity].
    destruct (Execute (handler st) (string_of_list_byte (cmdBuffer st)))
      as [[output status] h'] eqn:Hrun.
    cbn. rewrite Hrun. reflexivity.
  - destruct (Byte.eqb b x7f || Byte.eqb b x08); [| reflexivity].
    case_bool_decide; reflexivity.
Qed.

Lemma after_app (h : H) (cmds cmds' : list string) :
  after h (cmds ++ cmds') = after (after h cmds) cmds'.
Proof.
  revert h. induction cmds as [| cmd cmds IH]; intros h; [reflexivity |].
  cbn [app after]. apply IH.
Qed.

Lemma shellBytes_handler (data : list byte) :
  forall st : @editor H,
    handler (shellBytes data st).1
    = after (handler st) (executed (shellBytes data st).2).
Proof.
  induction data as [| b data IH]; intros st; [reflexivity |].
  cbn [shellBytes].
  pose proof (shellByte_handler b st) as Hone.
  destruct (shellByte b st) as [st' evs].
  specialize (IH st').
  destruct (shellBytes data st') as [st'' evs'].
  cbn [fst snd] in *.
  rewrite executed_app, after_app, <- Hone. exact IH.
Qed.

Lemma shellLoop_handler (reads : list read) :
  forall st : @editor H,
    handler (shellLoop reads st).1.1
    = after (handler st) (executed (shellLoop reads st).1.2).
Proof.
  induction reads as [| r reads IH]; intros st; [reflexivity |].
  destruct r as [data | eof]; cbn [shellLoop];
    [| destruct eof; reflexivity].
  pose proof (shellBytes_handler data st) as Hone.
  destruct (shellBytes data st) as [st' evs].
  specialize (IH st').
  destruct (shellLoop reads st') as [[st'' evs'] returned].
  cbn [fst snd] in *.
  rewrite executed_app, after_app, <- Hone. exact IH.
Qed.

(** X23: the line editor changes the handler only through [Execute],
    one call after the other: whatever the channel delivers, the
    handler it ends with is the one it started with after the commands
    it executed, in order. *)
Theorem handleShell_handler (h : H) (reads : list read) :
  handler (handleShell h reads).1.1
  = after h (executed (handleShell h reads).1.2).
Proof.
  unfold handleShell.
  pose proof (shellLoop_handler reads {| cmdBuffer := []; handler := h |})
    as Hloop.
  destruct (shellLoop reads _) as [[st evs] returned].
  cbn [fst snd handler] in *.
  change (executed (?e :: ?l)) with (executed l).
  rewrite executed_app.
  destruct returned; cbn [executed omap]; rewrite app_nil_r; exact Hloop.
Qed.

(** One byte keeps the buffer plain and hands over well-formed
    commands only. *)
Lemma shellByte_plain_buffer (b : byte) (st : @editor H) :
  Forall (fun c => plain c = true) (cmdBuffer st) ->
  Forall (fun c => plain c = true) (cmdBuffer (shellByte b st).1)
  /\ Forall wellFormed (executed (shellByte b st).2).
Proof.
  intros Hbuf. unfold shellByte.
  destruct (Byte.eqb b x0d || Byte.eqb b x0a) eqn:Hend.
  - case_bool_decide as Hlen; [| split; [exact Hbuf | constructor]].
    destruct (Execute (handler st) (string_of_list_byte (cmdBuffer st)))
      as [[output status] h'].
    cbn [fst snd cmdBuffer]. split; [constructor |].
    cbn. constructor; [| constructor].
    split.
    + intros Hempty.
      apply (f_equal list_byte_of_string) in Hempty.
      rewrite list_byte_of_string_of_list_byte in Hempty.
      cbn in Hempty. rewrite Hempty in Hlen. unfold len in Hlen.
      cbn in Hlen. lia.
    + rewrite list_byte_of_string_of_list_byte. exact Hbuf.
  - destruct (Byte.eqb b x7f || Byte.eqb b x08) eqn:Herase.
    + case_bool_decide; cbn [fst snd cmdBuffer];
        (split; [| constructor]); [apply Forall_take |]; exact Hbuf.
    + cbn [fst snd cmdBuffer]. split; [| constructor].
      apply Forall_app. split; [exact Hbuf |].
      constructor; [| constructor].
      unfold plain. apply orb_false_iff in Hend as [-> ->].
      apply orb_false_iff in Herase as [-> ->]. reflexivity.
Qed.

Lemma shellBytes_plain_buffer (data : list byte) :
  forall st : @editor H,
    Forall (fun c => plain c = true) (cmdBuffer st) ->
    Forall (fun c => plain c = true) (cmdBuffer (shellBytes data st).1)
    /\ Forall wellFormed (executed (shellBytes data st).2).
Proof.
  induction data as [| b data IH]; intros st Hbuf.
  - split; [exact Hbuf | constructor].
  - cbn [shellBytes].
    destruct (shellByte_plain_buffer b st Hbuf) as [Hbuf' Hcmds].
    destruct (shellByte b st) as [st' evs]. cbn [fst snd] in *.
    destruct (IH st' Hbuf') as [Hbuf'' Hcmds'].
    destruct (shellBytes data st') as [st'' evs']. cbn [fst snd] in *.
    split; [exact Hbuf'' |].
    rewrite executed_app. apply Forall_app. auto.
Qed.

Lemma shellLoop_plain_buffer (reads : list read) :
  forall st : @editor H,
    Forall (fun c => plain c = true) (cmdBuffer st) ->
    Forall wellFormed (executed (shellLoop reads st).1.2).
Proof.
  induction reads as [| r reads IH]; intros st Hbuf; [constructor |].
  destruct r as [data | eof]; cbn [shellLoop];
    [| destruct eof; cbn; constructor].
  destruct (shellBytes_plain_buffer data st Hbuf) as [Hbuf' Hcmds].
  destruct (shellBytes data st) as [st' evs]. cbn [fst snd] in *.
  specialize (IH st' Hbuf').
  destruct (shellLoop reads st') as [[st'' evs'] returned].
  cbn [fst snd] in *.
  rewrite executed_app. apply Forall_app. auto.
Qed.

(** X24: what the line editor never hands over.  Whatever bytes the
    channel delivers, a command passed to [Execute] is never empty and
    never holds a carriage return, a line feed, a backspace or a
    delete byte. *)
Theorem handleShell_commands_well_formed (h : H) (reads : list read) :
  Forall wellFormed (executed (handleShell h reads).1.2).
Proof.
  unfold handleShell.
  pose proof (shellLoop_plain_buffer reads
                {| cmdBuffer := []; handler := h |} (Forall_nil_2 _)) as Hloop.
  destruct (shellLoop reads _) as [[st evs] returned].
  cbn [fst snd] in *.
  change (executed (?e :: ?l)) with (executed l).
  rewrite executed_app. apply Forall_app. split; [exact Hloop |].
  destruct returned; constructor.
Qed.

(** Erase bytes, one after the other. *)
Lemma shellBytes_erase (b : byte) (n : nat) :
  b = x7f \/ b = x08 ->
  forall st : @editor H,
    shellBytes (replicate n b) st
    = ({| cmdBuffer := take (length (cmdBuffer st) - n) (cmdBuffer st);
          handler := handler st |},
       replicate (Nat.min n (length (cmdBuffer st))) erase).
Proof.
  intros Hb. induction n as [| n IH]; intros st.
  - cbn. rewrite Nat.sub_0_r, firstn_all, editor_eta. reflexivity.
  - cbn [replicate shellBytes].
    assert (Hone : shellByte b st
                   = if bool_decide (len (cmdBuffer st) > 0)
                     then ({| cmdBuffer :=
                                take (length (cmdBuffer st) - 1) (cmdBuffer st);
                              handler := handler st |}, [erase])
                     else (st, [])).
    { unfold shellByte. destruct Hb as [-> | ->]; reflexivity. }
    rewrite Hone. clear Hone.
    case_bool_decide as Hlen; rewrite IH; cbn [cmdBuffer handler].
    + unfold len in Hlen.
      rewrite length_take, take_take.
      replace (Nat.min (length (cmdBuffer st) - 1) (length (cmdBuffer st)))
        with (length (cmdBuffer st) - 1)%nat by lia.
      replace (Nat.min (length (cmdBuffer st) - 1 - n)
                 (length (cmdBuffer st) - 1))
        with (length (cmdBuffer st) - S n)%nat by lia.
      replace (Nat.min (S n) (length (cmdBuffer st)))
        with (S (Nat.min n (length (cmdBuffer st) - 1))) by lia.
      reflexivity.
    + unfold len in Hlen.
      assert (Hnil : length (cmdBuffer st) = 0%nat) by lia.
      rewrite Hnil. rewrite !Nat.min_0_r. cbn. reflexivity.
Qed.

(** X25: erasing.  [n] backspace or delete bytes drop the last [n]
    bytes of the buffer, or all of it if it is shorter, write one
    erase sequence per byte dropped and run no command; so typing
    plain bytes and then as many erase bytes leaves buffer and handler
    as they were. *)
Theorem line_editor_erases (b : byte) (n : nat) (st : @editor H) :
  b = x7f \/ b = x08 ->
  shellBytes (replicate n b) st
  = ({| cmdBuffer := take (length (cmdBuffer st) - n) (cmdBuffer st);
        handler := handler st |},
     replicate (Nat.min n (length (cmdBuffer st))) erase)
  /\ (forall typo,
        Forall (fun c => plain c = true) typo ->
        shellBytes (typo ++ replicate (length typo) b) st
        = (st, echo typo ++ replicate (length typo) erase)).
Proof.
  intros Hb. split; [apply shellBytes_erase; exact Hb |].
  intros typo Hplain.
  rewrite shellBytes_app, (shellBytes_plain typo _ Hplain).
  rewrite (shellBytes_erase b _ Hb). cbn [cmdBuffer handler].
  rewrite length_app.
  replace (length (cmdBuffer st) + length typo - length typo)%nat
    with (length (cmdBuffer st)) by lia.
  rewrite take_app_length, editor_eta.
  replace (Nat.min (length typo) (length (cmdBuffer st) + length typo))
    with (length typo) by lia.
  reflexivity.
Qed.

Lemma shellByte_no_close (b : byte) (st : @editor H) :
  EvClose ∉ (shellByte b st).2.
Proof.
  unfold shellByte.
  destruct (Byte.eqb b x0d || Byte.eqb b x0a).
  - case_bool_decide.
    + destruct (Execute (handler st) (string_of_list_byte (cmdBuffer st)))
        as [[output status] h'].
      cbn [snd]. intros Hin. member_cases Hin.
    + cbn [snd]. intros Hin. member_cases Hin.
  - destruct (Byte.eqb b x7f || Byte.eqb b x08).
    + case_bool_decide; cbn [snd]; intros Hin; member_cases Hin.
    + cbn [snd]. intros Hin. member_cases Hin.
Qed.

Lemma shellBytes_no_close (data : list byte) :
  forall st : @editor H, EvClose ∉ (shellBytes data st).2.
Proof.
  induction data as [| b data IH]; intros st.
  - cbn. intros Hin. member_cases Hin.
  - cbn [shellBytes].
    pose proof (shellByte_no_close b st) as Hone.
    destruct (shellByte b st) as [st' evs].
    specialize (IH st').
    destruct (shellBytes data st') as [st'' evs'].
    cbn [snd] in *. rewrite elem_of_app. tauto.
Qed.

(** X26: reads.  The line editor depends on the bytes delivered, not
    on how the channel cuts them into reads; nothing delivered after a
    read error is looked at; and the channel is closed, as the last
    act, exactly when a read has failed. *)
Theorem handleShell_reads (h : H) :
  (forall (chunks chunks' : list (list byte)) (ending : list read),
     concat chunks = concat chunks' ->
     handleShell h (map ReadBytes chunks ++ ending)
     = handleShell h (map ReadBytes chunks' ++ ending))
  /\ (forall (chunks : list (list byte)) (eof : bool) (later : list read),
        handleShell h (map ReadBytes chunks ++ ReadError eof :: later)
        = handleShell h (map ReadBytes chunks ++ [ReadError eof])
        /\ exists evs,
             (handleShell h (map ReadBytes chunks ++ [ReadError eof])).1.2
             = evs ++ [EvClose]
             /\ (EvClose ∉ evs))
  /\ (forall chunks : list (list byte),
        EvClose ∉ (handleShell h (map ReadBytes chunks)).1.2).
Proof.
  split; [| split].
  - intros chunks chunks' ending Hsame. unfold handleShell.
    rewrite !shellLoop_chunks, Hsame. reflexivity.
  - intros chunks eof later. unfold handleShell.
    rewrite !shellLoop_chunks.
    destruct (shellBytes (concat chunks) _) as [st evs] eqn:Hbytes.
    cbn [shellLoop]. split; [reflexivity |].
    cbn [fst snd].
    exists (EvWrite (list_byte_of_string (GetPrompt h))
              :: evs ++ (if eof then [] else [EvLog LogReadError])).
    split; [cbn [app]; rewrite <- !app_assoc; reflexivity |].
    pose proof (shellBytes_no_close (concat chunks)
                  {| cmdBuffer := []; handler := h |}) as Hno.
    rewrite Hbytes in Hno. cbn [snd] in Hno.
    intros Hin. apply elem_of_cons in Hin as [Hin | Hin]; [discriminate |].
    apply elem_of_app in Hin as [Hin | Hin]; [exact (Hno Hin) |].
    destruct eof; member_cases Hin.
  - intros chunks. unfold handleShell.
    rewrite <- (app_nil_r (map ReadBytes chunks)), shellLoop_chunks.
    pose proof (shellBytes_no_close (concat chunks)
                  {| cmdBuffer := []; handler := h |}) as Hno.
    destruct (shellBytes (concat chunks) _) as [st evs].
    cbn [shellLoop fst snd] in *.
    intros Hin. apply elem_of_cons in Hin as [Hin | Hin]; [discriminate |].
    rewrite !app_nil_r in Hin. exact (Hno Hin).
Qed.

End ShellFurther.

Section ShellResults.

Import Srv Spec Fixtures.

Lemma line_editor_runs_typed_line_witness :
  @shellBytes nat Counting ([x6c; x73] ++ [x0a])
    {| cmdBuffer := []; handler := 0%nat |}
  = ({| cmdBuffer := []; handler := 1%nat |},
     echo [x6c; x73]
       ++ [EvExecute "ls";
           EvWrite (list_byte_of_string
                      (CRLF ++ "ls" ++ CRLF ++ "$ "))]).
Proof.
  apply (@line_editor_runs_typed_line nat Counting 0%nat [x6c; x73] x0a).
  - repeat constructor.
  - discriminate.
  - right. reflexivity.
Defined.

Lemma line_editor_runs_lines_witness :
  let result :=
    @handleShell nat Counting 0%nat
      (map ReadBytes [[x6c]; [x73; x0d; x0d; x70]; [x73; x0d]]
         ++ [ReadError true]) in
  executed result.1.2 = ["ls"%string; "ps"%string]
  /\ cmdBuffer result.1.1 = []
  /\ handler result.1.1 = 2%nat.
Proof.
  apply (@line_editor_runs_lines nat Counting 0%nat
           [[x6c; x73]; []; [x70; x73]]).
  - repeat constructor.
  - reflexivity.
  - right. exists true. reflexivity.
Defined.

Lemma line_editor_erases_witness :
  @shellBytes nat Counting ([x6c; x73] ++ replicate 2 x7f)
    {| cmdBuffer := [x70]; handler := 0%nat |}
  = ({| cmdBuffer := [x70]; handler := 0%nat |},
     echo [x6c; x73] ++ replicate 2 erase).
Proof.
  apply (proj2 (@line_editor_erases nat Counting x7f 0%nat
                  {| cmdBuffer := [x70]; handler := 0%nat |}
                  (or_introl eq_refl)) [x6c; x73]).
  repeat constructor.
Defined.

Lemma handleShell_reads_witness :
  @handleShell nat Counting 0%nat
    (map ReadBytes [[x6c; x73]; [x0d]] ++ [ReadError true])
  = @handleShell nat Counting 0%nat
      (map ReadBytes [[x6c]; [x73; x0d]] ++ [ReadError true]).
Proof.
  apply (proj1 (@handleShell_reads nat Counting 0%nat)).
  reflexivity.
Defined.

End ShellResults.

(** ** Connection supervisor *)

Section ConnFurther.

Import Conn Spec.

Lemma started_app (evs evs' : list connEvent) :
  started (evs ++ evs') = started evs ++ started evs'.
Proof. unfold started. apply omap_app. Qed.

(** The channel loop starts a router for the servable channels, and
    does nothing else that lasts. *)
Lemma serveChannels_spec (chans : list ChannelOpen) :
  forall index,
    started (serveChannels index chans) = servable index chans
    /\ (CnClose ∉ serveChannels index chans)
    /\ (CnCloseSSH ∉ serveChannels index chans)
    /\ (CnGoGlobalRequests ∉ serveChannels index chans).
Proof.
  induction chans as [| c chans IH]; intros index.
  - cbn. repeat split; intros Hin; member_cases Hin.
  - cbn [serveChannels servable].
    destruct (IH (S index)) as (Hstarted & Hclose & Hssh & Hgo).
    rewrite started_app, Hstarted.
    case_bool_decide as Hsession; cbn [negb andb];
      [destruct (AcceptFails c); cbn [negb] |];
      (split; [reflexivity |]);
      repeat split; intros Hin;
      apply elem_of_app in Hin as [Hin | Hin]; try tauto;
      member_cases Hin.
Qed.

(** X27: the life of a connection.  Whether the handshake fails or
    succeeds, [handleConnection] closes the raw connection exactly
    once, as its last act, and the SSH connection just before it when
    the handshake succeeded.  After a failed handshake nothing is
    started; after a successful one the global-request drain is
    started, and a router for exactly the session channels whose
    [Accept] succeeds, in the order they were opened. *)
Theorem handleConnection_lifecycle (handshake : bool)
    (chans : list ChannelOpen) :
  let evs := handleConnection handshake chans in
  (exists before,
     evs = before ++ (if handshake then [CnCloseSSH; CnClose] else [CnClose])
     /\ (CnClose ∉ before) /\ (CnCloseSSH ∉ before))
  /\ started evs = (if handshake then servable 0 chans else [])
  /\ (CnGoGlobalRequests ∈ evs <-> handshake = true).
Proof.
  cbv zeta. unfold handleConnection.
  destruct (serveChannels_spec chans 0) as (Hstarted & Hclose & Hssh & Hgo).
  destruct handshake.
  - split; [| split].
    + exists ([CnLogNewConnection; CnLogEstablished; CnGoGlobalRequests]
                ++ serveChannels 0 chans).
      split; [rewrite <- app_assoc; reflexivity |].
      split; intros Hin; apply elem_of_app in Hin as [Hin | Hin];
        try tauto; member_cases Hin.
    + rewrite !started_app, Hstarted. cbn. rewrite app_nil_r. reflexivity.
    + split; [reflexivity |]. intros _.
      apply elem_of_app. left. rewrite !elem_of_cons. auto.
  - split; [| split].
    + exists [CnLogNewConnection; CnLogHandshakeFailed].
      split; [reflexivity |].
      split; intros Hin; member_cases Hin.
    + reflexivity.
    + split; [intros Hin; member_cases Hin | discriminate].
Qed.

(** X28: global requests.  [handleGlobalRequests] logs every request,
    in order, and answers exactly those that want a reply, each
    negatively: it never acknowledges a global request. *)
Theorem handleGlobalRequests_refuses (reqs : list Request) :
  let evs := handleGlobalRequests reqs in
  globalLogged evs = map Type_ reqs
  /\ globalReplies evs
     = replicate (length (filter (fun req => WantReply req = true) reqs))
         false.
Proof.
  cbv zeta. induction reqs as [| req reqs [IHlog IHreplies]];
    [split; reflexivity |].
  cbn [handleGlobalRequests map].
  rewrite filter_cons.
  change (globalLogged (GlLog (Type_ req)
            :: (if WantReply req then [GlReply false] else [])
            ++ handleGlobalRequests reqs))
    with (Type_ req
            :: globalLogged ((if WantReply req then [GlReply false] else [])
                               ++ handleGlobalRequests reqs)).
  change (globalReplies (GlLog (Type_ req)
            :: (if WantReply req then [GlReply false] else [])
            ++ handleGlobalRequests reqs))
    with (globalReplies ((if WantReply req then [GlReply false] else [])
                           ++ handleGlobalRequests reqs)).
  destruct (WantReply req); destruct (decide _) as [Ht | Hf];
    try congruence; cbn [app].
  - change (globalLogged (GlReply false :: handleGlobalRequests reqs))
      with (globalLogged (handleGlobalRequests reqs)).
    change (globalReplies (GlReply false :: handleGlobalRequests reqs))
      with (false :: globalReplies (handleGlobalRequests reqs)).
    rewrite IHlog, IHreplies. split; reflexivity.
  - rewrite IHlog, IHreplies. split; reflexivity.
Qed.

End ConnFurther.

(** ** Start, Stop and the goroutines *)

Section LifecycleFurther.

Import Lifecycle LifecycleFacts Spec.

Lemma unstopped_init : unstopped init.
Proof. intros _. split; [reflexivity |]. intros Hl. exfalso. apply Hl. reflexivity. Qed.

Lemma step_unstopped (a : action) (s s' : state) :
  unstopped s -> step a s = Some s' -> unstopped s'.
Proof.
  unfold unstopped. intros Hs Hstep.
  destruct a; cbn [step] in Hstep;
    repeat match type of Hstep with
      | (if ?c then _ else _) = Some _ => destruct c eqn:?; try discriminate
      | match ?x with _ => _ end = Some _ => destruct x eqn:?; try discriminate
      end;
    injection Hstep as <-; read_fields;
    repeat match goal with
      | E : _ && _ = true |- _ => apply andb_prop in E as [? ?]
      end;
    try discriminate; try exact Hs;
    try (intros Hstop; destruct (Hs Hstop) as [Hdone Hacc]; congruence).
  intros Hstop. destruct (Hs Hstop) as [Hdone _]. split; [exact Hdone | reflexivity].
Qed.

Lemma reachable_unstopped (s : state) : reachable s -> unstopped s.
Proof.
  intros [schedule Hrun]. revert Hrun. generalize unstopped_init.
  generalize init. induction schedule as [| a schedule IH];
    intros s0 Hs0 Hrun; cbn in Hrun.
  - injection Hrun as <-. exact Hs0.
  - destruct (step a s0) as [s1 |] eqn:Hstep; [| discriminate].
    apply (IH s1); [apply (step_unstopped a s0 s1 Hs0 Hstep) | exact Hrun].
Qed.

(** X29: the wait group and the accept loop.  In every state the
    server can reach, the counter of [s.wg] is not negative, so that
    no [Done] can make the wait group panic; and as long as [Stop] has
    not been called the shutdown marker is open and the accept loop,
    once started, is still running: a failing [Accept] does not end
    it. *)
Theorem waitgroup_never_negative (s : state) :
  reachable s ->
  0 <= wg s
  /\ (stop s = NotCalled ->
      done s = false /\ (listener s <> None -> accepting s = true)).
Proof.
  intros Hs. split.
  - destruct (reachable_counted s Hs) as (Hwg & _). lia.
  - exact (reachable_unstopped s Hs).
Qed.

Lemma waitgroup_never_negative_witness :
  exists s,
    run [StartListening; AcceptError; AcceptConnection; Handshake true] init
    = Some s
    /\ 0 <= wg s
    /\ (stop s = NotCalled ->
        done s = false /\ (listener s <> None -> accepting s = true)).
Proof.
  eexists. split; [vm_compute; reflexivity |].
  apply waitgroup_never_negative.
  exists [StartListening; AcceptError; AcceptConnection; Handshake true].
  reflexivity.
Defined.

(** Once [Stop] waits, the counted goroutines can return one after the
    other, whatever their number. *)
Lemma wind_down (k : nat) :
  forall s,
    counted s -> stop s = Waiting -> tracked s = k ->
    exists schedule s',
      Forall (fun a => isReturn a = true) schedule
      /\ length schedule = S k
      /\ run schedule s = Some s'
      /\ stop s' = Returned None
      /\ drains s' = drains s /\ routers s' = routers s
      /\ shells s' = shells s.
Proof.
  induction k as [| k IH]; intros s Hs Hstop Hk.
  - exists [StopWaitReturn], (setStop (Returned None) s).
    destruct Hs as (Hwg & _). rewrite Hk in Hwg.
    split; [repeat constructor |]. split; [reflexivity |].
    split; [| repeat split].
    cbn [run step]. rewrite Hstop, Hwg. reflexivity.
  - assert (Hnext : exists a s1,
               isReturn a = true /\ step a s = Some s1
               /\ stop s1 = Waiting /\ tracked s1 = k
               /\ drains s1 = drains s /\ routers s1 = routers s
               /\ shells s1 = shells s).
    { pose proof Hs as (_ & Hdone & _).
      assert (Hd : done s = true) by (apply Hdone; rewrite Hstop; discriminate).
      unfold tracked in Hk.
      destruct (accepting s) eqn:Hacc.
      - exists AcceptReturn, (wgAdd (-1) (setAccepting false s)).
        split; [reflexivity |]. split.
        + cbn [step]. rewrite Hacc, Hd. reflexivity.
        + unfold tracked. read_fields. repeat split; try assumption. lia.
      - destruct (handshaking s) as [| n] eqn:Hh.
        + destruct (serving s) as [| n] eqn:Hsv; [discriminate |].
          exists ConnectionEnd, (wgAdd (-1) (setServing n s)).
          split; [reflexivity |]. split.
          * cbn [step]. rewrite Hsv. reflexivity.
          * unfold tracked. read_fields. rewrite Hacc, Hh.
            repeat split; try assumption. lia.
        + exists (Handshake false), (wgAdd (-1) (setHandshaking n s)).
          split; [reflexivity |]. split.
          * cbn [step]. rewrite Hh. reflexivity.
          * unfold tracked. read_fields. rewrite Hacc.
            repeat split; try assumption. lia. }
    destruct Hnext as (a & s1 & Ha & Hstep & Hstop1 & Hk1 & Hd1 & Hr1 & Hsh1).
    destruct (IH s1 (step_counted a s s1 Hs Hstep) Hstop1 Hk1)
      as (schedule & s' & Hall & Hlen & Hrun & Hret & Hd' & Hr' & Hsh').
    exists (a :: schedule), s'.
    split; [constructor; assumption |].
    split; [cbn [length]; rewrite Hlen; reflexivity |].
    split; [cbn [run]; rewrite Hstep; exact Hrun |].
    repeat split; congruence.
Qed.

(** X30: [Stop] can always return.  From every reachable state in
    which [Stop] waits on the wait group there is a way on that lets
    [Stop] return without error: the accept loop and the connection
    goroutines return, one step for each of them, and then [Wait]
    does; no channel goroutine has to end for it, the drains, routers
    and shells are left as they were. *)
Theorem Stop_can_return (s : state) :
  reachable s -> stop s = Waiting ->
  exists schedule s',
    Forall (fun a => isReturn a = true) schedule
    /\ length schedule = S (tracked s)
    /\ run schedule s = Some s'
    /\ stop s' = Returned None
    /\ drains s' = drains s /\ routers s' = routers s
    /\ shells s' = shells s.
Proof.
  intros Hs Hstop.
  apply (wind_down (tracked s) s (reachable_counted s Hs) Hstop eq_refl).
Qed.

Lemma Stop_can_return_witness :
  exists s schedule s',
    run [StartListening; AcceptConnection; Handshake true; NewChannel true;
         AcceptConnection; StopCloseDone; StopCloseListener true] init
    = Some s
    /\ Forall (fun a => isReturn a = true) schedule
    /\ length schedule = 4%nat
    /\ run schedule s = Some s'
    /\ stop s' = Returned None
    /\ drains s' = 1%nat /\ routers s' = 1%nat /\ shells s' = 0%nat.
Proof.
  pose (s := {| done := true; listener := Some false; wg := 3;
                accepting := true; handshaking := 1; serving := 1;
                drains := 1; routers := 1; shells := 0; stop := Waiting |}).
  destruct (Stop_can_return s) as (schedule & s' & Hrest);
    [| reflexivity | exists s, schedule, s'; split; [reflexivity | exact Hrest]].
  exists [StartListening; AcceptConnection; Handshake true; NewChannel true;
          AcceptConnection; StopCloseDone; StopCloseListener true].
  reflexivity.
Defined.

End LifecycleFurther.
